(** * Thrift binary protocol decoder (test-infrastructure/proxy-server/thrift_decoder.py)

    A shallow embedding of the [ThriftDecoder] class and of the module-level
    functions [decode_thrift_message] and [format_thrift_message], followed by
    the properties of the decoder stated in the specification.

    Conventions of the embedding.
    - A Python [bytes] object is a [list byte]; a Python [str] is the
      [string] of its UTF-8 encoding (one [ascii] per byte), which is
      injective on the strings the decoder can build.
    - A Python [int] is a [Z]; a [float] is kept as the 64-bit pattern that
      was read from the wire.
    - A Python [dict] whose iteration order is observable is an association
      list in insertion order ([dict_set] is [d[k] = v]); the id-to-name
      table, of which only lookups and the size are used, is a [gmap].
    - The decoder object is a record; every method is a function from the
      decoder to an [outcome] that carries the decoder as the method left
      it, whether it returned or raised. *)

From Stdlib Require Import ZArith NArith Lia List Bool Ascii String.
From Stdlib.Strings Require Import Byte.
From Stdlib Require Import Sorted.
From stdpp Require Import base decidable option list strings pretty gmap.

Import ListNotations.
Local Open Scope Z_scope.

(** ** Python values produced by the decoder *)

#[local] Set Warnings "-register-all".

Inductive value : Type :=
| VBool (b : bool)
| VInt (n : Z)
| VFloat (bits : Z)
| VStr (s : string)
| VList (xs : list value)
| VDict (kvs : list (value * value))
| VStruct (fs : list (string * value))
| VField (type_name : string) (v : value) (field_id : Z)
| VFieldErr (type_name : string) (err : string) (field_id : Z).

(** [VList] is a Python list (Thrift set and list), [VDict] the dict built
    by [_read_map], [VStruct] the dict built by [read_struct] (string keys),
    [VField] the dict [{"type": t, "value": v, "field_id": i}] and
    [VFieldErr] the dict [{"type": t, "error": msg, "field_id": i}]. *)

(** ** Exceptions *)

Inductive py_exn : Type :=
| EOFError (msg : string)
| ValueError (msg : string)
| TypeError (msg : string)
| UnicodeDecodeError (msg : string).

Definition exn_str (e : py_exn) : string :=
  match e with
  | EOFError m | ValueError m | TypeError m | UnicodeDecodeError m => m
  end.

Definition exn_type_name (e : py_exn) : string :=
  match e with
  | EOFError _ => "EOFError"
  | ValueError _ => "ValueError"
  | TypeError _ => "TypeError"
  | UnicodeDecodeError _ => "UnicodeDecodeError"
  end.

Definition is_EOFError (e : py_exn) : bool :=
  match e with EOFError _ => true | _ => false end.

(** ** The decoder object *)

Record decoder : Type := mkDecoder {
  stream : list byte;            (* unread part of the BytesIO *)
  pos : Z;
  data_len : Z;
  method_name : option string;
  message_type : option Z;
  field_name_map : gmap Z string
}.

Definition set_stream (bs : list byte) (s : decoder) : decoder :=
  mkDecoder bs (pos s) (data_len s) (method_name s) (message_type s)
            (field_name_map s).

Definition add_pos (n : Z) (s : decoder) : decoder :=
  mkDecoder (stream s) (pos s + n) (data_len s) (method_name s)
            (message_type s) (field_name_map s).

(** [ThriftDecoder.__init__] *)
Definition new_decoder (data : list byte) (name : option string) : decoder :=
  mkDecoder data 0 (Z.of_nat (length data)) name None ∅.

(** A call either returns, raises, or (in the embedding only) runs out of
    the fuel given to a [while] loop. *)
Inductive outcome (A : Type) : Type :=
| Return (a : A) (s : decoder)
| Raise (e : py_exn) (s : decoder)
| OutOfFuel.
Arguments Return {A} a s.
Arguments Raise {A} e s.
Arguments OutOfFuel {A}.

Definition M (A : Type) : Type := decoder -> outcome A.

Definition ret {A} (a : A) : M A := fun s => Return a s.
Definition raise {A} (e : py_exn) : M A := fun s => Raise e s.
Definition bind {A B} (m : M A) (k : A -> M B) : M B :=
  fun s => match m s with
           | Return a s' => k a s'
           | Raise e s' => Raise e s'
           | OutOfFuel => OutOfFuel
           end.

Notation "'let*' x ':=' m 'in' k" := (bind m (fun x => k))
  (at level 10, x name, m at level 100, k at level 200).

(** [self.stream.read(n)]: at most [n] bytes, all consumed from the stream. *)
Definition stream_read (n : nat) : M (list byte) :=
  fun s => Return (take n (stream s)) (set_stream (drop n (stream s)) s).

Definition advance (n : Z) : M unit := fun s => Return tt (add_pos n s).
Definition get_pos : M Z := fun s => Return (pos s) s.

(** ** struct.unpack, big endian *)

Definition be_unsigned (bs : list byte) : Z :=
  fold_left (fun acc b => acc * 256 + Z.of_N (Byte.to_N b)) bs 0.

Definition be_signed (bs : list byte) : Z :=
  let u := be_unsigned bs in
  let w := 8 * Z.of_nat (length bs) in
  if u <? 2 ^ (w - 1) then u else u - 2 ^ w.

Definition eof_at (p : Z) : py_exn :=
  EOFError ("Unexpected end of stream at position " +:+ pretty p).

Definition read_fixed (n : nat) : M (list byte) :=
  let* data := stream_read n in
  if (length data <? n)%nat
  then (let* p := get_pos in raise (eof_at p))
  else (let* _ := advance (Z.of_nat n) in ret data).

Definition read_byte : M Z := let* b := read_fixed 1 in ret (be_signed b).
Definition read_i16 : M Z := let* b := read_fixed 2 in ret (be_signed b).
Definition read_i32 : M Z := let* b := read_fixed 4 in ret (be_signed b).
Definition read_i64 : M Z := let* b := read_fixed 8 in ret (be_signed b).
Definition read_double : M Z := let* b := read_fixed 8 in ret (be_unsigned b).

(** ** bytes.decode("utf-8") and bytes.hex() *)

Definition in_range (lo hi : N) (b : byte) : bool :=
  let n := Byte.to_N b in ((lo <=? n) && (n <=? hi))%N.

Definition cont (b : byte) : bool := in_range 128 191 b.

(** Well-formed UTF-8 as accepted by the strict codec: no overlong forms,
    no surrogates, nothing above U+10FFFF. *)
Fixpoint utf8_valid (bs : list byte) : bool :=
  match bs with
  | [] => true
  | b0 :: r0 =>
    if in_range 0 127 b0 then utf8_valid r0
    else match r0 with
    | [] => false
    | b1 :: r1 =>
      if in_range 194 223 b0 then cont b1 && utf8_valid r1
      else match r1 with
      | [] => false
      | b2 :: r2 =>
        if in_range 224 239 b0 then
          (if in_range 224 224 b0 then in_range 160 191 b1
           else if in_range 237 237 b0 then in_range 128 159 b1
           else cont b1) && cont b2 && utf8_valid r2
        else match r2 with
        | [] => false
        | b3 :: r3 =>
          if in_range 240 244 b0 then
            (if in_range 240 240 b0 then in_range 144 191 b1
             else if in_range 244 244 b0 then in_range 128 143 b1
             else cont b1) && cont b2 && cont b3 && utf8_valid r3
          else false
        end
      end
    end
  end.

Definition hex_digit (n : N) : ascii :=
  ascii_of_N (if (n <? 10)%N then 48 + n else 87 + n)%N.

Fixpoint bytes_hex (bs : list byte) : string :=
  match bs with
  | [] => ""
  | b :: r =>
    let n := Byte.to_N b in
    String (hex_digit (n / 16)) (String (hex_digit (n mod 16)) (bytes_hex r))
  end.

(** ** read_string *)

Definition read_string : M string :=
  let* len := read_i32 in
  if len <? 0 then raise (ValueError ("Invalid string length: " +:+ pretty len))
  else if len >? 10 * 1024 * 1024
  then raise (ValueError ("String length too large: " +:+ pretty len))
  else
    let* data := stream_read (Z.to_nat len) in
    if (length data <? Z.to_nat len)%nat then
      let* p := get_pos in
      raise (EOFError
        ("Unexpected end of stream while reading string at position "
           +:+ pretty p))
    else
      let* _ := advance len in
      if utf8_valid data then ret (string_of_list_byte data)
      else
        let preview := bytes_hex (take 50 data) in
        let preview := if (50 <? length data)%nat
                       then preview +:+ "..." else preview in
        ret ("<binary:" +:+ preview +:+ ">").

(** ** Python dictionaries in insertion order *)

(** [d[k] = v]: an existing key keeps its place (and its key object) and
    takes the new value; a new key goes to the end. *)
Fixpoint dict_set {K V} (eqb : K -> K -> bool) (k : K) (v : V)
    (d : list (K * V)) : list (K * V) :=
  match d with
  | [] => [(k, v)]
  | (k', v') :: r =>
    if eqb k' k then (k', v) :: r else (k', v') :: dict_set eqb k v r
  end.

Definition struct_set := @dict_set string value String.eqb.

(** Equality of the floats with bit patterns [a] and [b]: NaN differs from
    everything, the two zeros are equal. *)
Definition float_is_nan (a : Z) : bool :=
  ((a / 2 ^ 52) mod 2 ^ 11 =? 2047) && negb (a mod 2 ^ 52 =? 0).

Definition float_eqb (a b : Z) : bool :=
  negb (float_is_nan a) && negb (float_is_nan b) &&
  ((a =? b) || ((a mod 2 ^ 63 =? 0) && (b mod 2 ^ 63 =? 0))).

(** Exact comparison of a float with an int. *)
Definition float_eq_int (a z : Z) : bool :=
  let e := (a / 2 ^ 52) mod 2 ^ 11 in
  let f := a mod 2 ^ 52 in
  let sgn := if a / 2 ^ 63 =? 0 then 1 else -1 in
  if e =? 2047 then false
  else
    let m := if e =? 0 then f else 2 ^ 52 + f in
    let ex := if e =? 0 then -1074 else e - 1075 in
    if 0 <=? ex then z =? sgn * m * 2 ^ ex
    else z * 2 ^ (- ex) =? sgn * m.

Definition int_of_bool (b : bool) : Z := if b then 1 else 0.

(** [==] on the values that can be dictionary keys. *)
Definition key_eqb (a b : value) : bool :=
  match a, b with
  | VStr x, VStr y => String.eqb x y
  | VBool x, VBool y => int_of_bool x =? int_of_bool y
  | VBool x, VInt y => int_of_bool x =? y
  | VInt x, VBool y => x =? int_of_bool y
  | VInt x, VInt y => x =? y
  | VFloat x, VFloat y => float_eqb x y
  | VFloat x, VInt y => float_eq_int x y
  | VInt x, VFloat y => float_eq_int y x
  | VFloat x, VBool y => float_eq_int x (int_of_bool y)
  | VBool x, VFloat y => float_eq_int y (int_of_bool x)
  | _, _ => false
  end.

Definition hashable (v : value) : bool :=
  match v with
  | VBool _ | VInt _ | VFloat _ | VStr _ => true
  | _ => false
  end.

(** The text of the [TypeError] that CPython (up to 3.13) raises when an
    unhashable object is used as a key. *)
Definition unhashable_error (v : value) : py_exn :=
  match v with
  | VList _ => TypeError "unhashable type: 'list'"
  | _ => TypeError "unhashable type: 'dict'"
  end.

(** [result[key] = value] in [_read_map] *)
Definition map_set (k v : value) (d : list (value * value))
  : M (list (value * value)) :=
  if hashable k then ret (dict_set key_eqb k v d)
  else raise (unhashable_error k).

(** ** Type tags *)

Definition T_STOP : Z := 0.
Definition T_VOID : Z := 1.
Definition T_BOOL : Z := 2.
Definition T_BYTE : Z := 3.
Definition T_I08 : Z := 3.
Definition T_DOUBLE : Z := 4.
Definition T_I16 : Z := 6.
Definition T_I32 : Z := 8.
Definition T_I64 : Z := 10.
Definition T_STRING : Z := 11.
Definition T_UTF7 : Z := 11.
Definition T_STRUCT : Z := 12.
Definition T_MAP : Z := 13.
Definition T_SET : Z := 14.
Definition T_LIST : Z := 15.
Definition T_UTF8 : Z := 16.
Definition T_UTF16 : Z := 17.

Definition TYPE_NAMES : list (Z * string) :=
  [(0, "STOP"); (1, "VOID"); (2, "BOOL"); (3, "BYTE"); (4, "DOUBLE");
   (6, "I16"); (8, "I32"); (10, "I64"); (11, "STRING"); (12, "STRUCT");
   (13, "MAP"); (14, "SET"); (15, "LIST"); (16, "UTF8"); (17, "UTF16")].

Fixpoint assoc_get {V} (k : Z) (d : list (Z * V)) : option V :=
  match d with
  | [] => None
  | (k', v) :: r => if k' =? k then Some v else assoc_get k r
  end.

(** [self.TYPE_NAMES.get(field_type, f"type_{field_type}")] *)
Definition type_name_of (field_type : Z) : string :=
  match assoc_get field_type TYPE_NAMES with
  | Some n => n
  | None => "type_" +:+ pretty field_type
  end.

Definition MESSAGE_TYPE_CALL : Z := 1.
Definition MESSAGE_TYPE_REPLY : Z := 2.
Definition MESSAGE_TYPE_EXCEPTION : Z := 3.
Definition MESSAGE_TYPE_ONEWAY : Z := 4.

Definition MESSAGE_TYPE_NAMES : list (Z * string) :=
  [(1, "CALL"); (2, "REPLY"); (3, "EXCEPTION"); (4, "ONEWAY")].

(** ** skip_field and _skip_struct *)

(** [for _ in range(n): body] *)
Fixpoint for_range (n : nat) (body : M unit) : M unit :=
  match n with
  | O => ret tt
  | S n' => let* _ := body in for_range n' body
  end.

(** The [while True] loop of [_skip_struct]; every round that goes on has
    consumed the tag byte, so the number of unread bytes plus one bounds
    the rounds. *)
Fixpoint skip_struct_loop (skip : Z -> M unit) (fuel : nat) : M unit :=
  match fuel with
  | O => fun _ => OutOfFuel
  | S fuel' =>
    let* field_type := read_byte in
    if field_type =? T_STOP then ret tt
    else
      let* _ := read_i16 in
      let* _ := skip field_type in
      skip_struct_loop skip fuel'
  end.

Definition skip_struct_with (skip : Z -> M unit) : M unit :=
  fun s => skip_struct_loop skip (S (length (stream s))) s.

(** [skip_field(field_type, max_depth)]; the depth is a [nat], [0] standing
    for every [max_depth <= 0]. *)
Fixpoint skip_field_n (max_depth : nat) (field_type : Z) : M unit :=
  match max_depth with
  | O => raise (ValueError
                  "Maximum recursion depth exceeded while skipping field")
  | S d =>
    if (field_type =? T_BOOL) || (field_type =? T_BYTE) then
      let* _ := read_byte in ret tt
    else if field_type =? T_I16 then let* _ := read_i16 in ret tt
    else if field_type =? T_I32 then let* _ := read_i32 in ret tt
    else if field_type =? T_I64 then let* _ := read_i64 in ret tt
    else if field_type =? T_DOUBLE then let* _ := read_double in ret tt
    else if field_type =? T_STRING then let* _ := read_string in ret tt
    else if field_type =? T_STRUCT then skip_struct_with (skip_field_n d)
    else if field_type =? T_MAP then
      let* key_type := read_byte in
      let* val_type := read_byte in
      let* size := read_i32 in
      for_range (Z.to_nat size)
        (let* _ := skip_field_n d key_type in skip_field_n d val_type)
    else if (field_type =? T_SET) || (field_type =? T_LIST) then
      let* elem_type := read_byte in
      let* size := read_i32 in
      for_range (Z.to_nat size) (skip_field_n d elem_type)
    else ret tt
  end.

Definition _skip_struct (max_depth : Z) : M unit :=
  skip_struct_with (skip_field_n (Z.to_nat max_depth)).

Definition skip_field (field_type : Z) (max_depth : Z) : M unit :=
  skip_field_n (Z.to_nat max_depth) field_type.

(** ** read_field_value, _read_map, _read_set, _read_list, read_struct *)

Fixpoint list_loop (rd : M value) (n : nat) (result : list value)
  : M (list value) :=
  match n with
  | O => ret result
  | S n' => let* v := rd in list_loop rd n' (result ++ [v])
  end.

Fixpoint map_loop (rdk rdv : M value) (n : nat)
    (result : list (value * value)) : M (list (value * value)) :=
  match n with
  | O => ret result
  | S n' =>
    let* key := rdk in
    let* val := rdv in
    let* result' := map_set key val result in
    map_loop rdk rdv n' result'
  end.

(** [_read_map(max_depth)], given [read_field_value(., max_depth)] *)
Definition read_map_with (rfv : Z -> M value) : M value :=
  let* key_type := read_byte in
  let* val_type := read_byte in
  let* size := read_i32 in
  if size >? 10000 then
    ret (VDict [(VStr "<large_map>", VStr (pretty size +:+ " entries"))])
  else
    let* result := map_loop (rfv key_type) (rfv val_type) (Z.to_nat size) [] in
    ret (VDict result).

Definition read_set_with (rfv : Z -> M value) : M value :=
  let* elem_type := read_byte in
  let* size := read_i32 in
  if size >? 10000 then
    ret (VList [VStr ("<large_set: " +:+ pretty size +:+ " entries>")])
  else
    let* result := list_loop (rfv elem_type) (Z.to_nat size) [] in
    ret (VList result).

Definition read_list_with (rfv : Z -> M value) : M value :=
  let* elem_type := read_byte in
  let* size := read_i32 in
  if size >? 10000 then
    ret (VList [VStr ("<large_list: " +:+ pretty size +:+ " entries>")])
  else
    let* result := list_loop (rfv elem_type) (Z.to_nat size) [] in
    ret (VList result).

(** The key under which [read_struct] files the field [field_id]. *)
Definition field_key (names : gmap Z string) (field_id : Z) : string :=
  match names !! field_id with
  | Some name => if String.eqb name "" then "field_" +:+ pretty field_id
                 else name
  | None => "field_" +:+ pretty field_id
  end.

(** The [while True] loop of [read_struct]. The outer [try] sees only the
    exceptions of the two header reads: [EOFError] ends the loop, any other
    exception is recorded under ["_parse_error"]. *)
Definition struct_header_failed (e : py_exn) (fields : list (string * value))
  : M (list (string * value)) :=
  if is_EOFError e then ret fields
  else ret (struct_set "_parse_error" (VStr (exn_str e)) fields).

Fixpoint struct_loop (rfv : Z -> M value) (skip : Z -> M unit) (fuel : nat)
    (fields : list (string * value)) (s : decoder)
  : outcome (list (string * value)) :=
  match fuel with
  | O => OutOfFuel
  | S fuel' =>
    match read_byte s with
    | OutOfFuel => OutOfFuel
    | Raise e s1 => struct_header_failed e fields s1
    | Return field_type s1 =>
      if field_type =? T_STOP then Return fields s1
      else
        match read_i16 s1 with
        | OutOfFuel => OutOfFuel
        | Raise e s2 => struct_header_failed e fields s2
        | Return field_id s2 =>
          let type_name := type_name_of field_type in
          let key := field_key (field_name_map s2) field_id in
          match rfv field_type s2 with
          | OutOfFuel => OutOfFuel
          | Return v s3 =>
            struct_loop rfv skip fuel'
              (struct_set key (VField type_name v field_id) fields) s3
          | Raise e s3 =>
            let fields' :=
              struct_set key (VFieldErr type_name (exn_str e) field_id) fields in
            match skip field_type s3 with
            | OutOfFuel => OutOfFuel
            | Return _ s4 => struct_loop rfv skip fuel' fields' s4
            | Raise _ s4 => Return fields' s4
            end
          end
        end
    end
  end.

(** [read_struct(max_depth)], given [read_field_value(., max_depth)] and
    [skip_field(., max_depth)] *)
Definition read_struct_with (max_depth : nat) (rfv : Z -> M value)
    (skip : Z -> M unit) : M value :=
  match max_depth with
  | O => ret (VStruct [("error", VStr "max_depth_exceeded")])
  | S _ =>
    fun s =>
      match struct_loop rfv skip (S (length (stream s))) [] s with
      | Return fields s' => Return (VStruct fields) s'
      | Raise e s' => Raise e s'
      | OutOfFuel => OutOfFuel
      end
  end.

Fixpoint read_field_value_n (max_depth : nat) (field_type : Z) : M value :=
  match max_depth with
  | O => ret (VStr "<max_depth_exceeded>")
  | S d =>
    if field_type =? T_BOOL then
      let* b := read_byte in ret (VBool (negb (b =? 0)))
    else if field_type =? T_BYTE then let* b := read_byte in ret (VInt b)
    else if field_type =? T_I16 then let* n := read_i16 in ret (VInt n)
    else if field_type =? T_I32 then let* n := read_i32 in ret (VInt n)
    else if field_type =? T_I64 then let* n := read_i64 in ret (VInt n)
    else if field_type =? T_DOUBLE then let* x := read_double in ret (VFloat x)
    else if field_type =? T_STRING then let* x := read_string in ret (VStr x)
    else if field_type =? T_STRUCT then
      read_struct_with d (read_field_value_n d) (skip_field_n d)
    else if field_type =? T_MAP then read_map_with (read_field_value_n d)
    else if field_type =? T_SET then read_set_with (read_field_value_n d)
    else if field_type =? T_LIST then read_list_with (read_field_value_n d)
    else ret (VStr ("<unknown_type:" +:+ pretty field_type +:+ ">"))
  end.

Definition read_struct_n (max_depth : nat) : M value :=
  read_struct_with max_depth (read_field_value_n max_depth)
                   (skip_field_n max_depth).

(** The methods with their integer depth argument (default 32). *)
Definition read_field_value (field_type : Z) (max_depth : Z) : M value :=
  read_field_value_n (Z.to_nat max_depth) field_type.

Definition _read_map (max_depth : Z) : M value :=
  read_map_with (read_field_value_n (Z.to_nat max_depth)).
Definition _read_set (max_depth : Z) : M value :=
  read_set_with (read_field_value_n (Z.to_nat max_depth)).
Definition _read_list (max_depth : Z) : M value :=
  read_list_with (read_field_value_n (Z.to_nat max_depth)).

Definition read_struct (max_depth : Z) : M value :=
  read_struct_n (Z.to_nat max_depth).

(** ** Message envelope, field names, whole messages *)

Fixpoint hex_go (fuel : nat) (n : N) (acc : string) : string :=
  match fuel with
  | O => acc
  | S fuel' =>
    if (n =? 0)%N then acc
    else hex_go fuel' (n / 16)%N (String (hex_digit (n mod 16)%N) acc)
  end.

(** [hex(z)] *)
Definition py_hex (z : Z) : string :=
  let digits n := if (n =? 0)%N then "0" else hex_go (N.to_nat (N.size n)) n "" in
  if z <? 0 then "-0x" +:+ digits (Z.to_N (- z)) else "0x" +:+ digits (Z.to_N z).

Definition KNOWN_METHODS : list string :=
  ["OpenSession"; "CloseSession"; "ExecuteStatement"; "GetOperationStatus";
   "FetchResults"; "CloseOperation"; "CancelOperation";
   "GetResultSetMetadata"; "GetSchemas"; "GetTables"; "GetColumns";
   "GetCatalogs"; "GetTableTypes"; "GetTypeInfo"].

Definition METHOD_TO_REQUEST_TYPE : list (string * string) :=
  [("OpenSession", "TOpenSessionReq");
   ("CloseSession", "TCloseSessionReq");
   ("ExecuteStatement", "TExecuteStatementReq");
   ("GetOperationStatus", "TGetOperationStatusReq");
   ("FetchResults", "TFetchResultsReq");
   ("CloseOperation", "TCloseOperationReq");
   ("CancelOperation", "TCancelOperationReq");
   ("GetResultSetMetadata", "TGetResultSetMetadataReq");
   ("GetSchemas", "TGetSchemasReq");
   ("GetTables", "TGetTablesReq");
   ("GetColumns", "TGetColumnsReq");
   ("GetCatalogs", "TGetCatalogsReq");
   ("GetTableTypes", "TGetTableTypesReq");
   ("GetTypeInfo", "TGetTypeInfoReq")].

Definition METHOD_TO_RESPONSE_TYPE : list (string * string) :=
  [("OpenSession", "TOpenSessionResp");
   ("CloseSession", "TCloseSessionResp");
   ("ExecuteStatement", "TExecuteStatementResp");
   ("GetOperationStatus", "TGetOperationStatusResp");
   ("FetchResults", "TFetchResultsResp");
   ("CloseOperation", "TCloseOperationResp");
   ("CancelOperation", "TCancelOperationResp");
   ("GetResultSetMetadata", "TGetResultSetMetadataResp");
   ("GetSchemas", "TGetSchemasResp");
   ("GetTables", "TGetTablesResp");
   ("GetColumns", "TGetColumnsResp");
   ("GetCatalogs", "TGetCatalogsResp");
   ("GetTableTypes", "TGetTableTypesResp");
   ("GetTypeInfo", "TGetTypeInfoResp")].

Fixpoint str_get {V} (k : string) (d : list (string * V)) : option V :=
  match d with
  | [] => None
  | (k', v) :: r => if String.eqb k' k then Some v else str_get k r
  end.

(** One entry of a generated [thrift_spec]: [None] for a hole (or a tuple
    too short to name a field), otherwise (field id, wire type, name). *)
Definition spec_entry : Type := option (Z * Z * string).

(** The generated Thrift module, which is not part of this repository: a
    struct type name gives the [thrift_spec] of the class of that name, if
    the module has such a class with a non-empty spec. *)
Definition thrift_module : Type := string -> option (list spec_entry).

(** The decoded message, a dict with fixed keys, and the two error dicts. *)
Record message : Type := mkMessage {
  m_method : string;
  m_message_type : string;
  m_sequence_id : Z;
  m_fields : value;
  m_bytes_decoded : Z;
  m_total_bytes : Z;
  m_protocol : option string;
  m_field_names_resolved : bool;
  m_resolved_fields_count : option Z;
  m_struct_type : option string
}.

Inductive decoded : Type :=
| DMessage (m : message)
| DError (error error_type : string) (bytes_decoded_total : option (Z * Z)).

(** A module-level function returns, raises, or runs out of fuel. *)
Inductive completion (A : Type) : Type :=
| Returned (a : A)
| Raised (e : py_exn)
| Unfinished.
Arguments Returned {A} a.
Arguments Raised {A} e.
Arguments Unfinished {A}.

Section Messages.

(** [THRIFT_TYPES_AVAILABLE] and [thrift_types]: [None] when the import of
    the generated module failed. *)
Variable thrift_types : option thrift_module.

(** The text of the [UnicodeDecodeError] the codec raises on these bytes. *)
Variable utf8_error_text : list byte -> string.

(** The interpreter's [str()] of floats and containers. *)
Variable repr_text : value -> string.

Definition read_message_begin : M (string * Z * Z) :=
  let* size := read_i32 in
  let* name_type :=
    if size <? 0 then
      let version := Z.land size 0xFFFF0000 in
      if negb (version =? 0x80010000) then
        raise (ValueError ("Unsupported Thrift version: " +:+ py_hex version))
      else
        let message_type := Z.land size 0x000000FF in
        let* method_name := read_string in
        ret (method_name, message_type)
    else
      let* method_name_bytes := stream_read (Z.to_nat size) in
      if (length method_name_bytes <? Z.to_nat size)%nat then
        raise (EOFError "Unexpected end of stream while reading method name")
      else
        let* _ := advance size in
        if utf8_valid method_name_bytes then
          let method_name := string_of_list_byte method_name_bytes in
          let* message_type := read_byte in
          ret (method_name, message_type)
        else
          raise (UnicodeDecodeError (utf8_error_text method_name_bytes))
  in
  let* sequence_id := read_i32 in
  ret (name_type.1, name_type.2, sequence_id).

Definition spec_field_map (thrift_spec : list spec_entry) : gmap Z string :=
  fold_left
    (fun field_map field_spec =>
       match field_spec with
       | Some (actual_field_id, _, field_name) =>
         <[actual_field_id := field_name]> field_map
       | None => field_map
       end)
    thrift_spec ∅.

Definition _build_field_name_map (method_name : option string)
    (message_type : option Z) : gmap Z string :=
  match thrift_types, method_name, message_type with
  | Some types, Some name, Some mt =>
    if String.eqb name "" then ∅
    else
      let struct_type_name :=
        if mt =? MESSAGE_TYPE_CALL then Some (str_get name METHOD_TO_REQUEST_TYPE)
        else if mt =? MESSAGE_TYPE_REPLY
        then Some (str_get name METHOD_TO_RESPONSE_TYPE)
        else None in
      match struct_type_name with
      | Some (Some n) =>
        if String.eqb n "" then ∅
        else match types n with
             | Some thrift_spec => spec_field_map thrift_spec
             | None => ∅
             end
      | _ => ∅
      end
  | _, _, _ => ∅
  end.

Definition message_type_str (message_type : Z) : string :=
  match assoc_get message_type MESSAGE_TYPE_NAMES with
  | Some n => n
  | None => "UNKNOWN(" +:+ pretty message_type +:+ ")"
  end.

Definition set_message_info (name : string) (mt : Z) (s : decoder) : decoder :=
  mkDecoder (stream s) (pos s) (data_len s)
    (match method_name s with
     | None => Some name
     | Some old => if String.eqb old "" then Some name else Some old
     end)
    (Some mt)
    (_build_field_name_map (Some name) (Some mt)).

Definition map_is_empty (m : gmap Z string) : bool :=
  bool_decide (m = ∅).

(** The body of the [try] in [decode_message] *)
Definition decode_message_body : M decoded :=
  let* hdr := read_message_begin in
  let method_name := hdr.1.1 in
  let message_type := hdr.1.2 in
  let sequence_id := hdr.2 in
  let message_type_str := message_type_str message_type in
  fun s0 =>
  let s1 := set_message_info method_name message_type s0 in
  match read_struct 32 s1 with
  | OutOfFuel => OutOfFuel
  | Raise e s2 => Raise e s2
  | Return struct_fields s2 =>
    let resolved :=
      match thrift_types with
      | Some _ => negb (map_is_empty (field_name_map s2))
      | None => false
      end in
    Return (DMessage {|
      m_method := method_name;
      m_message_type := message_type_str;
      m_sequence_id := sequence_id;
      m_fields := struct_fields;
      m_bytes_decoded := pos s2;
      m_total_bytes := data_len s2;
      m_protocol :=
        if bool_decide (method_name ∈ KNOWN_METHODS)
        then Some "HiveServer2/Databricks" else None;
      m_field_names_resolved := resolved;
      m_resolved_fields_count :=
        if resolved then Some (Z.of_nat (size (field_name_map s2))) else None;
      m_struct_type :=
        if resolved then
          if message_type =? MESSAGE_TYPE_CALL then Some "Request"
          else if message_type =? MESSAGE_TYPE_REPLY then Some "Response"
          else None
        else None
    |}) s2
  end.

Definition decode_message : M decoded :=
  fun s =>
    match decode_message_body s with
    | Return r s' => Return r s'
    | Raise e s' =>
      Return (DError (exn_str e) (exn_type_name e)
                     (Some (pos s', data_len s'))) s'
    | OutOfFuel => OutOfFuel
    end.

Definition decode_thrift_message (data : list byte)
  : completion (option decoded) :=
  if (length data <? 4)%nat then Returned None
  else
    match decode_message (new_decoder data None) with
    | Return r _ => Returned (Some r)
    | Raise e _ => Returned (Some (DError (exn_str e) (exn_type_name e) None))
    | OutOfFuel => Unfinished
    end.

(** ** format_thrift_message *)

(** [len(s)] and [s[:n]] count code points: the bytes of the UTF-8 form
    that are not continuation bytes. *)
Definition is_cont_char (c : ascii) : bool :=
  let n := N_of_ascii c in ((128 <=? n) && (n <=? 191))%N.

Fixpoint py_len (s : string) : Z :=
  match s with
  | EmptyString => 0
  | String c r => (if is_cont_char c then 0 else 1) + py_len r
  end.

Fixpoint py_take (n : nat) (s : string) : string :=
  match s with
  | EmptyString => EmptyString
  | String c r =>
    if is_cont_char c then String c (py_take n r)
    else match n with
         | O => EmptyString
         | S n' => String c (py_take n' r)
         end
  end.

Definition py_str (v : value) : string :=
  match v with
  | VStr s => s
  | VBool b => if b then "True" else "False"
  | VInt n => pretty n
  | _ => repr_text v
  end.

Definition clip (max_field_length : Z) (value_str : string) : string :=
  if py_len value_str >? max_field_length
  then (if max_field_length <? 0
        then py_take (Z.to_nat (py_len value_str + max_field_length)) value_str
        else py_take (Z.to_nat max_field_length) value_str) +:+ "..."
  else value_str.

(** [sorted(fields.items())]: the keys of a dict are distinct, so the pairs
    are ordered by key, by code point. *)
Fixpoint insert_item (x : string * value) (l : list (string * value))
  : list (string * value) :=
  match l with
  | [] => [x]
  | y :: r => if String.leb x.1 y.1 then x :: l else y :: insert_item x r
  end.

Fixpoint sorted_items (l : list (string * value)) : list (string * value) :=
  match l with
  | [] => []
  | x :: r => insert_item x (sorted_items r)
  end.

Fixpoint str_repeat (s : string) (n : nat) : string :=
  match n with O => "" | S n' => s +:+ str_repeat s n' end.

Fixpoint str_join (sep : string) (l : list string) : string :=
  match l with
  | [] => ""
  | [x] => x
  | x :: r => x +:+ sep +:+ str_join sep r
  end.

(** One line of the report. The items of a decoded struct are the field
    records (dicts with a ["type"] key) and, under ["_parse_error"], plain
    strings. *)
Definition format_field (prefix : string) (max_field_length : Z)
    (item : string * value) : string :=
  let field_name := item.1 in
  match item.2 with
  | VField field_type field_value field_id =>
    let id_suffix :=
      if field_id =? 0 then "" else " [id=" +:+ pretty field_id +:+ "]" in
    prefix +:+ "  " +:+ field_name +:+ id_suffix +:+ " (" +:+ field_type
      +:+ "): " +:+ clip max_field_length (py_str field_value)
  | VFieldErr field_type err field_id =>
    let id_suffix :=
      if field_id =? 0 then "" else " [id=" +:+ pretty field_id +:+ "]" in
    prefix +:+ "  " +:+ field_name +:+ id_suffix +:+ " (" +:+ field_type
      +:+ "): " +:+ clip max_field_length err
  | field_data =>
    prefix +:+ "  " +:+ field_name +:+ ": "
      +:+ clip max_field_length (py_str field_data)
  end.

Definition struct_items (fields : value) : list (string * value) :=
  match fields with VStruct fs => fs | _ => [] end.

(** The lines the formatter writes for the fields, in the order it writes
    them. *)
Definition format_fields (prefix : string) (max_field_length : Z)
    (fields : list (string * value)) : list string :=
  match fields with
  | [] => []
  | _ =>
    (prefix +:+ "Fields (" +:+ pretty (Z.of_nat (length fields)) +:+ "):")
    :: map (format_field prefix max_field_length) (sorted_items fields)
  end.

Definition format_thrift_message (decoded : option decoded)
    (max_field_length : Z) (indent : Z) : string :=
  match decoded with
  | None => "<empty message>"
  | Some (DError error _ _) => "<decode error: " +:+ error +:+ ">"
  | Some (DMessage m) =>
    let prefix := str_repeat "  " (Z.to_nat indent) in
    let header :=
      [prefix +:+ "Method: " +:+ m_method m;
       prefix +:+ "Type: " +:+ m_message_type m;
       prefix +:+ "Bytes: " +:+ pretty (m_bytes_decoded m) +:+ "/"
         +:+ pretty (m_total_bytes m)] in
    let protocol :=
      match m_protocol m with
      | Some p => [prefix +:+ "Protocol: " +:+ p]
      | None => []
      end in
    let names :=
      if m_field_names_resolved m then
        [prefix +:+ "Field Names: Resolved ("
           +:+ pretty (default 0 (m_resolved_fields_count m)) +:+ " mappings)"]
      else
        match thrift_types with
        | None =>
          [prefix +:+ "Field Names: Generic (thrift types not available)"]
        | Some _ =>
          [prefix +:+ "Field Names: Generic (no mapping for this method)"]
        end in
    str_join (String "010"%char "")
      (header ++ protocol ++ names
         ++ format_fields prefix max_field_length (struct_items (m_fields m)))
  end.

End Messages.

(** The loop of [read_struct(max_depth)] entered with the dict [fields]
    built so far. *)
Definition struct_resume (max_depth : Z) (fields : list (string * value))
  : M (list (string * value)) :=
  fun s =>
    struct_loop (fun t => read_field_value t max_depth)
                (fun t => skip_field t max_depth)
                (S (length (stream s))) fields s.

(** ** Descent through nested structs, for the statement about the depth
    ceiling

    [lead_in max_depth k fields s] follows the loop of
    [read_struct(max_depth)], entered with the dict [fields] on [s], through
    [k] full rounds (a round reads a field, or records its error and skips
    it) and then through the header of a STRUCT field. It gives the dict as
    it stands at that point, the id of the STRUCT field and the decoder at
    the first byte of the nested struct; it gives nothing when the loop
    ends before, or when the field after the [k] rounds is no STRUCT. *)
Fixpoint lead_in (max_depth : Z) (k : nat) (fields : list (string * value))
    (s : decoder) : option (list (string * value) * Z * decoder) :=
  match read_byte s with
  | Return field_type s1 =>
    if field_type =? T_STOP then None
    else
      match read_i16 s1 with
      | Return field_id s2 =>
        let type_name := type_name_of field_type in
        let key := field_key (field_name_map s2) field_id in
        match k with
        | O => if field_type =? T_STRUCT then Some (fields, field_id, s2)
               else None
        | S k' =>
          match read_field_value field_type max_depth s2 with
          | Return v s3 =>
            lead_in max_depth k'
              (struct_set key (VField type_name v field_id) fields) s3
          | Raise e s3 =>
            match skip_field field_type max_depth s3 with
            | Return _ s4 =>
              lead_in max_depth k'
                (struct_set key (VFieldErr type_name (exn_str e) field_id)
                   fields) s4
            | _ => None
            end
          | OutOfFuel => None
          end
        end
      | _ => None
      end
  | _ => None
  end.

(** One level of a descent: the dict of the struct when its loop reaches
    the STRUCT field that leads down, and the id and the key of that
    field. *)
Record frame : Type := mkFrame {
  fr_fields : list (string * value);
  fr_id : Z;
  fr_key : string
}.

(** [descend max_depth ks s]: a struct decoded at [max_depth] from [s] whose
    loop, after [k1] rounds, enters a nested struct, whose loop, after [k2]
    rounds, enters a nested struct, and so on for every count of [ks]. It
    gives the levels passed, outermost first, and the decoder at the first
    byte of the innermost struct reached, which [read_struct] decodes with
    [max_depth] less the number of levels. *)
Fixpoint descend (max_depth : Z) (ks : list nat) (s : decoder)
  : option (list frame * decoder) :=
  match ks with
  | [] => Some ([], s)
  | k :: ks' =>
    match lead_in max_depth k [] s with
    | Some (fields, field_id, s2) =>
      match descend (max_depth - 1) ks' s2 with
      | Some (frames, s') =>
        Some (mkFrame fields field_id
                      (field_key (field_name_map s2) field_id) :: frames, s')
      | None => None
      end
    | None => None
    end
  end.

(** What the enclosing levels make of the value [v] that the decode of the
    innermost struct returned on [s]: each level, from the inside out,
    files the value of its nested struct under the key of the STRUCT field
    and goes on with its loop from the decoder that the nested decode left.
    ([read_struct] never raises, so a level always gets a value.) *)
Fixpoint close (max_depth : Z) (frames : list frame) (v : value)
    (s : decoder) : outcome value :=
  match frames with
  | [] => Return v s
  | fr :: frames' =>
    match close (max_depth - 1) frames' v s with
    | Return v' s3 =>
      match struct_resume max_depth
              (struct_set (fr_key fr) (VField "STRUCT" v' (fr_id fr))
                 (fr_fields fr)) s3 with
      | Return fields s4 => Return (VStruct fields) s4
      | Raise e s4 => Raise e s4
      | OutOfFuel => OutOfFuel
      end
    | other => other
    end
  end.

(** The value [read_struct] returns when no depth is left. *)
Definition depth_placeholder : value :=
  VStruct [("error", VStr "max_depth_exceeded")].

(** ** Wire order, for the statements about collections

    [reads_in_order rd s vs s'] holds when the successive calls of the
    reader [rd], started on [s], return the values [vs] one after the other
    and leave [s']; [pairs_in_order] is the same for the key and value
    readers of a map taken in turn. *)
Inductive reads_in_order (rd : M value)
  : decoder -> list value -> decoder -> Prop :=
| reads_nil s : reads_in_order rd s [] s
| reads_cons s v s1 vs s2 :
    rd s = Return v s1 ->
    reads_in_order rd s1 vs s2 ->
    reads_in_order rd s (v :: vs) s2.

Inductive pairs_in_order (rdk rdv : M value)
  : decoder -> list (value * value) -> decoder -> Prop :=
| pairs_nil s : pairs_in_order rdk rdv s [] s
| pairs_cons s k s1 v s2 kvs s3 :
    rdk s = Return k s1 ->
    rdv s1 = Return v s2 ->
    pairs_in_order rdk rdv s2 kvs s3 ->
    pairs_in_order rdk rdv s ((k, v) :: kvs) s3.

(** The dict that results from assigning the pairs in order. *)
Definition dict_of_pairs (pairs : list (value * value))
  : list (value * value) :=
  fold_left (fun d kv => dict_set key_eqb kv.1 kv.2 d) pairs [].

(** No key of the dict equals a later one. *)
Fixpoint keys_distinct (d : list (value * value)) : bool :=
  match d with
  | [] => true
  | (k, _) :: r =>
    forallb (fun kv => negb (key_eqb k kv.1)) r && keys_distinct r
  end.

(** ** Renaming of struct keys, for the statements about field names

    [rekey names v] is [v] with every struct field filed under the key
    that [names] gives to its field id, at every level of nesting; type
    tags, field ids, values and error texts are untouched. *)
Definition rekey_key (names : gmap Z string) (k : string) (f : value)
  : string :=
  match f with
  | VField _ _ i | VFieldErr _ _ i => field_key names i
  | _ => k
  end.

Fixpoint rekey (names : gmap Z string) (v : value) : value :=
  match v with
  | VList xs => VList (map (rekey names) xs)
  | VDict kvs =>
    VDict (map (fun kv => (rekey names kv.1, rekey names kv.2)) kvs)
  | VStruct fs =>
    VStruct (map (fun kf => (rekey_key names kf.1 kf.2, rekey names kf.2)) fs)
  | VField t x i => VField t (rekey names x) i
  | _ => v
  end.

(** No struct occurs in the value. *)
Fixpoint struct_free (v : value) : bool :=
  match v with
  | VList xs => forallb struct_free xs
  | VDict kvs => forallb (fun kv => struct_free kv.1 && struct_free kv.2) kvs
  | VStruct _ => false
  | VField _ x _ => struct_free x
  | _ => true
  end.

Definition rekey_fields (names : gmap Z string)
    (fs : list (string * value)) : list (string * value) :=
  map (fun kf => (rekey_key names kf.1 kf.2, rekey names kf.2)) fs.

(** Every entry is a field record filed under the synthetic key of its
    field id. *)
Definition keyed (fs : list (string * value)) : Prop :=
  Forall (fun kf : string * value =>
            match kf.2 with
            | VField _ _ i | VFieldErr _ _ i => kf.1 = field_key ∅ i
            | _ => False
            end) fs.

(** The decoder with another id-to-name table. *)
Definition set_names (names : gmap Z string) (s : decoder) : decoder :=
  mkDecoder (stream s) (pos s) (data_len s) (method_name s) (message_type s)
            names.

(** [fields_in_order max_depth s trace s'] holds when the struct loop,
    started on [s], meets the fields [trace] on the wire in this order, each
    with the key and the record the loop files for it, and stops on [s']:
    at a STOP tag, at the end of the bytes, or after a field whose value
    could neither be read nor skipped. *)
Inductive fields_in_order (max_depth : Z)
  : decoder -> list (string * value) -> decoder -> Prop :=
| fields_stop s s1 :
    read_byte s = Return T_STOP s1 ->
    fields_in_order max_depth s [] s1
| fields_no_tag s e s1 :
    read_byte s = Raise e s1 ->
    fields_in_order max_depth s [] s1
| fields_no_id s t s1 e s2 :
    read_byte s = Return t s1 -> t <> T_STOP ->
    read_i16 s1 = Raise e s2 ->
    fields_in_order max_depth s [] s2
| fields_value s t s1 i s2 v s3 rest s4 :
    read_byte s = Return t s1 -> t <> T_STOP ->
    read_i16 s1 = Return i s2 ->
    read_field_value t max_depth s2 = Return v s3 ->
    fields_in_order max_depth s3 rest s4 ->
    fields_in_order max_depth s
      ((field_key (field_name_map s2) i, VField (type_name_of t) v i) :: rest)
      s4
| fields_error_skipped s t s1 i s2 e s3 u s4 rest s5 :
    read_byte s = Return t s1 -> t <> T_STOP ->
    read_i16 s1 = Return i s2 ->
    read_field_value t max_depth s2 = Raise e s3 ->
    skip_field t max_depth s3 = Return u s4 ->
    fields_in_order max_depth s4 rest s5 ->
    fields_in_order max_depth s
      ((field_key (field_name_map s2) i,
        VFieldErr (type_name_of t) (exn_str e) i) :: rest)
      s5
| fields_error_last s t s1 i s2 e s3 e' s4 :
    read_byte s = Return t s1 -> t <> T_STOP ->
    read_i16 s1 = Return i s2 ->
    read_field_value t max_depth s2 = Raise e s3 ->
    skip_field t max_depth s3 = Raise e' s4 ->
    fields_in_order max_depth s
      [(field_key (field_name_map s2) i,
        VFieldErr (type_name_of t) (exn_str e) i)]
      s4.

(** The dict that results from filing the fields in order. *)
Definition struct_of_fields (fields : list (string * value))
    (trace : list (string * value)) : list (string * value) :=
  fold_left (fun d kf => struct_set kf.1 kf.2 d) trace fields.

(** The keys of a sequence, each at its first occurrence. *)
Definition first_occurrences (seen keys : list string) : list string :=
  fold_left
    (fun acc k => if existsb (String.eqb k) acc then acc else acc ++ [k])
    keys seen.

(** Ascending order of the keys, by code point. *)
Definition key_le (a b : string * value) : Prop := String.leb a.1 b.1 = true.

(** The value returned for a collection whose declared count is above the
    ceiling, by type tag. *)
Definition large_placeholder (field_type size : Z) : value :=
  if field_type =? T_MAP then
    VDict [(VStr "<large_map>", VStr (pretty size +:+ " entries"))]
  else if field_type =? T_SET then
    VList [VStr ("<large_set: " +:+ pretty size +:+ " entries>")]
  else
    VList [VStr ("<large_list: " +:+ pretty size +:+ " entries>")].

(** ** Predicates used in the proofs

    A call is [total] when it returns or raises (it does not run out of
    fuel) and leaves no more unread bytes than it found. *)
Definition no_growth {A} (s : decoder) (o : outcome A) : Prop :=
  match o with
  | Return _ s' | Raise _ s' => (length (stream s') <= length (stream s))%nat
  | OutOfFuel => False
  end.

Definition total {A} (m : M A) : Prop := forall s, no_growth s (m s).

(** [sim names R o1 o0] relates the outcome [o1] of a call on a decoder
    with the table [names] to the outcome [o0] of a call on the same
    decoder with the empty table: both return, with results related by [R],
    or both raise the same exception, and the decoders they leave differ in
    the table only. *)
Definition sim (names : gmap Z string) {A} (R : A -> A -> Prop)
    (o1 o0 : outcome A) : Prop :=
  match o0, o1 with
  | Return a0 s0, Return a1 s1 =>
    R a1 a0 /\ s1 = set_names names s0 /\ field_name_map s0 = ∅
  | Raise e0 s0, Raise e1 s1 =>
    e1 = e0 /\ s1 = set_names names s0 /\ field_name_map s0 = ∅
  | OutOfFuel, OutOfFuel => True
  | _, _ => False
  end.

Definition simulates (names : gmap Z string) {A} (R : A -> A -> Prop)
    (m1 m0 : M A) : Prop :=
  forall s, field_name_map s = ∅ ->
            sim names R (m1 (set_names names s)) (m0 s).

Definition renamed (names : gmap Z string) (v1 v0 : value) : Prop :=
  v1 = rekey names v0.

Definition rekey_pairs (names : gmap Z string) (d : list (value * value))
  : list (value * value) :=
  map (fun kv => (rekey names kv.1, rekey names kv.2)) d.

Definition entry_id (f : value) : option Z :=
  match f with
  | VField _ _ i | VFieldErr _ _ i => Some i
  | _ => None
  end.

Definition renamed_fields (names : gmap Z string)
    (f1 f0 : list (string * value)) : Prop :=
  f1 = rekey_fields names f0 /\ keyed f0.

(** ** Predicates for the properties of the cursor and of the output

    [steady_step s s'] relates a decoder to the decoder a call leaves: the
    length and the id-to-name table are untouched, [pos] has not gone back,
    and [pos] has advanced by no more than the bytes taken from the
    stream. *)
Definition steady_step (s s' : decoder) : Prop :=
  data_len s' = data_len s
  /\ field_name_map s' = field_name_map s
  /\ pos s <= pos s'
  /\ pos s' + Z.of_nat (length (stream s'))
     <= pos s + Z.of_nat (length (stream s)).

Definition steady {A} (m : M A) : Prop :=
  forall s, match m s with
            | Return _ s' | Raise _ s' => steady_step s s'
            | OutOfFuel => True
            end.

(** [pos] counts bytes of the buffer that were taken from the stream. *)
Definition cursor_ok (s : decoder) : Prop :=
  0 <= pos s /\ pos s + Z.of_nat (length (stream s)) <= data_len s.

(** The item is a field record filed under the key that [names] gives to
    its field id. *)
Definition field_entry (names : gmap Z string) (kf : string * value) : Prop :=
  match kf.2 with
  | VField _ _ i | VFieldErr _ _ i => kf.1 = field_key names i
  | _ => False
  end.

(** Containers are nested at most [n] deep in the value and no list or
    map in it has more than 10 000 entries. *)
Fixpoint bounded (v : value) (n : nat) {struct v} : bool :=
  match v with
  | VList xs =>
    match n with
    | O => false
    | S m =>
      (Z.of_nat (length xs) <=? 10000) && forallb (fun x => bounded x m) xs
    end
  | VDict kvs =>
    match n with
    | O => false
    | S m =>
      (Z.of_nat (length kvs) <=? 10000)
      && forallb (fun kv => bounded kv.1 m && bounded kv.2 m) kvs
    end
  | VStruct fs =>
    match n with
    | O => false
    | S m => forallb (fun kf => bounded kf.2 m) fs
    end
  | VField _ x _ => bounded x n
  | _ => true
  end.

(** The type tags whose values are read by one read of the cursor. *)
Definition is_scalar_tag (t : Z) : bool :=
  (t =? T_BOOL) || (t =? T_BYTE) || (t =? T_I16) || (t =? T_I32)
  || (t =? T_I64) || (t =? T_DOUBLE) || (t =? T_STRING).

(** The type tags [read_field_value] and [skip_field] handle. *)
Definition is_known_tag (t : Z) : bool :=
  is_scalar_tag t || (t =? T_STRUCT) || (t =? T_MAP) || (t =? T_SET)
  || (t =? T_LIST).

(** A call whose result is dropped. *)
Definition discard {A} (m : M A) : M unit := let* _ := m in ret tt.

(** What a read of an [n]-byte signed integer does on [s]: when it returns,
    the value is in the two's complement range of [n] bytes, [pos] has
    advanced by [n] and [n] bytes have left the stream; when it raises, it
    raises the end-of-stream error that names the old [pos], fewer than [n]
    bytes were left, all of them are gone and [pos] is as it was. *)
Definition reads_width (rd : M Z) (n : Z) (s : decoder) : Prop :=
  (forall v s',
     rd s = Return v s' ->
     - 2 ^ (8 * n - 1) <= v < 2 ^ (8 * n - 1)
     /\ pos s' = pos s + n
     /\ Z.of_nat (length (stream s')) = Z.of_nat (length (stream s)) - n)
  /\ (forall e s',
     rd s = Raise e s' ->
     e = eof_at (pos s)
     /\ Z.of_nat (length (stream s)) < n
     /\ stream s' = []
     /\ pos s' = pos s).

(** ** Test data *)

Definition bytes_of (l : list Z) : list byte :=
  map (fun z => default x00 (Byte.of_N (Z.to_N z))) l.

Definition decoder_of (l : list Z) : decoder := new_decoder (bytes_of l) None.

(** The decoder over [l] once [consumed] bytes were taken from the stream
    and [p] of them counted in [pos]. *)
Definition cursor_at (l : list Z) (consumed : nat) (p : Z) : decoder :=
  mkDecoder (drop consumed (bytes_of l)) p (Z.of_nat (length l)) None None ∅.

(** A strict-framing Call envelope for method "hi", sequence id 5, and an
    empty struct. *)
Definition strict_hi : list Z :=
  [128; 1; 0; 1; 0; 0; 0; 2; 104; 105; 0; 0; 0; 5; 0].

(** A struct with a list field (id 1) of bytes that holds the 10 001
    elements it declares, all of them 0, then an I32 field (id 2, value 7),
    then STOP. *)
Definition large_list_full : list Z :=
  [15; 0; 1; 3; 0; 0; 39; 17] ++ repeat 0 (Z.to_nat 10001)
  ++ [8; 0; 2; 0; 0; 0; 7; 0].

(** A struct with a map field (id 1) from list of I32 to I32 that holds one
    pair, the empty list and 5, then an I32 field (id 2, value 7), then
    STOP. *)
Definition map_list_key_then_i32 : list Z :=
  [13; 0; 1; 15; 8; 0; 0; 0; 1; 8; 0; 0; 0; 0; 0; 0; 0; 5;
   8; 0; 2; 0; 0; 0; 7; 0].

(** The body of a map from I32 to I32 with the pairs 1:5 and 1:6. *)
Definition map_dup_keys : list Z :=
  [8; 8; 0; 0; 0; 2; 0; 0; 0; 1; 0; 0; 0; 5; 0; 0; 0; 1; 0; 0; 0; 6].

(** The body of a map from STRUCT to I32 with one pair: the empty struct
    and 5. *)
Definition map_struct_key : list Z :=
  [12; 8; 0; 0; 0; 1; 0; 0; 0; 0; 5].

(** A strict-framing Call message for method "hi", sequence id 5, whose
    struct has the I32 fields 2 (value 7) and 1 (value 5), in this order. *)
Definition fields_2_then_1 : list Z :=
  [128; 1; 0; 1; 0; 0; 0; 2; 104; 105; 0; 0; 0; 5;
   8; 0; 2; 0; 0; 0; 7; 8; 0; 1; 0; 0; 0; 5; 0].

Definition message_2_then_1 : message := {|
  m_method := "hi";
  m_message_type := "CALL";
  m_sequence_id := 5;
  m_fields := VStruct [("field_2", VField "I32" (VInt 7) 2);
                       ("field_1", VField "I32" (VInt 5) 1)];
  m_bytes_decoded := 29;
  m_total_bytes := 29;
  m_protocol := None;
  m_field_names_resolved := false;
  m_resolved_fields_count := None;
  m_struct_type := None
|}.

(** The body of a struct that holds, as field 1, a struct that holds, as
    field 1, a struct ... [n] levels deep, the innermost one empty. *)
Fixpoint nested_struct (n : nat) : list Z :=
  match n with
  | O => [0]
  | S n' => [12; 0; 1] ++ nested_struct n' ++ [0]
  end.

(** The top-level struct up to its sibling fields: field 1 opens a chain of
    40 nested structs, all of which are closed again. *)
Definition deep_prefix : list Z := [12; 0; 1] ++ nested_struct 39.

(** An I32 field with id 2 and value 7, and the STOP of the struct. *)
Definition sibling_i32 : list Z := [8; 0; 2; 0; 0; 0; 7; 0].

(** A struct in which every level down to level 33 is reached after two
    other fields: an I32 field with id 5 and value 1, and a string field
    with id 6 and a negative length, followed by four zero bytes which the
    skip takes for an empty string. Level [n] uses the id [n] for the
    STRUCT field; the innermost struct holds an I32 field (id 2, value 7). *)
Fixpoint mixed_struct (n : nat) : list Z :=
  match n with
  | O => [8; 0; 2; 0; 0; 0; 7; 0]
  | S n' =>
    [8; 0; 5; 0; 0; 0; 1;
     11; 0; 6; 255; 255; 255; 255; 0; 0; 0; 0;
     12; 0; Z.of_nat n] ++ mixed_struct n' ++ [0]
  end.

(** The dict of every level of [mixed_struct] when its STRUCT field is
    reached. *)
Definition mixed_fields : list (string * value) :=
  [("field_5", VField "I32" (VInt 1) 5);
   ("field_6", VFieldErr "STRING" "Invalid string length: -1" 6)].

(** [mixed_struct] with 32 levels above the innermost struct, followed by
    an I32 field (id 2, value 7) and the STOP of a struct. *)
Definition mixed_deep : list Z := mixed_struct 32 ++ sibling_i32.

Definition mixed_frames : list frame :=
  map (fun n => mkFrame mixed_fields (Z.of_nat n)
                        ("field_" +:+ pretty (Z.of_nat n)))
      (rev (seq 1 32)).

(** [n + 1] structs nested through field 1, the innermost holding the
    depth placeholder. *)
Fixpoint nest_value (n : nat) : value :=
  VStruct [("field_1",
            VField "STRUCT"
              (match n with
               | O => VStruct [("error", VStr "max_depth_exceeded")]
               | S n' => nest_value n'
               end) 1)].

(** The registry of the ExecuteStatement example: the [thrift_spec] of
    [TExecuteStatementReq] with the fields 1, 2, 3, 7 and 8. *)
Definition exec_spec : list spec_entry :=
  [None; Some (1, 12, "sessionHandle"); Some (2, 11, "statement");
   Some (3, 13, "confOverlay"); None; None; None;
   Some (7, 2, "runAsync"); Some (8, 10, "queryTimeout")].

Definition exec_types : thrift_module :=
  fun n => if String.eqb n "TExecuteStatementReq" then Some exec_spec else None.

Definition exec_names : gmap Z string := spec_field_map exec_spec.

(** A strict-framing Call of ExecuteStatement, sequence id 9: field 1 a
    struct whose field 1 is the string "A", field 2 the string "hi",
    field 3 an empty map from string to string, field 7 the bool true,
    field 8 the I64 30. *)
Definition exec_call : list Z :=
  [128; 1; 0; 1; 0; 0; 0; 16;
   69; 120; 101; 99; 117; 116; 101; 83; 116; 97; 116; 101; 109; 101; 110; 116;
   0; 0; 0; 9;
   12; 0; 1; 11; 0; 1; 0; 0; 0; 1; 65; 0;
   11; 0; 2; 0; 0; 0; 2; 104; 105;
   13; 0; 3; 11; 11; 0; 0; 0; 0;
   2; 0; 7; 1;
   10; 0; 8; 0; 0; 0; 0; 0; 0; 0; 30;
   0].

Definition exec_fields_plain : value :=
  VStruct
    [("field_1",
      VField "STRUCT" (VStruct [("field_1", VField "STRING" (VStr "A") 1)]) 1);
     ("field_2", VField "STRING" (VStr "hi") 2);
     ("field_3", VField "MAP" (VDict []) 3);
     ("field_7", VField "BOOL" (VBool true) 7);
     ("field_8", VField "I64" (VInt 30) 8)].

Definition exec_fields_named : value :=
  VStruct
    [("sessionHandle",
      VField "STRUCT"
        (VStruct [("sessionHandle", VField "STRING" (VStr "A") 1)]) 1);
     ("statement", VField "STRING" (VStr "hi") 2);
     ("confOverlay", VField "MAP" (VDict []) 3);
     ("runAsync", VField "BOOL" (VBool true) 7);
     ("queryTimeout", VField "I64" (VInt 30) 8)].

Definition exec_message_plain : message := {|
  m_method := "ExecuteStatement";
  m_message_type := "CALL";
  m_sequence_id := 9;
  m_fields := exec_fields_plain;
  m_bytes_decoded := 74;
  m_total_bytes := 74;
  m_protocol := Some "HiveServer2/Databricks";
  m_field_names_resolved := false;
  m_resolved_fields_count := None;
  m_struct_type := None
|}.

Definition exec_message_named : message := {|
  m_method := "ExecuteStatement";
  m_message_type := "CALL";
  m_sequence_id := 9;
  m_fields := exec_fields_named;
  m_bytes_decoded := 74;
  m_total_bytes := 74;
  m_protocol := Some "HiveServer2/Databricks";
  m_field_names_resolved := true;
  m_resolved_fields_count := Some 5;
  m_struct_type := Some "Request"
|}.

(** A strict-framing Exception message (kind 3) for method
    "ExecuteStatement", sequence id 9, whose struct has the I32 field 1
    with value 7. *)
Definition exec_exception : list Z :=
  [128; 1; 0; 3; 0; 0; 0; 16;
   69; 120; 101; 99; 117; 116; 101; 83; 116; 97; 116; 101; 109; 101; 110; 116;
   0; 0; 0; 9;
   8; 0; 1; 0; 0; 0; 7;
   0].

Definition exec_exception_message : message := {|
  m_method := "ExecuteStatement";
  m_message_type := "EXCEPTION";
  m_sequence_id := 9;
  m_fields := VStruct [("field_1", VField "I32" (VInt 7) 1)];
  m_bytes_decoded := 36;
  m_total_bytes := 36;
  m_protocol := Some "HiveServer2/Databricks";
  m_field_names_resolved := false;
  m_resolved_fields_count := None;
  m_struct_type := None
|}.

(** A string field with length -1, an empty string, an I32 field, STOP. *)
Definition bad_string_then_i32 : list Z :=
  [11; 0; 1; 255; 255; 255; 255; 0; 0; 0; 0; 8; 0; 2; 0; 0; 0; 7; 0].

(** * Properties *)

(** ** The byte cursor *)

Ltac run := unfold bind, ret, raise, advance, get_pos, stream_read; simpl.

Lemma bind_Return {A B} (m : M A) (k : A -> M B) s a s' :
  m s = Return a s' -> bind m k s = k a s'.
Proof. intros H. unfold bind. now rewrite H. Qed.

Lemma bind_Raise {A B} (m : M A) (k : A -> M B) s e s' :
  m s = Raise e s' -> bind m k s = Raise e s'.
Proof. intros H. unfold bind. now rewrite H. Qed.

Lemma read_fixed_ok (n : nat) (s : decoder) :
  (n <= length (stream s))%nat ->
  read_fixed n s =
  Return (take n (stream s))
         (add_pos (Z.of_nat n) (set_stream (drop n (stream s)) s)).
Proof.
  intros Hn. unfold read_fixed. run.
  rewrite length_take, Nat.min_l by lia.
  now rewrite Nat.ltb_irrefl.
Qed.

Lemma read_fixed_eof (n : nat) (s : decoder) :
  (length (stream s) < n)%nat ->
  read_fixed n s = Raise (eof_at (pos s)) (set_stream [] s).
Proof.
  intros Hn. unfold read_fixed. run.
  rewrite length_take, Nat.min_r by lia.
  destruct (Nat.ltb_spec (length (stream s)) n) as [_|]; [|lia].
  now rewrite drop_ge by lia.
Qed.

Lemma read_fixed_cases (n : nat) (s : decoder) :
  (read_fixed n s =
     Return (take n (stream s))
            (add_pos (Z.of_nat n) (set_stream (drop n (stream s)) s))
   /\ (n <= length (stream s))%nat)
  \/ (read_fixed n s = Raise (eof_at (pos s)) (set_stream [] s)
      /\ (length (stream s) < n)%nat).
Proof.
  destruct (Nat.le_gt_cases n (length (stream s))).
  - left. split; [now apply read_fixed_ok | done].
  - right. split; [now apply read_fixed_eof | done].
Qed.

Lemma append_assoc (a b c : string) : (a +:+ b) +:+ c = a +:+ (b +:+ c).
Proof.
  induction a as [|x a IH]; [done|].
  change (String x ((a +:+ b) +:+ c) = String x (a +:+ (b +:+ c))).
  by rewrite IH.
Qed.

(** C8: when the remaining depth is zero (or below), decoding a value of
    any type returns the placeholder at once and leaves the decoder, cursor
    included, as it was; the same holds for a struct decode entered at
    depth zero. *)
Theorem C8_depth_exhausted_placeholder (field_type max_depth : Z) (s : decoder) :
  max_depth <= 0 ->
  read_field_value field_type max_depth s
    = Return (VStr "<max_depth_exceeded>") s
  /\ read_struct max_depth s
    = Return (VStruct [("error", VStr "max_depth_exceeded")]) s.
Proof.
  intros H. unfold read_field_value, read_struct, read_struct_n.
  replace (Z.to_nat max_depth) with O by lia. split; reflexivity.
Qed.

Lemma C8_depth_exhausted_placeholder_witness :
  read_field_value T_STRUCT 0 (decoder_of [8; 0; 1; 0; 0; 0; 7; 0])
    = Return (VStr "<max_depth_exceeded>") (decoder_of [8; 0; 1; 0; 0; 0; 7; 0])
  /\ read_struct 0 (decoder_of [8; 0; 1; 0; 0; 0; 7; 0])
    = Return (VStruct [("error", VStr "max_depth_exceeded")])
             (decoder_of [8; 0; 1; 0; 0; 0; 7; 0]).
Proof. apply C8_depth_exhausted_placeholder. lia. Defined.

(** C6: [read_string] reads a 32-bit length; a negative length or one above
    10 MiB raises a [ValueError]; otherwise exactly that many bytes are
    consumed and the result is their UTF-8 text, or for bytes that are not
    UTF-8 the hex preview of the first 50 bytes, with ["..."] exactly when
    there are more than 50. (When fewer bytes are left than the length
    announces, the read raises [EOFError], as every read of the cursor
    does.) *)
Theorem C6_read_string (s s1 : decoder) (len : Z) :
  read_i32 s = Return len s1 ->
  (len < 0 ->
   read_string s
     = Raise (ValueError ("Invalid string length: " +:+ pretty len)) s1)
  /\ (len > 10 * 1024 * 1024 ->
   read_string s
     = Raise (ValueError ("String length too large: " +:+ pretty len)) s1)
  /\ (0 <= len <= 10 * 1024 * 1024 ->
      forall data rest : list byte,
        stream s1 = data ++ rest ->
        Z.of_nat (length data) = len ->
        let s2 := add_pos len (set_stream rest s1) in
        (utf8_valid data = true ->
         read_string s = Return (string_of_list_byte data) s2)
        /\ (utf8_valid data = false ->
            read_string s =
            Return ("<binary:" +:+ bytes_hex (take 50 data)
                      +:+ (if (50 <? length data)%nat then "..." else "")
                      +:+ ">") s2))
  /\ (0 <= len <= 10 * 1024 * 1024 ->
      (length (stream s1) < Z.to_nat len)%nat ->
      read_string s =
      Raise (EOFError
               ("Unexpected end of stream while reading string at position "
                  +:+ pretty (pos s1)))
            (set_stream [] s1)).
Proof.
  intros Hlen. unfold read_string. rewrite (bind_Return _ _ _ _ _ Hlen).
  split; [|split; [|split]].
  - intros H. destruct (Z.ltb_spec len 0); [done | lia].
  - intros H. destruct (Z.ltb_spec len 0); [lia|].
    destruct (Z.gtb_spec len (10 * 1024 * 1024)); [done | lia].
  - intros H data rest Hs Hd.
    destruct (Z.ltb_spec len 0); [lia|].
    destruct (Z.gtb_spec len (10 * 1024 * 1024)); [lia|].
    assert (Hn : Z.to_nat len = length data) by lia.
    run. rewrite Hs, Hn, take_app_length, drop_app_length, Nat.ltb_irrefl.
    split; intros Hv; rewrite Hv; [done|].
    f_equal. destruct (50 <? length data)%nat.
    + now rewrite append_assoc.
    + reflexivity.
  - intros H Hshort.
    destruct (Z.ltb_spec len 0); [lia|].
    destruct (Z.gtb_spec len (10 * 1024 * 1024)); [lia|].
    run. rewrite length_take, Nat.min_r by lia.
    destruct (Nat.ltb_spec (length (stream s1)) (Z.to_nat len)); [|lia].
    now rewrite drop_ge by lia.
Qed.

Lemma C6_read_string_witness :
  read_string (decoder_of [0; 0; 0; 2; 255; 105; 7])
  = Return "<binary:ff69>"
      (add_pos 2 (set_stream (bytes_of [7])
         (add_pos 4 (set_stream (bytes_of [255; 105; 7])
            (decoder_of [0; 0; 0; 2; 255; 105; 7]))))).
Proof.
  refine (proj2 (proj1 (proj2 (proj2 (C6_read_string
            (decoder_of [0; 0; 0; 2; 255; 105; 7])
            (add_pos 4 (set_stream (bytes_of [255; 105; 7])
               (decoder_of [0; 0; 0; 2; 255; 105; 7])))
            2 _))) _ (bytes_of [255; 105]) (bytes_of [7]) _ _) _).
  - reflexivity.
  - lia.
  - reflexivity.
  - reflexivity.
  - reflexivity.
Defined.

(** ** No call runs out of fuel, and no call un-reads bytes *)

Create HintDb total discriminated.

Lemma total_ret {A} (a : A) : total (ret a).
Proof. intros s. simpl. lia. Qed.

Lemma total_raise {A} (e : py_exn) : total (@raise A e).
Proof. intros s. simpl. lia. Qed.

Lemma total_bind {A B} (m : M A) (k : A -> M B) :
  total m -> (forall a, total (k a)) -> total (bind m k).
Proof.
  intros Hm Hk s. unfold bind. specialize (Hm s).
  destruct (m s) as [a s1|e s1|]; simpl in *; [|done..].
  specialize (Hk a s1). destruct (k a s1); simpl in *; [lia..|done].
Qed.

Lemma total_stream_read n : total (stream_read n).
Proof. intros s. simpl. rewrite length_drop. lia. Qed.

Lemma total_advance n : total (advance n).
Proof. intros s. simpl. lia. Qed.

Lemma total_get_pos : total get_pos.
Proof. intros s. simpl. lia. Qed.

#[local] Hint Resolve total_ret total_raise total_bind total_stream_read
  total_advance total_get_pos : total.

Ltac total_step :=
  match goal with
  | |- total (bind _ _) => apply total_bind; [|intros ?]
  | |- total (if ?c then _ else _) => destruct c
  | |- total (let _ := _ in _) => cbv zeta
  | |- _ => solve [auto with total]
  end.

Lemma total_read_fixed n : total (read_fixed n).
Proof. unfold read_fixed. repeat total_step. Qed.
#[local] Hint Resolve total_read_fixed : total.

Lemma total_read_byte : total read_byte.
Proof. unfold read_byte. repeat total_step. Qed.
Lemma total_read_i16 : total read_i16.
Proof. unfold read_i16. repeat total_step. Qed.
Lemma total_read_i32 : total read_i32.
Proof. unfold read_i32. repeat total_step. Qed.
Lemma total_read_i64 : total read_i64.
Proof. unfold read_i64. repeat total_step. Qed.
Lemma total_read_double : total read_double.
Proof. unfold read_double. repeat total_step. Qed.
#[local] Hint Resolve total_read_byte total_read_i16 total_read_i32
  total_read_i64 total_read_double : total.

Lemma total_read_string : total read_string.
Proof. unfold read_string. repeat total_step. Qed.
#[local] Hint Resolve total_read_string : total.

Lemma total_for_range n body : total body -> total (for_range n body).
Proof. intros Hb. induction n; simpl; repeat total_step. Qed.

Lemma total_map_set k v d : total (map_set k v d).
Proof. unfold map_set. repeat total_step. Qed.
#[local] Hint Resolve total_for_range total_map_set : total.

Lemma total_list_loop rd n result : total rd -> total (list_loop rd n result).
Proof. intros Hr. revert result. induction n; intros; simpl; repeat total_step. Qed.

Lemma total_map_loop rdk rdv n result :
  total rdk -> total rdv -> total (map_loop rdk rdv n result).
Proof.
  intros Hk Hv. revert result. induction n; intros; simpl; repeat total_step.
Qed.
#[local] Hint Resolve total_list_loop total_map_loop : total.

(** The header reads of a struct: what they consume and how they fail. *)
Lemma read_byte_Return s b s' :
  read_byte s = Return b s' ->
  S (length (stream s')) = length (stream s)
  /\ field_name_map s' = field_name_map s.
Proof.
  unfold read_byte. intros H.
  destruct (read_fixed_cases 1 s) as [[E Hn]|[E Hn]];
    unfold bind in H; rewrite E in H; [|done].
  injection H as _ <-. simpl. rewrite length_drop. split; [lia | done].
Qed.

Lemma read_fixed_Raise n s e s' :
  read_fixed n s = Raise e s' -> is_EOFError e = true.
Proof.
  intros H. destruct (read_fixed_cases n s) as [[E _]|[E _]];
    rewrite E in H; [done|]. by injection H as <- _.
Qed.

Lemma read_byte_Raise s e s' :
  read_byte s = Raise e s' -> is_EOFError e = true.
Proof.
  unfold read_byte, bind. intros H.
  destruct (read_fixed 1 s) eqn:E; [done| |done].
  injection H as <- _. eauto using read_fixed_Raise.
Qed.

Lemma read_i16_Raise s e s' :
  read_i16 s = Raise e s' -> is_EOFError e = true.
Proof.
  unfold read_i16, bind. intros H.
  destruct (read_fixed 2 s) eqn:E; [done| |done].
  injection H as <- _. eauto using read_fixed_Raise.
Qed.

Lemma skip_struct_loop_total skip fuel s :
  (forall t, total (skip t)) ->
  (length (stream s) < fuel)%nat ->
  no_growth s (skip_struct_loop skip fuel s).
Proof.
  intros Hskip. revert s. induction fuel as [|fuel IH]; intros s Hf; [lia|].
  simpl. unfold bind at 1.
  pose proof (total_read_byte s) as Hb.
  destruct (read_byte s) as [t s1|e s1|] eqn:E1; simpl in Hb; [|done..].
  apply read_byte_Return in E1 as [E1 _].
  destruct (t =? T_STOP); [simpl; lia|].
  unfold bind at 1.
  pose proof (total_read_i16 s1) as Hi.
  destruct (read_i16 s1) as [i s2|e s2|]; simpl in Hi; [|simpl; lia|done].
  unfold bind at 1.
  pose proof (Hskip t s2) as Hk.
  destruct (skip t s2) as [u s3|e s3|]; simpl in Hk; [|simpl; lia|done].
  assert (Hf3 : (length (stream s3) < fuel)%nat) by lia.
  specialize (IH s3 Hf3).
  destruct (skip_struct_loop skip fuel s3); simpl in *; [lia..|done].
Qed.

Lemma total_skip_struct_with skip :
  (forall t, total (skip t)) -> total (skip_struct_with skip).
Proof.
  intros H s. unfold skip_struct_with.
  apply skip_struct_loop_total; [done | lia].
Qed.
#[local] Hint Resolve total_skip_struct_with : total.

Lemma total_skip_field_n d : forall t, total (skip_field_n d t).
Proof.
  induction d as [|d IH]; intros t; simpl; repeat total_step.
Qed.
#[local] Hint Resolve total_skip_field_n : total.

(** ** The struct loop *)

Section StructLoop.

Variable rfv : Z -> M value.
Variable skip : Z -> M unit.
Hypothesis rfv_total : forall t, total (rfv t).
Hypothesis skip_total : forall t, total (skip t).

Lemma struct_header_failed_Return e fields s :
  struct_header_failed e fields s
  = Return (if is_EOFError e then fields
            else struct_set "_parse_error" (VStr (exn_str e)) fields) s.
Proof. unfold struct_header_failed. by destruct (is_EOFError e). Qed.

(** With enough fuel the loop returns, whatever the bytes. *)
Lemma struct_loop_returns fuel fields s :
  (length (stream s) < fuel)%nat ->
  exists fs s', struct_loop rfv skip fuel fields s = Return fs s'
                /\ (length (stream s') <= length (stream s))%nat.
Proof.
  revert fields s. induction fuel as [|fuel IH]; intros fields s Hf; [lia|].
  simpl.
  pose proof (total_read_byte s) as Hb.
  destruct (read_byte s) as [t s1|e s1|] eqn:E1; simpl in Hb; [| |done].
  2:{ rewrite struct_header_failed_Return. eauto. }
  apply read_byte_Return in E1 as [E1 _].
  destruct (t =? T_STOP); [eauto with lia|].
  pose proof (total_read_i16 s1) as Hi.
  destruct (read_i16 s1) as [i s2|e s2|]; simpl in Hi; [| |done].
  2:{ rewrite struct_header_failed_Return. eauto with lia. }
  pose proof (rfv_total t s2) as Hv.
  destruct (rfv t s2) as [v s3|e s3|]; simpl in Hv; [| |done].
  - edestruct (IH (struct_set (field_key (field_name_map s2) i)
                     (VField (type_name_of t) v i) fields) s3)
      as (fs & s' & -> & ?); [lia|]. eauto with lia.
  - pose proof (skip_total t s3) as Hk.
    destruct (skip t s3) as [u s4|e' s4|]; simpl in Hk; [| |done].
    + edestruct (IH (struct_set (field_key (field_name_map s2) i)
                       (VFieldErr (type_name_of t) (exn_str e) i) fields) s4)
        as (fs & s' & -> & ?); [lia|]. eauto with lia.
    + eauto with lia.
Qed.

(** More fuel than needed changes nothing. *)
Lemma struct_loop_fuel f1 f2 fields s :
  (length (stream s) < f1)%nat -> (length (stream s) < f2)%nat ->
  struct_loop rfv skip f1 fields s = struct_loop rfv skip f2 fields s.
Proof.
  revert f2 fields s. induction f1 as [|f1 IH]; intros [|f2] fields s H1 H2;
    [lia..|].
  simpl.
  destruct (read_byte s) as [t s1|e s1|] eqn:E1; [|done..].
  apply read_byte_Return in E1 as [E1 _].
  destruct (t =? T_STOP); [done|].
  pose proof (total_read_i16 s1) as Hi.
  destruct (read_i16 s1) as [i s2|e s2|]; simpl in Hi; [|done..].
  pose proof (rfv_total t s2) as Hv.
  destruct (rfv t s2) as [v s3|e s3|]; simpl in Hv; [| |done].
  - apply IH; lia.
  - pose proof (skip_total t s3) as Hk.
    destruct (skip t s3) as [u s4|e' s4|]; simpl in Hk; [|done..].
    apply IH; lia.
Qed.

Lemma total_read_struct_with d : total (read_struct_with d rfv skip).
Proof.
  destruct d as [|d]; [simpl; auto with total|]. intros s.
  unfold read_struct_with.
  destruct (struct_loop_returns (S (length (stream s))) [] s)
    as (fs & s' & -> & ?); [lia|]. done.
Qed.

End StructLoop.

#[local] Hint Resolve total_read_struct_with : total.

Lemma total_read_map_with rfv :
  (forall t, total (rfv t)) -> total (read_map_with rfv).
Proof. intros H. unfold read_map_with. repeat total_step. Qed.

Lemma total_read_set_with rfv :
  (forall t, total (rfv t)) -> total (read_set_with rfv).
Proof. intros H. unfold read_set_with. repeat total_step. Qed.

Lemma total_read_list_with rfv :
  (forall t, total (rfv t)) -> total (read_list_with rfv).
Proof. intros H. unfold read_list_with. repeat total_step. Qed.
#[local] Hint Resolve total_read_map_with total_read_set_with
  total_read_list_with : total.

Lemma total_read_field_value_n d : forall t, total (read_field_value_n d t).
Proof.
  induction d as [|d IH]; intros t; simpl; repeat total_step.
Qed.
#[local] Hint Resolve total_read_field_value_n : total.

Lemma total_read_field_value max_depth t : total (read_field_value t max_depth).
Proof. apply total_read_field_value_n. Qed.

Lemma total_skip_field max_depth t : total (skip_field t max_depth).
Proof. apply total_skip_field_n. Qed.
#[local] Hint Resolve total_read_field_value total_skip_field : total.

(** [read_struct] always returns a struct dict. *)
Lemma read_struct_n_returns d s :
  exists fs s', read_struct_n d s = Return (VStruct fs) s'
                /\ (length (stream s') <= length (stream s))%nat.
Proof.
  unfold read_struct_n. destruct d as [|d]; [simpl; eauto|].
  unfold read_struct_with.
  destruct (struct_loop_returns (read_field_value_n (S d))
              (skip_field_n (S d)) (total_read_field_value_n _)
              (total_skip_field_n _) (S (length (stream s))) [] s)
    as (fs & s' & -> & ?); [lia|]. eauto.
Qed.

Lemma struct_resume_returns max_depth fields s :
  exists fs s', struct_resume max_depth fields s = Return fs s'
                /\ (length (stream s') <= length (stream s))%nat.
Proof.
  apply struct_loop_returns; [auto with total.. | lia].
Qed.

Lemma read_struct_resume max_depth s :
  0 < max_depth ->
  read_struct max_depth s =
  match struct_resume max_depth [] s with
  | Return fields s' => Return (VStruct fields) s'
  | Raise e s' => Raise e s'
  | OutOfFuel => OutOfFuel
  end.
Proof.
  intros H. unfold read_struct, read_struct_n, struct_resume,
    read_field_value, skip_field.
  destruct (Z.to_nat max_depth) eqn:E; [lia|]. reflexivity.
Qed.

(** One round of the loop, by what the round meets. *)
Lemma struct_resume_round max_depth fields s t s1 i s2 :
  read_byte s = Return t s1 -> t <> T_STOP ->
  read_i16 s1 = Return i s2 ->
  struct_resume max_depth fields s =
  let key := field_key (field_name_map s2) i in
  match read_field_value t max_depth s2 with
  | OutOfFuel => OutOfFuel
  | Return v s3 =>
    struct_resume max_depth
      (struct_set key (VField (type_name_of t) v i) fields) s3
  | Raise e s3 =>
    let fields' :=
      struct_set key (VFieldErr (type_name_of t) (exn_str e) i) fields in
    match skip_field t max_depth s3 with
    | OutOfFuel => OutOfFuel
    | Return _ s4 => struct_resume max_depth fields' s4
    | Raise _ s4 => Return fields' s4
    end
  end.
Proof.
  intros E1 Ht E2. unfold struct_resume at 1. simpl. rewrite E1.
  destruct (Z.eqb_spec t T_STOP) as [|_]; [done|]. rewrite E2.
  apply read_byte_Return in E1 as [E1 _].
  pose proof (total_read_i16 s1) as Hi. rewrite E2 in Hi. simpl in Hi.
  pose proof (total_read_field_value max_depth t s2) as Hv.
  destruct (read_field_value t max_depth s2) as [v s3|e s3|];
    simpl in Hv; [| |done].
  - apply struct_loop_fuel; auto with total; lia.
  - pose proof (total_skip_field max_depth t s3) as Hk.
    destruct (skip_field t max_depth s3) as [u s4|e' s4|];
      simpl in Hk; [|done..].
    apply struct_loop_fuel; auto with total; lia.
Qed.

(** A round of the loop in which the read of the value raises: the field
    is recorded under its key with the error text, the name of its type tag
    and its field id; [skip_field] is then called on the decoder as the
    failed read left it. If the skip returns, the loop goes on from where
    the skip stopped; if the skip raises too, the loop ends and returns the
    fields collected so far. Either way the struct decode returns and does
    not raise. *)
Lemma struct_round_on_failed_read (max_depth : Z)
    (fields : list (string * value)) (s s1 s2 s3 : decoder)
    (field_type field_id : Z) (e : py_exn) :
  read_byte s = Return field_type s1 ->
  field_type <> T_STOP ->
  read_i16 s1 = Return field_id s2 ->
  read_field_value field_type max_depth s2 = Raise e s3 ->
  let fields' :=
    struct_set (field_key (field_name_map s2) field_id)
      (VFieldErr (type_name_of field_type) (exn_str e) field_id) fields in
  (forall u s4, skip_field field_type max_depth s3 = Return u s4 ->
     struct_resume max_depth fields s = struct_resume max_depth fields' s4)
  /\ (forall e' s4, skip_field field_type max_depth s3 = Raise e' s4 ->
     struct_resume max_depth fields s = Return fields' s4)
  /\ (exists out s', struct_resume max_depth fields s = Return out s').
Proof.
  intros E1 Ht E2 Ev fields'.
  pose proof (struct_resume_round max_depth fields s _ _ _ _ E1 Ht E2) as R.
  simpl in R. rewrite Ev in R. fold fields' in R.
  split; [|split].
  - intros u s4 Es. by rewrite R, Es.
  - intros e' s4 Es. by rewrite R, Es.
  - destruct (struct_resume_returns max_depth fields s) as (fs & s' & ? & _).
    eauto.
Qed.

(** C5 fails on the code where the claim is right: the skip that follows a
    failed read does not skip the value of the failed field, it starts at
    the byte where the read stopped. The struct of [map_list_key_then_i32]
    carries a map field (id 1) with one pair whose key is a list, and then
    an I32 field (id 2) with the value 7.
    - Skipped from its first byte, the map value ends at byte 18, and from
      there the loop decodes field 2.
    - The read of the map value raises [TypeError] when it files the pair,
      with the cursor at byte 18, behind the whole map.
    - The skip starts there: it takes the header of field 2 and the first
      byte of its value for the header of a map of 33 554 432 pairs and
      raises [EOFError] at the end of the buffer.
    - So the struct decode returns field 1 with its error text and nothing
      else: field 2 is not decoded. *)
Theorem C5_skip_after_failed_read :
  skip_field T_MAP 32 (cursor_at map_list_key_then_i32 3 3)
  = Return tt (cursor_at map_list_key_then_i32 18 18)
  /\ struct_resume 32
       [("field_1", VFieldErr "MAP" "unhashable type: 'list'" 1)]
       (cursor_at map_list_key_then_i32 18 18)
     = Return [("field_1", VFieldErr "MAP" "unhashable type: 'list'" 1);
               ("field_2", VField "I32" (VInt 7) 2)]
              (cursor_at map_list_key_then_i32 26 26)
  /\ read_field_value T_MAP 32 (cursor_at map_list_key_then_i32 3 3)
     = Raise (TypeError "unhashable type: 'list'")
             (cursor_at map_list_key_then_i32 18 18)
  /\ skip_field T_MAP 32 (cursor_at map_list_key_then_i32 18 18)
     = Raise (eof_at 24) (cursor_at map_list_key_then_i32 26 24)
  /\ read_struct 32 (decoder_of map_list_key_then_i32)
     = Return
         (VStruct [("field_1", VFieldErr "MAP" "unhashable type: 'list'" 1)])
         (cursor_at map_list_key_then_i32 26 24).
Proof. repeat split; vm_compute; reflexivity. Qed.

(** ** Whole messages *)

Section MessageProperties.

Variable thrift_types : option thrift_module.
Variable utf8_error_text : list byte -> string.

Lemma total_read_message_begin : total (read_message_begin utf8_error_text).
Proof. unfold read_message_begin. repeat total_step. Qed.

(** The body of [decode_message] raises exactly when the envelope does;
    otherwise it returns a message dict. *)
Lemma decode_message_body_cases s :
  (exists e s', read_message_begin utf8_error_text s = Raise e s'
     /\ decode_message_body thrift_types utf8_error_text s = Raise e s')
  \/ (exists name mt seq s1 fs s2,
        read_message_begin utf8_error_text s = Return (name, mt, seq) s1
        /\ read_struct 32 (set_message_info thrift_types name mt s1)
           = Return (VStruct fs) s2
        /\ exists m,
           decode_message_body thrift_types utf8_error_text s
             = Return (DMessage m) s2
           /\ m_method m = name
           /\ m_message_type m = message_type_str mt
           /\ m_sequence_id m = seq
           /\ m_fields m = VStruct fs
           /\ m_bytes_decoded m = pos s2).
Proof.
  unfold decode_message_body, bind.
  pose proof (total_read_message_begin s) as Hh.
  destruct (read_message_begin utf8_error_text s) as [[[name mt] seq] s1|e s1|];
    simpl in Hh; [|eauto|done].
  right. exists name, mt, seq, s1. simpl.
  destruct (read_struct_n_returns 32
              (set_message_info thrift_types name mt s1)) as (fs & s2 & E & _).
  change (read_struct_n 32) with (read_struct 32) in E.
  exists fs, s2. rewrite E. split; [done|]. split; [done|].
  eexists. split; [reflexivity|]. done.
Qed.

(** C10: [decode_thrift_message] returns [None] for fewer than four bytes;
    for any longer input it returns a dict and does not raise: the error
    dict, with the error text, the exception type and the bytes counted so
    far, when the decode raised, and the message dict otherwise. *)
Theorem C10_decode_thrift_message_total (data : list byte) :
  ((length data < 4)%nat ->
   decode_thrift_message thrift_types utf8_error_text data = Returned None)
  /\ ((4 <= length data)%nat ->
      exists d,
        decode_thrift_message thrift_types utf8_error_text data
          = Returned (Some d)
        /\ (forall e s',
              decode_message_body thrift_types utf8_error_text
                (new_decoder data None) = Raise e s' ->
              d = DError (exn_str e) (exn_type_name e)
                         (Some (pos s', data_len s')))
        /\ (forall r s',
              decode_message_body thrift_types utf8_error_text
                (new_decoder data None) = Return r s' ->
              d = r /\ exists m, r = DMessage m /\ m_bytes_decoded m = pos s')).
Proof.
  unfold decode_thrift_message, decode_message. split; intros Hlen.
  - destruct (Nat.ltb_spec (length data) 4); [done | lia].
  - destruct (Nat.ltb_spec (length data) 4); [lia|].
    destruct (decode_message_body_cases (new_decoder data None))
      as [(e & s' & _ & ->)|(name & mt & seq & s1 & fs & s2 & _ & _ & m & -> & Hm)].
    + eexists. split; [reflexivity|]. split; [|done].
      intros e' s'' [= <- <-]. done.
    + eexists. split; [reflexivity|]. split; [done|].
      intros r s'' [= <- <-]. split; [done|]. exists m. tauto.
Qed.

(** C4: the envelope starts with a signed 32-bit integer. If it is negative,
    its bits under [0xFFFF0000] must be [0x80010000], else the read raises
    the unsupported-version error; its low byte is the message kind and the
    method name follows as a length-prefixed string. If it is not negative
    it is the length of the method name, whose bytes follow at once, and
    one byte then gives the message kind. In both cases a signed 32-bit
    sequence id is read last and the result is (name, kind, sequence id). *)
Theorem C4_read_message_begin (s s1 : decoder) (size : Z) :
  read_i32 s = Return size s1 ->
  (size < 0 -> Z.land size 0xFFFF0000 <> 0x80010000 ->
   read_message_begin utf8_error_text s
   = Raise (ValueError ("Unsupported Thrift version: "
                          +:+ py_hex (Z.land size 0xFFFF0000))) s1)
  /\ (size < 0 -> Z.land size 0xFFFF0000 = 0x80010000 ->
      forall name s2 seq s3,
        read_string s1 = Return name s2 ->
        read_i32 s2 = Return seq s3 ->
        read_message_begin utf8_error_text s
        = Return (name, Z.land size 0xFF, seq) s3)
  /\ (0 <= size ->
      forall name_bytes rest : list byte,
        stream s1 = name_bytes ++ rest ->
        length name_bytes = Z.to_nat size ->
        utf8_valid name_bytes = true ->
        forall kind s2 seq s3,
          read_byte (add_pos size (set_stream rest s1)) = Return kind s2 ->
          read_i32 s2 = Return seq s3 ->
          read_message_begin utf8_error_text s
          = Return (string_of_list_byte name_bytes, kind, seq) s3).
Proof.
  intros Hsize. unfold read_message_begin.
  rewrite (bind_Return _ _ _ _ _ Hsize).
  split; [|split].
  - intros Hneg Hv. destruct (Z.ltb_spec size 0); [|lia].
    destruct (Z.eqb_spec (Z.land size 0xFFFF0000) 0x80010000); [done|].
    reflexivity.
  - intros Hneg Hv name s2 seq s3 Hname Hseq.
    destruct (Z.ltb_spec size 0); [|lia].
    rewrite Hv. simpl negb. cbv iota.
    erewrite bind_Return; [|erewrite bind_Return; [|exact Hname]; reflexivity].
    erewrite bind_Return; [|exact Hseq]. reflexivity.
  - intros Hpos name_bytes rest Hs Hlen Hutf kind s2 seq s3 Hkind Hseq.
    destruct (Z.ltb_spec size 0); [lia|].
    unfold bind, stream_read, advance. cbv beta iota. rewrite <- Hlen.
    replace (stream s1) with (name_bytes ++ rest).
    rewrite take_app_length, drop_app_length, Nat.ltb_irrefl, Hutf.
    cbv beta iota. rewrite Hkind. simpl. rewrite Hseq. reflexivity.
Qed.

End MessageProperties.

Lemma C4_read_message_begin_witness :
  read_message_begin (fun _ => "") (decoder_of strict_hi)
  = Return ("hi", 1, 5) (cursor_at strict_hi 14 14).
Proof.
  refine (proj1 (proj2 (C4_read_message_begin (fun _ => "")
            (decoder_of strict_hi) (cursor_at strict_hi 4 4)
            (-2147418111) _)) _ _ "hi" (cursor_at strict_hi 10 10) 5
            (cursor_at strict_hi 14 14) _ _).
  - reflexivity.
  - lia.
  - reflexivity.
  - reflexivity.
  - reflexivity.
Defined.

(** ** Collections *)

Lemma depth_pred (max_depth : Z) :
  0 < max_depth -> Z.to_nat max_depth = S (Z.to_nat (max_depth - 1)).
Proof. lia. Qed.

Lemma read_field_value_struct max_depth :
  0 < max_depth ->
  read_field_value T_STRUCT max_depth = read_struct (max_depth - 1).
Proof.
  intros H. unfold read_field_value, read_struct, read_struct_n.
  now rewrite (depth_pred _ H).
Qed.

Lemma read_field_value_map max_depth :
  0 < max_depth -> read_field_value T_MAP max_depth = _read_map (max_depth - 1).
Proof.
  intros H. unfold read_field_value, _read_map. now rewrite (depth_pred _ H).
Qed.

Lemma read_field_value_set max_depth :
  0 < max_depth -> read_field_value T_SET max_depth = _read_set (max_depth - 1).
Proof.
  intros H. unfold read_field_value, _read_set. now rewrite (depth_pred _ H).
Qed.

Lemma read_field_value_list max_depth :
  0 < max_depth ->
  read_field_value T_LIST max_depth = _read_list (max_depth - 1).
Proof.
  intros H. unfold read_field_value, _read_list. now rewrite (depth_pred _ H).
Qed.

Lemma list_loop_spec rd n : forall acc s out s2,
  list_loop rd n acc s = Return out s2 <->
  exists vs, out = acc ++ vs /\ length vs = n /\ reads_in_order rd s vs s2.
Proof.
  induction n as [|n IH]; intros acc s out s2; simpl.
  - split.
    + intros [= <- <-]. exists []. rewrite app_nil_r. repeat split. constructor.
    + intros (vs & -> & Hl & Hr). destruct vs; [|done].
      inversion Hr; subst. by rewrite app_nil_r.
  - unfold bind. split.
    + destruct (rd s) as [v s1|e s1|] eqn:E; [|done..].
      intros (vs & -> & Hl & Hr)%IH. exists (v :: vs).
      rewrite <- app_assoc. repeat split; [simpl; lia|].
      econstructor; eauto.
    + intros (vs & -> & Hl & Hr). destruct vs as [|v vs]; [done|].
      inversion Hr as [|? ? s1 ? ? Hv Hrest]; subst. rewrite Hv.
      apply IH. exists vs.
      rewrite <- app_assoc. repeat split; [simpl in Hl; lia | done].
Qed.

Lemma map_loop_spec rdk rdv n : forall acc s out s2,
  map_loop rdk rdv n acc s = Return out s2 <->
  exists pairs,
    length pairs = n
    /\ pairs_in_order rdk rdv s pairs s2
    /\ Forall (fun kv => hashable kv.1 = true) pairs
    /\ out = fold_left (fun d kv => dict_set key_eqb kv.1 kv.2 d) pairs acc.
Proof.
  induction n as [|n IH]; intros acc s out s2; simpl.
  - split.
    + intros [= <- <-]. exists []. repeat split; constructor.
    + intros (pairs & Hl & Hr & _ & ->). destruct pairs; [|done].
      by inversion Hr; subst.
  - unfold bind, map_set. split.
    + destruct (rdk s) as [k s1|e s1|] eqn:Ek; [|done..].
      destruct (rdv s1) as [v s1'|e s1'|] eqn:Ev; [|done..].
      destruct (hashable k) eqn:Hk; [|done]. unfold ret.
      intros (pairs & Hl & Hr & Hh & ->)%IH. exists ((k, v) :: pairs).
      repeat split; [simpl; lia | econstructor; eauto | by constructor].
    + intros (pairs & Hl & Hr & Hh & ->). destruct pairs as [|[k v] pairs]; [done|].
      inversion Hr as [|? ? s1 ? s1' ? ? Hk Hv Hrest]; subst.
      inversion Hh as [|? ? Hhk Hhr]; subst. simpl in *.
      rewrite Hk, Hv, Hhk. unfold ret. apply IH. exists pairs.
      repeat split; [lia | done | done].
Qed.

Lemma forallb_dict_set (P : value * value -> bool) k v d :
  (forall k' v1 v2, P (k', v1) = P (k', v2)) ->
  P (k, v) = true -> forallb P d = true ->
  forallb P (dict_set key_eqb k v d) = true.
Proof.
  intros Hk Hp. induction d as [|[k' v'] r IH]; simpl; [by rewrite Hp|].
  intros [H1 H2]%andb_prop. destruct (key_eqb k' k); simpl.
  - by rewrite (Hk k' v v'), H1, H2.
  - by rewrite H1, IH.
Qed.

Lemma keys_distinct_dict_set k v d :
  keys_distinct d = true -> keys_distinct (dict_set key_eqb k v d) = true.
Proof.
  induction d as [|[k' v'] r IH]; simpl; [done|].
  intros [H1 H2]%andb_prop. destruct (key_eqb k' k) eqn:E; simpl.
  - by rewrite H1, H2.
  - rewrite IH by done. rewrite forallb_dict_set; [done|done| |done].
    simpl. by rewrite E.
Qed.

Lemma keys_distinct_fold pairs : forall acc,
  keys_distinct acc = true ->
  keys_distinct
    (fold_left (fun d kv => dict_set key_eqb kv.1 kv.2 d) pairs acc) = true.
Proof.
  induction pairs as [|[k v] pairs IH]; intros acc H; simpl; [done|].
  apply IH. by apply keys_distinct_dict_set.
Qed.

Lemma hashable_dict_set k v d :
  hashable k = true ->
  Forall (fun kv : value * value => hashable kv.1 = true) d ->
  Forall (fun kv : value * value => hashable kv.1 = true)
         (dict_set key_eqb k v d).
Proof.
  intros Hk. induction 1 as [|[k' v'] r H1 H2 IH]; simpl.
  - by repeat constructor.
  - destruct (key_eqb k' k); constructor; auto.
Qed.

Lemma hashable_fold pairs : forall acc,
  Forall (fun kv : value * value => hashable kv.1 = true) pairs ->
  Forall (fun kv : value * value => hashable kv.1 = true) acc ->
  Forall (fun kv : value * value => hashable kv.1 = true)
    (fold_left (fun d kv => dict_set key_eqb kv.1 kv.2 d) pairs acc).
Proof.
  induction pairs as [|[k v] pairs IH]; intros acc Hp Ha; simpl; [done|].
  inversion Hp; subst. apply IH; [done|]. by apply hashable_dict_set.
Qed.

Lemma list_header_cases (rfv : Z -> M value) (name : string) s et s0 size s1 :
  read_byte s = Return et s0 -> read_i32 s0 = Return size s1 ->
  let m :=
    (let* elem_type := read_byte in
     let* size := read_i32 in
     if size >? 10000 then
       ret (VList [VStr (name +:+ pretty size +:+ " entries>")])
     else
       let* result := list_loop (rfv elem_type) (Z.to_nat size) [] in
       ret (VList result)) in
  (size > 10000 ->
   m s = Return (VList [VStr (name +:+ pretty size +:+ " entries>")]) s1)
  /\ (size <= 10000 -> forall out s2,
      m s = Return out s2 <->
      exists vs, out = VList vs /\ length vs = Z.to_nat size
                 /\ reads_in_order (rfv et) s1 vs s2).
Proof.
  intros E1 E2 m. unfold m.
  rewrite (bind_Return _ _ _ _ _ E1), (bind_Return _ _ _ _ _ E2).
  split; intros Hs.
  - destruct (Z.gtb_spec size 10000); [done | lia].
  - destruct (Z.gtb_spec size 10000); [lia|]. intros out s2.
    unfold bind, ret.
    destruct (list_loop (rfv et) (Z.to_nat size) [] s1) as [r s'|e s'|] eqn:E.
    + apply list_loop_spec in E as (vs & -> & Hl & Hr). simpl. split.
      * intros [= <- <-]. eauto.
      * intros (vs' & -> & Hl' & Hr').
        assert (E' : list_loop (rfv et) (Z.to_nat size) [] s1
                     = Return ([] ++ vs') s2)
          by (apply list_loop_spec; eauto).
        assert (E'' : list_loop (rfv et) (Z.to_nat size) [] s1
                      = Return ([] ++ vs) s')
          by (apply list_loop_spec; eauto).
        rewrite E' in E''. by injection E'' as -> ->.
    + split; [done|]. intros (vs & -> & Hl & Hr).
      assert (E' : list_loop (rfv et) (Z.to_nat size) [] s1
                   = Return ([] ++ vs) s2)
        by (apply list_loop_spec; eauto).
      by rewrite E in E'.
    + split; [done|]. intros (vs & -> & Hl & Hr).
      assert (E' : list_loop (rfv et) (Z.to_nat size) [] s1
                   = Return ([] ++ vs) s2)
        by (apply list_loop_spec; eauto).
      by rewrite E in E'.
Qed.

Lemma map_header_cases (rfv : Z -> M value) s kt s0 vt s0' size s1 :
  read_byte s = Return kt s0 -> read_byte s0 = Return vt s0' ->
  read_i32 s0' = Return size s1 ->
  (size > 10000 ->
   read_map_with rfv s = Return (large_placeholder T_MAP size) s1)
  /\ (size <= 10000 -> forall out s2,
      read_map_with rfv s = Return out s2 <->
      exists pairs,
        out = VDict (dict_of_pairs pairs)
        /\ length pairs = Z.to_nat size
        /\ pairs_in_order (rfv kt) (rfv vt) s1 pairs s2
        /\ Forall (fun kv : value * value => hashable kv.1 = true) pairs).
Proof.
  intros E1 E2 E3. unfold read_map_with.
  rewrite (bind_Return _ _ _ _ _ E1), (bind_Return _ _ _ _ _ E2),
    (bind_Return _ _ _ _ _ E3).
  split; intros Hs.
  - destruct (Z.gtb_spec size 10000); [done | lia].
  - destruct (Z.gtb_spec size 10000); [lia|]. intros out s2.
    unfold bind, ret, dict_of_pairs.
    destruct (map_loop (rfv kt) (rfv vt) (Z.to_nat size) [] s1)
      as [r s'|e s'|] eqn:E.
    + split.
      * intros [= <- <-].
        apply map_loop_spec in E as (pairs & Hl & Hr & Hh & ->). eauto 10.
      * intros (pairs & -> & Hl & Hr & Hh).
        assert (E' : map_loop (rfv kt) (rfv vt) (Z.to_nat size) [] s1
                     = Return (fold_left
                         (fun d kv => dict_set key_eqb kv.1 kv.2 d) pairs [])
                         s2)
          by (apply map_loop_spec; eauto 10).
        rewrite E in E'. by injection E' as -> ->.
    + split; [done|]. intros (pairs & -> & Hl & Hr & Hh).
      assert (E' : map_loop (rfv kt) (rfv vt) (Z.to_nat size) [] s1
                   = Return (fold_left
                       (fun d kv => dict_set key_eqb kv.1 kv.2 d) pairs [])
                       s2)
        by (apply map_loop_spec; eauto 10).
      by rewrite E in E'.
    + split; [done|]. intros (pairs & -> & Hl & Hr & Hh).
      assert (E' : map_loop (rfv kt) (rfv vt) (Z.to_nat size) [] s1
                   = Return (fold_left
                       (fun d kv => dict_set key_eqb kv.1 kv.2 d) pairs [])
                       s2)
        by (apply map_loop_spec; eauto 10).
      by rewrite E in E'.
Qed.

(** C7: a list, set or map whose declared count is above 10 000 is not
    read: the value is the one-entry placeholder that names the count and
    the cursor stays right after the count; a struct that holds such a
    field records the placeholder and its loop goes on from that cursor.
    With a count of at most 10 000 the elements (for a map, the pairs) are
    read one after the other, each from where the one before stopped. *)
Theorem C7_collection_ceiling (max_depth : Z) :
  (forall s elem_type s0 size s1,
     read_byte s = Return elem_type s0 ->
     read_i32 s0 = Return size s1 ->
     (size > 10000 ->
      _read_list max_depth s = Return (large_placeholder T_LIST size) s1
      /\ _read_set max_depth s = Return (large_placeholder T_SET size) s1)
     /\ (size <= 10000 -> forall out s2,
         (_read_list max_depth s = Return out s2 <->
          exists vs, out = VList vs /\ length vs = Z.to_nat size
            /\ reads_in_order (read_field_value elem_type max_depth) s1 vs s2)
         /\ (_read_set max_depth s = Return out s2 <->
          exists vs, out = VList vs /\ length vs = Z.to_nat size
            /\ reads_in_order (read_field_value elem_type max_depth) s1 vs s2)))
  /\ (forall s key_type s0 val_type s0' size s1,
     read_byte s = Return key_type s0 ->
     read_byte s0 = Return val_type s0' ->
     read_i32 s0' = Return size s1 ->
     (size > 10000 ->
      _read_map max_depth s = Return (large_placeholder T_MAP size) s1)
     /\ (size <= 10000 -> forall out s2,
         _read_map max_depth s = Return out s2 <->
         exists pairs,
           out = VDict (dict_of_pairs pairs)
           /\ length pairs = Z.to_nat size
           /\ pairs_in_order (read_field_value key_type max_depth)
                (read_field_value val_type max_depth) s1 pairs s2
           /\ Forall (fun kv : value * value => hashable kv.1 = true) pairs))
  /\ (forall fields s field_type sa field_id sb elem_type sc size s1,
     0 < max_depth ->
     read_byte s = Return field_type sa ->
     field_type = T_SET \/ field_type = T_LIST ->
     read_i16 sa = Return field_id sb ->
     read_byte sb = Return elem_type sc ->
     read_i32 sc = Return size s1 ->
     size > 10000 ->
     struct_resume max_depth fields s =
     struct_resume max_depth
       (struct_set (field_key (field_name_map sb) field_id)
          (VField (type_name_of field_type)
                  (large_placeholder field_type size) field_id) fields) s1)
  /\ (forall fields s sa field_id sb key_type sc val_type sd size s1,
     0 < max_depth ->
     read_byte s = Return T_MAP sa ->
     read_i16 sa = Return field_id sb ->
     read_byte sb = Return key_type sc ->
     read_byte sc = Return val_type sd ->
     read_i32 sd = Return size s1 ->
     size > 10000 ->
     struct_resume max_depth fields s =
     struct_resume max_depth
       (struct_set (field_key (field_name_map sb) field_id)
          (VField "MAP" (large_placeholder T_MAP size) field_id) fields) s1).
Proof.
  split; [|split; [|split]].
  - intros s et s0 size s1 E1 E2.
    pose proof (list_header_cases (read_field_value_n (Z.to_nat max_depth))
                  "<large_list: " s et s0 size s1 E1 E2) as [L1 L2].
    pose proof (list_header_cases (read_field_value_n (Z.to_nat max_depth))
                  "<large_set: " s et s0 size s1 E1 E2) as [S1 S2].
    split.
    + intros H. split; [exact (L1 H) | exact (S1 H)].
    + intros H out s2. split; [exact (L2 H out s2) | exact (S2 H out s2)].
  - intros s kt s0 vt s0' size s1 E1 E2 E3.
    exact (map_header_cases (read_field_value_n (Z.to_nat max_depth))
             s kt s0 vt s0' size s1 E1 E2 E3).
  - intros fields s t sa i sb et sc size s1 Hd E1 Ht E2 E3 E4 Hbig.
    rewrite (struct_resume_round max_depth fields s t sa i sb E1);
      [|destruct Ht as [->| ->]; done | done].
    simpl. destruct Ht as [->| ->].
    + rewrite (read_field_value_set _ Hd).
      pose proof (list_header_cases
                    (read_field_value_n (Z.to_nat (max_depth - 1)))
                    "<large_set: " sb et sc size s1 E3 E4) as [L _].
      unfold _read_set, read_set_with. simpl in L. by rewrite (L Hbig).
    + rewrite (read_field_value_list _ Hd).
      pose proof (list_header_cases
                    (read_field_value_n (Z.to_nat (max_depth - 1)))
                    "<large_list: " sb et sc size s1 E3 E4) as [L _].
      unfold _read_list, read_list_with. simpl in L. by rewrite (L Hbig).
  - intros fields s sa i sb kt sc vt sd size s1 Hd E1 E2 E3 E4 E5 Hbig.
    rewrite (struct_resume_round max_depth fields s _ sa i sb E1);
      [|done | done].
    simpl. rewrite (read_field_value_map _ Hd).
    pose proof (map_header_cases
                  (read_field_value_n (Z.to_nat (max_depth - 1)))
                  sb kt sc vt sd size s1 E3 E4 E5) as [L _].
    unfold _read_map. by rewrite (L Hbig).
Qed.

Lemma C7_collection_ceiling_witness :
  struct_resume 32 [] (decoder_of large_list_full)
  = struct_resume 32
      [("field_1", VField "LIST" (VList [VStr "<large_list: 10001 entries>"]) 1)]
      (cursor_at large_list_full 8 8).
Proof.
  refine (proj1 (proj2 (proj2 (C7_collection_ceiling 32))) []
            (decoder_of large_list_full) T_LIST
            (cursor_at large_list_full 1 1) 1
            (cursor_at large_list_full 3 3) 3
            (cursor_at large_list_full 4 4) 10001
            (cursor_at large_list_full 8 8) _ _ _ _ _ _ _).
  - lia.
  - vm_compute. reflexivity.
  - right. reflexivity.
  - vm_compute. reflexivity.
  - vm_compute. reflexivity.
  - vm_compute. reflexivity.
  - lia.
Defined.

(** C7 as stated fails: the decoding of sibling fields does not continue
    after the placeholder. The struct of [large_list_full] carries a list
    field that holds the 10 001 elements it declares and then the I32
    field 2: skipped from its first byte, the list ends at byte 10 009, and
    the loop entered there decodes field 2. The decode of the struct
    returns the placeholder for field 1 and stops on the first element,
    which it takes for the STOP of the struct: field 2 is not decoded. *)
Lemma C7_sibling_lost_counterexample :
  skip_field T_LIST 32 (cursor_at large_list_full 3 3)
  = Return tt (cursor_at large_list_full (Z.to_nat 10009) 10009)
  /\ struct_resume 32 []
       (cursor_at large_list_full (Z.to_nat 10009) 10009)
     = Return [("field_2", VField "I32" (VInt 7) 2)]
              (cursor_at large_list_full (Z.to_nat 10017) 10017)
  /\ read_struct 32 (decoder_of large_list_full)
     = Return
         (VStruct
            [("field_1",
              VField "LIST" (VList [VStr "<large_list: 10001 entries>"]) 1)])
         (cursor_at large_list_full 9 9)
  /\ str_get "field_2"
       [("field_1",
         VField "LIST" (VList [VStr "<large_list: 10001 entries>"]) 1)]
     = None.
Proof. repeat split; vm_compute; reflexivity. Qed.

(** ** Maps *)

Lemma map_loop_prefix rdk rdv pre : forall n acc s sa,
  pairs_in_order rdk rdv s pre sa ->
  Forall (fun kv : value * value => hashable kv.1 = true) pre ->
  map_loop rdk rdv (length pre + n) acc s
  = map_loop rdk rdv n
      (fold_left (fun d kv => dict_set key_eqb kv.1 kv.2 d) pre acc) sa.
Proof.
  induction pre as [|[k v] pre IH]; intros n acc s sa Hr Hh.
  - by inversion Hr; subst.
  - inversion Hr as [|? ? s1 ? s2 ? ? Hk Hv Hrest]; subst.
    inversion Hh as [|? ? Hhk Hhr]; subst. simpl in *.
    unfold bind at 1. rewrite Hk. unfold bind at 1. rewrite Hv.
    unfold bind at 1, map_set. rewrite Hhk. unfold ret. by apply IH.
Qed.

Lemma map_loop_S rdk rdv n acc :
  map_loop rdk rdv (S n) acc
  = (let* key := rdk in
     let* val := rdv in
     let* result' := map_set key val acc in
     map_loop rdk rdv n result').
Proof. reflexivity. Qed.

Lemma dict_set_keys k v (d : list (value * value)) :
  map fst (dict_set key_eqb k v d)
  = if existsb (fun k' => key_eqb k' k) (map fst d) then map fst d
    else map fst d ++ [k].
Proof.
  induction d as [|[k' v'] r IH]; simpl; [done|].
  destruct (key_eqb k' k); simpl; [done|]. rewrite IH.
  by destruct (existsb _ _).
Qed.

(** C1, as the code has it: the value decoded for a map is a dict. Its
    keys are scalars or strings and no two of them are equal; it is what
    assigning the pairs read from the wire, in wire order, to an empty dict
    gives, so a key met again keeps the place of its first occurrence and
    takes the later value, and a new key goes to the end; a key that is a
    struct, map, set or list makes the map decode raise a [TypeError]. *)
Theorem C1_map_is_dict (max_depth : Z) (s : decoder) :
  (forall out s2,
     _read_map max_depth s = Return out s2 ->
     exists kvs, out = VDict kvs
       /\ keys_distinct kvs = true
       /\ Forall (fun kv : value * value => hashable kv.1 = true) kvs)
  /\ (forall key_type s0 val_type s0' size s1,
     read_byte s = Return key_type s0 ->
     read_byte s0 = Return val_type s0' ->
     read_i32 s0' = Return size s1 ->
     size <= 10000 ->
     (forall out s2,
        _read_map max_depth s = Return out s2 <->
        exists pairs,
          out = VDict (dict_of_pairs pairs)
          /\ length pairs = Z.to_nat size
          /\ pairs_in_order (read_field_value key_type max_depth)
               (read_field_value val_type max_depth) s1 pairs s2
          /\ Forall (fun kv : value * value => hashable kv.1 = true) pairs)
     /\ (forall pre sa k sk v sv,
        pairs_in_order (read_field_value key_type max_depth)
          (read_field_value val_type max_depth) s1 pre sa ->
        Forall (fun kv : value * value => hashable kv.1 = true) pre ->
        (length pre < Z.to_nat size)%nat ->
        read_field_value key_type max_depth sa = Return k sk ->
        read_field_value val_type max_depth sk = Return v sv ->
        hashable k = false ->
        _read_map max_depth s = Raise (unhashable_error k) sv))
  /\ (forall k v (d : list (value * value)),
     map fst (dict_set key_eqb k v d)
     = if existsb (fun k' => key_eqb k' k) (map fst d) then map fst d
       else map fst d ++ [k]).
Proof.
  split; [|split].
  - intros out s2 H. unfold _read_map in H.
    destruct (read_byte s) as [kt s0|e s0|] eqn:E1;
      [|unfold read_map_with in H; by rewrite (bind_Raise _ _ _ _ _ E1) in H
       |unfold read_map_with, bind in H; by rewrite E1 in H].
    destruct (read_byte s0) as [vt s0'|e s0'|] eqn:E2;
      [|unfold read_map_with, bind in H; by rewrite E1, E2 in H..].
    destruct (read_i32 s0') as [size s1|e s1|] eqn:E3;
      [|unfold read_map_with, bind in H; by rewrite E1, E2, E3 in H..].
    destruct (map_header_cases (read_field_value_n (Z.to_nat max_depth))
                s kt s0 vt s0' size s1 E1 E2 E3) as [Hbig Hsmall].
    destruct (Z_le_gt_dec size 10000) as [Hle|Hgt].
    + destruct (proj1 (Hsmall Hle out s2) H) as (pairs & Hout & _ & _ & Hh).
      subst out. eexists. split; [done|]. split.
      * by apply keys_distinct_fold.
      * apply hashable_fold; [done | constructor].
    + rewrite (Hbig Hgt) in H. injection H as <- <-.
      eexists. split; [reflexivity|]. split; [done|].
      by repeat constructor.
  - intros kt s0 vt s0' size s1 E1 E2 E3 Hle.
    destruct (map_header_cases (read_field_value_n (Z.to_nat max_depth))
                s kt s0 vt s0' size s1 E1 E2 E3) as [_ Hsmall].
    split; [exact (Hsmall Hle)|].
    intros pre sa k sk v sv Hpre Hh Hlen Ek Ev Hk.
    unfold _read_map, read_map_with.
    rewrite (bind_Return _ _ _ _ _ E1), (bind_Return _ _ _ _ _ E2),
      (bind_Return _ _ _ _ _ E3).
    destruct (Z.gtb_spec size 10000); [lia|].
    replace (Z.to_nat size)
      with (length pre + S (Z.to_nat size - length pre - 1))%nat by lia.
    unfold bind at 1.
    rewrite (map_loop_prefix _ _ pre _ _ s1 sa Hpre Hh), map_loop_S.
    unfold bind at 1. rewrite Ek.
    unfold bind at 1. rewrite Ev.
    unfold bind at 1, map_set. by rewrite Hk.
  - apply dict_set_keys.
Qed.

(** C1 as stated fails: the map with the wire pairs 1:5 and 1:6 decodes to
    a dict with the single pair 1:6, and a map whose key is a struct is not
    decoded at all. *)
Lemma C1_duplicates_and_struct_keys_counterexample :
  pairs_in_order (read_field_value T_I32 31) (read_field_value T_I32 31)
    (cursor_at map_dup_keys 6 6)
    [(VInt 1, VInt 5); (VInt 1, VInt 6)]
    (cursor_at map_dup_keys 22 22)
  /\ _read_map 31 (decoder_of map_dup_keys)
     = Return (VDict [(VInt 1, VInt 6)]) (cursor_at map_dup_keys 22 22)
  /\ _read_map 31 (decoder_of map_dup_keys)
     <> Return (VDict [(VInt 1, VInt 5); (VInt 1, VInt 6)])
               (cursor_at map_dup_keys 22 22)
  /\ _read_map 31 (decoder_of map_struct_key)
     = Raise (TypeError "unhashable type: 'dict'")
             (cursor_at map_struct_key 11 11).
Proof.
  split; [|split; [|split]].
  - apply (pairs_cons _ _ _ (VInt 1) (cursor_at map_dup_keys 10 10)
             (VInt 5) (cursor_at map_dup_keys 14 14)); [done..|].
    apply (pairs_cons _ _ _ (VInt 1) (cursor_at map_dup_keys 18 18)
             (VInt 6) (cursor_at map_dup_keys 22 22)); [done..|].
    constructor.
  - reflexivity.
  - discriminate.
  - reflexivity.
Qed.

Lemma C1_map_is_dict_witness :
  _read_map 31 (decoder_of map_struct_key)
  = Raise (unhashable_error (VStruct [])) (cursor_at map_struct_key 11 11).
Proof.
  refine (proj2 (proj1 (proj2 (C1_map_is_dict 31 (decoder_of map_struct_key)))
            T_STRUCT (cursor_at map_struct_key 1 1)
            T_I32 (cursor_at map_struct_key 2 2)
            1 (cursor_at map_struct_key 6 6) _ _ _ _)
            [] (cursor_at map_struct_key 6 6)
            (VStruct []) (cursor_at map_struct_key 7 7)
            (VInt 5) (cursor_at map_struct_key 11 11) _ _ _ _ _ _).
  - reflexivity.
  - reflexivity.
  - reflexivity.
  - lia.
  - constructor.
  - constructor.
  - simpl. lia.
  - reflexivity.
  - reflexivity.
  - reflexivity.
Defined.

(** ** Order of the fields *)

Lemma struct_resume_trace max_depth s trace s' :
  fields_in_order max_depth s trace s' ->
  forall fields,
    struct_resume max_depth fields s
    = Return (struct_of_fields fields trace) s'.
Proof.
  induction 1 as [s s1 E1|s e s1 E1|s t s1 e s2 E1 Ht E2
                 |s t s1 i s2 v s3 rest s4 E1 Ht E2 Ev Hr IH
                 |s t s1 i s2 e s3 u s4 rest s5 E1 Ht E2 Ev Es Hr IH
                 |s t s1 i s2 e s3 e' s4 E1 Ht E2 Ev Es]; intros fields.
  - unfold struct_resume. simpl. by rewrite E1.
  - unfold struct_resume. simpl. rewrite E1, struct_header_failed_Return.
    by rewrite (read_byte_Raise _ _ _ E1).
  - unfold struct_resume. simpl. rewrite E1.
    destruct (Z.eqb_spec t T_STOP); [done|].
    rewrite E2, struct_header_failed_Return.
    by rewrite (read_i16_Raise _ _ _ E2).
  - rewrite (struct_resume_round _ _ _ _ _ _ _ E1 Ht E2). simpl.
    rewrite Ev. apply IH.
  - rewrite (struct_resume_round _ _ _ _ _ _ _ E1 Ht E2). simpl.
    rewrite Ev, Es. apply IH.
  - rewrite (struct_resume_round _ _ _ _ _ _ _ E1 Ht E2). simpl.
    by rewrite Ev, Es.
Qed.

(** Every struct decode has a trace. *)
Lemma fields_in_order_exists max_depth n : forall s,
  (length (stream s) < n)%nat ->
  exists trace s', fields_in_order max_depth s trace s'.
Proof.
  induction n as [|n IH]; intros s Hn; [lia|].
  pose proof (total_read_byte s) as Hb.
  destruct (read_byte s) as [t s1|e s1|] eqn:E1; simpl in Hb; [| |done].
  2:{ eauto using fields_no_tag. }
  destruct (Z.eq_dec t T_STOP) as [->|Ht]; [eauto using fields_stop|].
  pose proof (total_read_i16 s1) as Hi.
  destruct (read_i16 s1) as [i s2|e s2|] eqn:E2; simpl in Hi; [| |done].
  2:{ eauto using fields_no_id. }
  pose proof (proj1 (read_byte_Return _ _ _ E1)) as Hlt.
  pose proof (total_read_field_value max_depth t s2) as Hv.
  destruct (read_field_value t max_depth s2) as [v s3|e s3|] eqn:Ev;
    simpl in Hv; [| |done].
  - destruct (IH s3) as (rest & s4 & Hr); [lia|].
    eauto using fields_value.
  - pose proof (total_skip_field max_depth t s3) as Hk.
    destruct (skip_field t max_depth s3) as [u s4|e' s4|] eqn:Es;
      simpl in Hk; [| |done].
    + destruct (IH s4) as (rest & s5 & Hr); [lia|].
      eauto using fields_error_skipped.
    + eauto using fields_error_last.
Qed.

Lemma struct_set_keys k v (d : list (string * value)) :
  map fst (struct_set k v d)
  = if existsb (String.eqb k) (map fst d) then map fst d
    else map fst d ++ [k].
Proof.
  unfold struct_set.
  induction d as [|[k' v'] r IH]; simpl; [done|].
  rewrite (String.eqb_sym k k').
  destruct (String.eqb k' k); simpl; [done|]. rewrite IH.
  by destruct (existsb _ _).
Qed.

Lemma struct_of_fields_keys trace : forall fields,
  map fst (struct_of_fields fields trace)
  = first_occurrences (map fst fields) (map fst trace).
Proof.
  unfold struct_of_fields, first_occurrences.
  induction trace as [|[k v] trace IH]; intros fields; simpl; [done|].
  rewrite IH. f_equal. apply struct_set_keys.
Qed.

(** [sorted(...)] yields the same items in ascending order of the keys. *)
Lemma insert_item_perm x l : Permutation (insert_item x l) (x :: l).
Proof.
  induction l as [|y r IH]; simpl; [done|].
  destruct (String.leb x.1 y.1); [done|].
  rewrite IH. apply perm_swap.
Qed.

Lemma sorted_items_perm l : Permutation (sorted_items l) l.
Proof.
  induction l as [|x r IH]; simpl; [done|].
  rewrite insert_item_perm. by constructor.
Qed.

Lemma insert_item_sorted x l :
  Sorted key_le l -> Sorted key_le (insert_item x l).
Proof.
  induction 1 as [|y r Hs IH Hd]; simpl; [by repeat constructor|].
  destruct (String.leb x.1 y.1) eqn:E.
  - constructor; [by constructor|]. by constructor.
  - assert (Hyx : key_le y x).
    { unfold key_le. destruct (String.leb_total x.1 y.1); congruence. }
    constructor; [done|].
    destruct r as [|z r]; simpl; [by constructor|].
    inversion Hd; subst.
    destruct (String.leb x.1 z.1); by constructor.
Qed.

Lemma sorted_items_sorted l : Sorted key_le (sorted_items l).
Proof.
  induction l as [|x r IH]; simpl; [constructor|].
  by apply insert_item_sorted.
Qed.

(** C3, as the code has it: the fields of a struct are decoded in wire
    order, and the dict that [read_struct] returns lists every key at the
    place of its first occurrence on the wire (a field whose key was met
    before replaces the earlier entry where it stands). The formatter does
    not keep this order: it writes the fields in ascending order of their
    keys. *)
Theorem C3_field_order (repr_text : value -> string) (max_depth : Z)
    (s : decoder) :
  0 < max_depth ->
  (exists trace s',
     fields_in_order max_depth s trace s'
     /\ read_struct max_depth s
        = Return (VStruct (struct_of_fields [] trace)) s'
     /\ map fst (struct_of_fields [] trace)
        = first_occurrences [] (map fst trace))
  /\ (forall prefix max_field_length fields,
        fields <> [] ->
        format_fields repr_text prefix max_field_length fields
        = (prefix +:+ "Fields (" +:+ pretty (Z.of_nat (length fields))
             +:+ "):")
          :: map (format_field repr_text prefix max_field_length)
                 (sorted_items fields))
  /\ (forall fields,
        Permutation (sorted_items fields) fields
        /\ Sorted key_le (sorted_items fields)).
Proof.
  intros Hd. split; [|split].
  - destruct (fields_in_order_exists max_depth (S (length (stream s))) s)
      as (trace & s' & Ht); [lia|].
    exists trace, s'. split; [done|]. split.
    + rewrite (read_struct_resume _ _ Hd).
      by rewrite (struct_resume_trace _ _ _ _ Ht []).
    + apply (struct_of_fields_keys trace []).
  - intros prefix mfl [|x r] Hne; [done|]. reflexivity.
  - intros fields. split; [apply sorted_items_perm | apply sorted_items_sorted].
Qed.

Lemma C3_field_order_witness :
  (exists trace s',
     fields_in_order 32 (cursor_at fields_2_then_1 14 14) trace s'
     /\ read_struct 32 (cursor_at fields_2_then_1 14 14)
        = Return (VStruct (struct_of_fields [] trace)) s'
     /\ map fst (struct_of_fields [] trace)
        = first_occurrences [] (map fst trace))
  /\ (forall prefix max_field_length fields,
        fields <> [] ->
        format_fields (fun _ => "") prefix max_field_length fields
        = (prefix +:+ "Fields (" +:+ pretty (Z.of_nat (length fields))
             +:+ "):")
          :: map (format_field (fun _ => "") prefix max_field_length)
                 (sorted_items fields))
  /\ (forall fields,
        Permutation (sorted_items fields) fields
        /\ Sorted key_le (sorted_items fields)).
Proof.
  apply (C3_field_order (fun _ => "") 32 (cursor_at fields_2_then_1 14 14)).
  lia.
Defined.

(** C3 as stated fails where the fields are reported: the message whose
    struct carries field 2 and then field 1 decodes to a dict in this
    order, and the formatter writes field 1 before field 2. *)
Lemma C3_report_order_counterexample :
  decode_thrift_message None (fun _ => "") (bytes_of fields_2_then_1)
  = Returned (Some (DMessage message_2_then_1))
  /\ map fst (struct_items (m_fields message_2_then_1))
     = ["field_2"; "field_1"]
  /\ format_thrift_message None (fun _ => "")
       (Some (DMessage message_2_then_1)) 200 0
     = str_join (String "010"%char "")
         ["Method: hi";
          "Type: CALL";
          "Bytes: 29/29";
          "Field Names: Generic (thrift types not available)";
          "Fields (2):";
          "  field_1 [id=1] (I32): 5";
          "  field_2 [id=2] (I32): 7"].
Proof. split; [|split]; vm_compute; reflexivity. Qed.

(** ** Nesting beyond the depth ceiling *)

(** When the loop of a struct reaches a STRUCT field through [lead_in], the
    nested struct is decoded with one level less, its value is filed under
    the field's key and the loop goes on where the nested decode stopped. *)
Lemma lead_in_resume max_depth k : forall fields s fields' i s2 v s3,
  0 < max_depth ->
  lead_in max_depth k fields s = Some (fields', i, s2) ->
  read_struct (max_depth - 1) s2 = Return v s3 ->
  struct_resume max_depth fields s
  = struct_resume max_depth
      (struct_set (field_key (field_name_map s2) i) (VField "STRUCT" v i)
         fields') s3.
Proof.
  induction k as [|k IH]; intros fields s fields' i s2 v s3 Hd Hl Hv;
    simpl in Hl;
    destruct (read_byte s) as [t sa|?|] eqn:E1; try done;
    destruct (Z.eqb_spec t T_STOP) as [|Ht]; try done;
    destruct (read_i16 sa) as [j sb|?|] eqn:E2; try done;
    rewrite (struct_resume_round max_depth fields s t sa j sb E1 Ht E2);
    simpl.
  - destruct (Z.eqb_spec t T_STRUCT) as [->|]; [|done].
    injection Hl as <- <- <-.
    by rewrite (read_field_value_struct _ Hd), Hv.
  - destruct (read_field_value t max_depth sb) as [w sc|e sc|]; [| |done].
    + by apply IH.
    + destruct (skip_field t max_depth sc) as [u sd|?|]; [|done..].
      by apply IH.
Qed.

Lemma read_struct_returns max_depth s :
  exists fs s', read_struct max_depth s = Return (VStruct fs) s'.
Proof.
  destruct (read_struct_n_returns (Z.to_nat max_depth) s) as (fs & s' & H & _).
  eauto.
Qed.

(** A descent of [ks] levels within the depth: the decode of the whole is
    the decode of the innermost struct, closed by the levels passed. *)
Lemma descend_close ks : forall max_depth s frames s' v s'',
  Z.of_nat (length ks) <= max_depth ->
  descend max_depth ks s = Some (frames, s') ->
  read_struct (max_depth - Z.of_nat (length ks)) s' = Return v s'' ->
  read_struct max_depth s = close max_depth frames v s''.
Proof.
  induction ks as [|k ks IH]; intros d s frames s' v s'' Hd Hdesc Hv.
  - injection Hdesc as <- <-. simpl in Hv.
    by replace (d - Z.of_nat 0) with d in Hv by lia.
  - simpl in Hdesc.
    destruct (lead_in d k [] s) as [[[fields i] s2]|] eqn:Hl; [|done].
    destruct (descend (d - 1) ks s2) as [[frames' t']|] eqn:Hd';
      [|done].
    injection Hdesc as <- <-.
    rewrite length_cons in Hd, Hv.
    assert (Hin : read_struct (d - 1) s2 = close (d - 1) frames' v s'').
    { apply (IH (d - 1) s2 frames' t' v s''); [lia | done |].
      by replace (d - 1 - Z.of_nat (length ks))
        with (d - Z.of_nat (S (length ks))) by lia. }
    destruct (read_struct_returns (d - 1) s2) as (fs & s3 & Hr).
    simpl. rewrite <- Hin, Hr.
    rewrite (read_struct_resume d s) by lia.
    by rewrite (lead_in_resume d k [] s fields i s2 (VStruct fs) s3
                  ltac:(lia) Hl Hr).
Qed.

(** The innermost level of a descent is closed first. *)
Lemma close_snoc frames : forall max_depth fr v s,
  close max_depth (frames ++ [fr]) v s
  = match struct_resume (max_depth - Z.of_nat (length frames))
            (struct_set (fr_key fr) (VField "STRUCT" v (fr_id fr))
               (fr_fields fr)) s with
    | Return fields s' =>
      close max_depth frames (VStruct fields) s'
    | Raise e s' => Raise e s'
    | OutOfFuel => OutOfFuel
    end.
Proof.
  induction frames as [|f frames IH]; intros d fr v s; simpl.
  - by replace (d - Z.of_nat 0) with d by lia.
  - rewrite IH.
    replace (d - 1 - Z.of_nat (length frames))
      with (d - Z.of_nat (S (length frames))) by lia.
    by destruct (struct_resume _ _ s).
Qed.

Lemma descend_length ks : forall max_depth s frames s',
  descend max_depth ks s = Some (frames, s') -> length frames = length ks.
Proof.
  induction ks as [|k ks IH]; intros d s frames s' H; simpl in H.
  - by injection H as <- <-.
  - destruct (lead_in d k [] s) as [[[fields i] s2]|]; [|done].
    destruct (descend (d - 1) ks s2) as [[frames' t']|] eqn:Hd; [|done].
    injection H as <- <-. simpl. f_equal. by apply (IH _ _ _ _ Hd).
Qed.




(** ** Field names

    Two runs of the decoder on the same bytes, one with the id-to-name
    table [names] and one with the empty table, proceed in lockstep: same
    cursor, same exceptions, and values that differ by [rekey names]. *)

Lemma field_key_empty i : field_key ∅ i = "field_" +:+ pretty i.
Proof. unfold field_key. by rewrite lookup_empty. Qed.

Lemma field_key_empty_inj a b : field_key ∅ a = field_key ∅ b -> a = b.
Proof.
  rewrite !field_key_empty. intros H.
  apply (inj (String.append "field_")) in H. by apply (inj pretty) in H.
Qed.

Section Rename.

Variable names : gmap Z string.
Hypothesis names_inj :
  forall a b, field_key names a = field_key names b -> a = b.

Lemma sim_ret {A} (R : A -> A -> Prop) a1 a0 :
  R a1 a0 -> simulates names R (ret a1) (ret a0).
Proof. intros H s Hs. simpl. auto. Qed.

Lemma sim_raise {A} (R : A -> A -> Prop) e :
  simulates names R (raise e) (raise e).
Proof. intros s Hs. simpl. auto. Qed.

Lemma sim_bind {A B} (R : A -> A -> Prop) (R' : B -> B -> Prop)
    (m1 m0 : M A) (k1 k0 : A -> M B) :
  simulates names R m1 m0 ->
  (forall a1 a0, R a1 a0 -> simulates names R' (k1 a1) (k0 a0)) ->
  simulates names R' (bind m1 k1) (bind m0 k0).
Proof.
  intros Hm Hk s Hs. unfold bind. specialize (Hm s Hs).
  destruct (m0 s) as [a0 s0|e0 s0|], (m1 (set_names names s)) as [a1 s1|e1 s1|];
    simpl in Hm; try done.
  destruct Hm as (Ha & -> & Hs0). by apply Hk.
Qed.

Lemma sim_bind_eq {A B} (R' : B -> B -> Prop) (m : M A) (k1 k0 : A -> M B) :
  simulates names eq m m ->
  (forall a, simulates names R' (k1 a) (k0 a)) ->
  simulates names R' (bind m k1) (bind m k0).
Proof.
  intros Hm Hk. apply (sim_bind eq); [done|]. intros a1 a0 ->. apply Hk.
Qed.

Lemma sim_stream_read n : simulates names eq (stream_read n) (stream_read n).
Proof. intros s Hs. simpl. auto. Qed.

Lemma sim_advance n : simulates names eq (advance n) (advance n).
Proof. intros s Hs. simpl. auto. Qed.

Lemma sim_get_pos : simulates names eq get_pos get_pos.
Proof. intros s Hs. simpl. auto. Qed.

Create HintDb sim discriminated.
#[local] Hint Resolve sim_raise sim_stream_read sim_advance sim_get_pos : sim.
#[local] Hint Extern 1 (simulates _ eq (ret _) (ret _)) =>
  apply sim_ret; reflexivity : sim.

Ltac sim_step :=
  match goal with
  | |- simulates _ _ (bind ?m _) (bind ?m _) => apply sim_bind_eq; [|intros ?]
  | |- simulates _ _ (if ?c then _ else _) (if ?c then _ else _) => destruct c
  | |- _ => solve [auto with sim]
  end.

Lemma sim_read_fixed n : simulates names eq (read_fixed n) (read_fixed n).
Proof. unfold read_fixed. repeat sim_step. Qed.
#[local] Hint Resolve sim_read_fixed : sim.

Lemma sim_read_byte : simulates names eq read_byte read_byte.
Proof. unfold read_byte. repeat sim_step. Qed.
Lemma sim_read_i16 : simulates names eq read_i16 read_i16.
Proof. unfold read_i16. repeat sim_step. Qed.
Lemma sim_read_i32 : simulates names eq read_i32 read_i32.
Proof. unfold read_i32. repeat sim_step. Qed.
Lemma sim_read_i64 : simulates names eq read_i64 read_i64.
Proof. unfold read_i64. repeat sim_step. Qed.
Lemma sim_read_double : simulates names eq read_double read_double.
Proof. unfold read_double. repeat sim_step. Qed.
#[local] Hint Resolve sim_read_byte sim_read_i16 sim_read_i32 sim_read_i64
  sim_read_double : sim.

Lemma sim_read_string : simulates names eq read_string read_string.
Proof. unfold read_string. repeat sim_step. Qed.
#[local] Hint Resolve sim_read_string : sim.

Lemma sim_for_range n body :
  simulates names eq body body ->
  simulates names eq (for_range n body) (for_range n body).
Proof. intros Hb. induction n; simpl; repeat sim_step. Qed.

Lemma sim_skip_struct_loop skip fuel :
  (forall t, simulates names eq (skip t) (skip t)) ->
  simulates names eq (skip_struct_loop skip fuel) (skip_struct_loop skip fuel).
Proof.
  intros Hk. induction fuel as [|fuel IH]; simpl; [by intros s Hs|].
  repeat sim_step.
Qed.

Lemma sim_skip_struct_with skip :
  (forall t, simulates names eq (skip t) (skip t)) ->
  simulates names eq (skip_struct_with skip) (skip_struct_with skip).
Proof.
  intros Hk s Hs. unfold skip_struct_with. simpl stream.
  by apply sim_skip_struct_loop.
Qed.
#[local] Hint Resolve sim_for_range sim_skip_struct_with sim_bind_eq : sim.

Lemma sim_skip_field_n d :
  forall t, simulates names eq (skip_field_n d t) (skip_field_n d t).
Proof.
  induction d as [|d IH]; intros t; simpl; repeat sim_step.
Qed.

#[local] Hint Resolve sim_skip_field_n : sim.

Lemma key_eqb_rekey a b : key_eqb (rekey names a) b = key_eqb a b.
Proof. by destruct a, b. Qed.

Lemma hashable_rekey a : hashable (rekey names a) = hashable a.
Proof. by destruct a. Qed.

Lemma rekey_hashable a : hashable a = true -> rekey names a = a.
Proof. by destruct a. Qed.

Lemma unhashable_error_rekey a :
  unhashable_error (rekey names a) = unhashable_error a.
Proof. by destruct a. Qed.

Lemma dict_set_rekey k v d :
  hashable k = true ->
  dict_set key_eqb k (rekey names v) (rekey_pairs names d)
  = rekey_pairs names (dict_set key_eqb k v d).
Proof.
  intros Hk. induction d as [|[k' v'] r IH]; simpl.
  - by rewrite (rekey_hashable k Hk).
  - rewrite key_eqb_rekey. destruct (key_eqb k' k); simpl; [done|].
    by rewrite IH.
Qed.

Lemma sim_map_set k v d :
  simulates names (fun d1 d0 => d1 = rekey_pairs names d0)
    (map_set (rekey names k) (rekey names v) (rekey_pairs names d)) (map_set k v d).
Proof.
  unfold map_set. rewrite hashable_rekey, unhashable_error_rekey.
  destruct (hashable k) eqn:Hk; [|apply sim_raise].
  apply sim_ret. rewrite (rekey_hashable k Hk). by apply dict_set_rekey.
Qed.

Section Loops.

Variable rd1 rd0 : Z -> M value.
Hypothesis rd_sim :
  forall t, simulates names (renamed names) (rd1 t) (rd0 t).

Lemma sim_list_loop t n : forall acc,
  simulates names (fun l1 l0 => l1 = map (rekey names) l0)
    (list_loop (rd1 t) n (map (rekey names) acc)) (list_loop (rd0 t) n acc).
Proof.
  induction n as [|n IH]; intros acc; simpl.
  - by apply sim_ret.
  - eapply sim_bind; [apply rd_sim|]. intros v1 v0 ->.
    specialize (IH (acc ++ [v0])). by rewrite map_app in IH.
Qed.

Lemma sim_map_loop kt vt n : forall acc,
  simulates names (fun d1 d0 => d1 = rekey_pairs names d0)
    (map_loop (rd1 kt) (rd1 vt) n (rekey_pairs names acc))
    (map_loop (rd0 kt) (rd0 vt) n acc).
Proof.
  induction n as [|n IH]; intros acc; simpl.
  - by apply sim_ret.
  - eapply sim_bind; [apply rd_sim|]. intros k1 k0 ->.
    eapply sim_bind; [apply rd_sim|]. intros v1 v0 ->.
    eapply sim_bind; [apply sim_map_set|]. intros d1 d0 ->. apply IH.
Qed.

Lemma sim_read_list_with :
  simulates names (renamed names) (read_list_with rd1) (read_list_with rd0).
Proof.
  unfold read_list_with. repeat sim_step.
  - by apply sim_ret.
  - eapply sim_bind; [apply (sim_list_loop _ _ [])|].
    intros l1 l0 ->. by apply sim_ret.
Qed.

Lemma sim_read_set_with :
  simulates names (renamed names) (read_set_with rd1) (read_set_with rd0).
Proof.
  unfold read_set_with. repeat sim_step.
  - by apply sim_ret.
  - eapply sim_bind; [apply (sim_list_loop _ _ [])|].
    intros l1 l0 ->. by apply sim_ret.
Qed.

Lemma sim_read_map_with :
  simulates names (renamed names) (read_map_with rd1) (read_map_with rd0).
Proof.
  unfold read_map_with. repeat sim_step.
  - by apply sim_ret.
  - eapply sim_bind; [apply (sim_map_loop _ _ _ [])|].
    intros d1 d0 ->. by apply sim_ret.
Qed.

(** The struct dict: filing a field under the name of its id and filing
    it under the synthetic key of its id hit the same entries. *)
Lemma keyed_struct_set i f fields :
  entry_id f = Some i -> keyed fields ->
  keyed (struct_set (field_key ∅ i) f fields).
Proof.
  intros Hf. unfold keyed, struct_set.
  induction 1 as [|[k' f'] r H1 H2 IH]; simpl.
  - repeat constructor. simpl. by destruct f; simplify_eq/=.
  - destruct (String.eqb_spec k' (field_key ∅ i)) as [->|]; constructor; auto.
    simpl. by destruct f; simplify_eq/=.
Qed.

Lemma struct_set_rekey i f fields :
  entry_id f = Some i -> keyed fields ->
  struct_set (field_key names i) (rekey names f) (rekey_fields names fields)
  = rekey_fields names (struct_set (field_key ∅ i) f fields).
Proof.
  intros Hf. unfold keyed, struct_set.
  assert (Hkey : forall k, rekey_key names k f = field_key names i)
    by (intros k; by destruct f; simplify_eq/=).
  induction 1 as [|[k' f'] r H1 H2 IH]; simpl.
  - by rewrite Hkey.
  - simpl in H1.
    assert (exists i', entry_id f' = Some i' /\ k' = field_key ∅ i'
                       /\ rekey_key names k' f' = field_key names i')
      as (i' & Hf' & -> & ->) by (destruct f'; try done; eauto).
    destruct (String.eqb_spec (field_key ∅ i') (field_key ∅ i)) as [E|E].
    + apply field_key_empty_inj in E as ->.
      rewrite String.eqb_refl. simpl. by rewrite Hkey.
    + destruct (String.eqb_spec (field_key names i') (field_key names i))
        as [E'|E'].
      * apply names_inj in E'. by subst.
      * simpl. rewrite IH. f_equal.
        by destruct f'; simplify_eq/=.
Qed.

Variable skip : Z -> M unit.
Hypothesis skip_sim : forall t, simulates names eq (skip t) (skip t).

Lemma sim_struct_loop fuel : forall fields s,
  field_name_map s = ∅ -> keyed fields ->
  sim names (renamed_fields names)
    (struct_loop rd1 skip fuel (rekey_fields names fields) (set_names names s))
    (struct_loop rd0 skip fuel fields s).
Proof.
  induction fuel as [|fuel IH]; intros fields s Hs Hk; simpl; [done|].
  pose proof (sim_read_byte s Hs) as Hb.
  destruct (read_byte s) as [t s1|e s1|] eqn:E1,
           (read_byte (set_names names s)) as [t' s1'|e' s1'|];
    simpl in Hb; try done.
  2:{ destruct Hb as (-> & -> & Hs1).
      rewrite !struct_header_failed_Return, (read_byte_Raise _ _ _ E1).
      simpl. done. }
  destruct Hb as (-> & -> & Hs1).
  destruct (t =? T_STOP); [simpl; done|].
  pose proof (sim_read_i16 s1 Hs1) as Hi.
  destruct (read_i16 s1) as [i s2|e s2|] eqn:E2,
           (read_i16 (set_names names s1)) as [i' s2'|e' s2'|];
    simpl in Hi; try done.
  2:{ destruct Hi as (-> & -> & Hs2).
      rewrite !struct_header_failed_Return, (read_i16_Raise _ _ _ E2).
      simpl. done. }
  destruct Hi as (-> & -> & Hs2).
  simpl field_name_map. rewrite Hs2.
  pose proof (rd_sim t s2 Hs2) as Hv.
  destruct (rd0 t s2) as [v s3|e s3|],
           (rd1 t (set_names names s2)) as [v' s3'|e' s3'|];
    simpl in Hv; try done.
  - destruct Hv as (-> & -> & Hs3).
    pose proof (struct_set_rekey i (VField (type_name_of t) v i)
                  fields eq_refl Hk) as Hset.
    simpl rekey in Hset. rewrite Hset.
    apply IH; [done|]. by apply keyed_struct_set.
  - destruct Hv as (-> & -> & Hs3).
    pose proof (skip_sim t s3 Hs3) as Hskip.
    pose proof (struct_set_rekey i (VFieldErr (type_name_of t) (exn_str e) i)
                  fields eq_refl Hk) as Hset.
    simpl rekey in Hset.
    destruct (skip t s3) as [u s4|e4 s4|],
             (skip t (set_names names s3)) as [u' s4'|e4' s4'|];
      simpl in Hskip; try done.
    + destruct Hskip as (_ & -> & Hs4). rewrite Hset.
      apply IH; [done|]. by apply keyed_struct_set.
    + destruct Hskip as (_ & -> & Hs4). rewrite Hset. simpl.
      repeat split; [|done]. by apply keyed_struct_set.
Qed.

Lemma sim_read_struct_with d :
  simulates names (renamed names)
    (read_struct_with d rd1 skip) (read_struct_with d rd0 skip).
Proof.
  destruct d as [|d]; [by apply sim_ret|].
  intros s Hs. unfold read_struct_with.
  change (stream (set_names names s)) with (stream s).
  pose proof (sim_struct_loop (S (length (stream s))) [] s Hs
                (List.Forall_nil _)) as H.
  simpl rekey_fields in H.
  destruct (struct_loop rd0 skip (S (length (stream s))) [] s)
    as [f0 s0|e0 s0|],
    (struct_loop rd1 skip (S (length (stream s))) [] (set_names names s))
    as [f1 s1|e1 s1|]; simpl in H; try done.
  destruct H as ((-> & _) & -> & Hs0). simpl. done.
Qed.

(** The dict a struct decode returns has every field under the synthetic
    key of its id when the table is empty. *)
Lemma struct_loop_keyed fuel fields s f0 s0 :
  field_name_map s = ∅ -> keyed fields ->
  struct_loop rd0 skip fuel fields s = Return f0 s0 -> keyed f0.
Proof.
  intros Hs Hk E. pose proof (sim_struct_loop fuel fields s Hs Hk) as H.
  rewrite E in H.
  destruct (struct_loop rd1 skip fuel (rekey_fields names fields)
              (set_names names s)); simpl in H; [|done..].
  by destruct H as ((_ & ?) & _).
Qed.

End Loops.

Lemma sim_read_field_value_n d :
  forall t, simulates names (renamed names)
              (read_field_value_n d t) (read_field_value_n d t).
Proof.
  induction d as [|d IH]; intros t; simpl; [by apply sim_ret|].
  repeat match goal with
  | |- simulates _ _ (if ?c then _ else _) (if ?c then _ else _) => destruct c
  end;
  try (apply sim_bind_eq; [auto with sim|]; intros ?; by apply sim_ret).
  - apply sim_read_struct_with; auto with sim.
  - by apply sim_read_map_with.
  - by apply sim_read_set_with.
  - by apply sim_read_list_with.
  - by apply sim_ret.
Qed.

Lemma sim_read_struct_n d :
  simulates names (renamed names) (read_struct_n d) (read_struct_n d).
Proof.
  apply sim_read_struct_with; auto using sim_read_field_value_n with sim.
Qed.

End Rename.

Lemma rekey_struct_free names : forall v,
  struct_free v = true -> rekey names v = v.
Proof.
  fix IH 1. intros [b|n|x|s|xs|kvs|fs|t x i|t e i]; simpl; try done.
  - intros H. f_equal. induction xs as [|y ys IHl]; simpl in *; [done|].
    apply andb_prop in H as [H1 H2]. f_equal; [by apply IH | by apply IHl].
  - intros H. f_equal. induction kvs as [|[k v] r IHl]; simpl in *; [done|].
    apply andb_prop in H as [[H1 H2]%andb_prop H3].
    f_equal; [|by apply IHl]. f_equal; by apply IH.
  - intros H. f_equal. by apply IH.
Qed.

Lemma keyed_rekey_keys names fs : forall ids,
  keyed fs ->
  map fst fs = map (field_key ∅) ids ->
  map fst (rekey_fields names fs) = map (field_key names) ids.
Proof.
  induction fs as [|[k f] r IH]; intros [|i ids] Hk E; simplify_eq/=; [done|].
  inversion Hk as [|? ? H1 H2]; subst. simpl in H1.
  f_equal; [|by apply IH].
  destruct f; try done; simpl;
    apply field_key_empty_inj in H1; by subst.
Qed.

Lemma exec_names_lookup i :
  exec_names !! i =
  if decide (i = 1) then Some "sessionHandle"
  else if decide (i = 2) then Some "statement"
  else if decide (i = 3) then Some "confOverlay"
  else if decide (i = 7) then Some "runAsync"
  else if decide (i = 8) then Some "queryTimeout"
  else None.
Proof.
  unfold exec_names, spec_field_map, exec_spec. simpl.
  repeat case_decide; subst; try done;
    by repeat (rewrite lookup_insert_ne by done);
       rewrite ?lookup_insert_eq, ?lookup_empty.
Qed.

Lemma field_key_exec i :
  field_key exec_names i =
  if decide (i = 1) then "sessionHandle"
  else if decide (i = 2) then "statement"
  else if decide (i = 3) then "confOverlay"
  else if decide (i = 7) then "runAsync"
  else if decide (i = 8) then "queryTimeout"
  else "field_" +:+ pretty i.
Proof.
  unfold field_key. rewrite exec_names_lookup. by repeat case_decide.
Qed.

Lemma exec_names_inj a b :
  field_key exec_names a = field_key exec_names b -> a = b.
Proof.
  rewrite !field_key_exec.
  repeat case_decide; subst; try done; intros Heq;
    try (unfold String.append in Heq; simpl in Heq; discriminate Heq).
  apply (inj (String.append "field_")) in Heq. by apply (inj pretty) in Heq.
Qed.

Lemma read_struct_keyed max_depth s fs s' :
  0 < max_depth -> field_name_map s = ∅ ->
  read_struct max_depth s = Return (VStruct fs) s' -> keyed fs.
Proof.
  intros Hd Hs E. rewrite (read_struct_resume _ _ Hd) in E.
  unfold struct_resume in E.
  destruct (struct_loop _ _ _ _ _) as [f0 s0|e0 s0|] eqn:El in E; [|done..].
  injection E as -> ->.
  eapply (struct_loop_keyed ∅ field_key_empty_inj);
    [| |exact Hs|apply List.Forall_nil|exact El].
  - intros t. apply sim_read_field_value_n, field_key_empty_inj.
  - intros t. apply sim_skip_field_n, field_key_empty_inj.
Qed.

Lemma message_type_str_call mt : message_type_str mt = "CALL" -> mt = 1.
Proof.
  unfold message_type_str, MESSAGE_TYPE_NAMES. cbn [assoc_get].
  destruct (Z.eqb_spec 1 mt); [done|].
  destruct (Z.eqb_spec 2 mt); [done|].
  destruct (Z.eqb_spec 3 mt); [done|].
  destruct (Z.eqb_spec 4 mt); [done|].
  intros H. unfold String.append in H. simpl in H. discriminate H.
Qed.

Lemma set_message_info_exec s :
  set_message_info (Some exec_types) "ExecuteStatement" 1 s
  = set_names exec_names (set_message_info None "ExecuteStatement" 1 s)
  /\ field_name_map (set_message_info None "ExecuteStatement" 1 s) = ∅.
Proof. split; reflexivity. Qed.

(** C9, as the code has it: for a Call of ExecuteStatement, decoding with
    the registry of the example and decoding with no registry read the same
    bytes and return the same message, except that the registry run files
    every struct field whose id the table names under that name, at the top
    level and inside nested structs alike (and reports that names were
    resolved). Where the run without registry has the keys field_1, field_2,
    field_3, field_7, field_8, the run with it has sessionHandle, statement,
    confOverlay, runAsync, queryTimeout, in the same order; a value in which
    no struct is nested is the same in both runs. *)
Theorem C9_registry_renames_keys (utf8_error_text : list byte -> string)
    (data : list byte) (m0 : message) :
  decode_thrift_message None utf8_error_text data
    = Returned (Some (DMessage m0)) ->
  m_method m0 = "ExecuteStatement" ->
  m_message_type m0 = "CALL" ->
  exists m1,
    decode_thrift_message (Some exec_types) utf8_error_text data
      = Returned (Some (DMessage m1))
    /\ m_fields m1 = rekey exec_names (m_fields m0)
    /\ m_method m1 = m_method m0
    /\ m_message_type m1 = m_message_type m0
    /\ m_sequence_id m1 = m_sequence_id m0
    /\ m_bytes_decoded m1 = m_bytes_decoded m0
    /\ m_total_bytes m1 = m_total_bytes m0
    /\ (map fst (struct_items (m_fields m0))
          = ["field_1"; "field_2"; "field_3"; "field_7"; "field_8"] ->
        map fst (struct_items (m_fields m1))
          = ["sessionHandle"; "statement"; "confOverlay"; "runAsync";
             "queryTimeout"])
    /\ (forall v, struct_free v = true -> rekey exec_names v = v).
Proof.
  intros Hdec Hmeth Htype.
  unfold decode_thrift_message, decode_message, decode_message_body,
    bind in *.
  destruct (length data <? 4)%nat; [done|].
  destruct (read_message_begin utf8_error_text (new_decoder data None))
    as [[[name mt] seq] s1|e s1|]; [|done..].
  simpl in Hdec |- *.
  destruct (read_struct_n_returns 32 (set_message_info None name mt s1))
    as (fs & s2 & E & _).
  change (read_struct_n 32) with (read_struct 32) in E.
  rewrite E in Hdec. injection Hdec as <-. simpl in Hmeth, Htype.
  apply message_type_str_call in Htype. subst name mt.
  destruct (set_message_info_exec s1) as [-> Hs].
  pose proof (sim_read_struct_n exec_names exec_names_inj 32 _ Hs) as Hsim.
  change (read_struct_n 32) with (read_struct 32) in Hsim.
  rewrite E in Hsim.
  destruct (read_struct 32 (set_names exec_names
              (set_message_info None "ExecuteStatement" 1 s1)))
    as [v1 s2'|e s2'|]; simpl in Hsim; [|done..].
  destruct Hsim as (-> & -> & Hs2).
  eexists. split; [reflexivity|]. simpl.
  repeat split.
  - intros Hkeys.
    apply (keyed_rekey_keys exec_names fs [1; 2; 3; 7; 8]); [|exact Hkeys].
    by apply (read_struct_keyed 32 _ _ _ eq_refl Hs E).
  - apply rekey_struct_free.
Qed.

Lemma C9_registry_renames_keys_witness :
  exists m1,
    decode_thrift_message (Some exec_types) (fun _ => "") (bytes_of exec_call)
      = Returned (Some (DMessage m1))
    /\ m_fields m1 = rekey exec_names (m_fields exec_message_plain)
    /\ m_method m1 = m_method exec_message_plain
    /\ m_message_type m1 = m_message_type exec_message_plain
    /\ m_sequence_id m1 = m_sequence_id exec_message_plain
    /\ m_bytes_decoded m1 = m_bytes_decoded exec_message_plain
    /\ m_total_bytes m1 = m_total_bytes exec_message_plain
    /\ (map fst (struct_items (m_fields exec_message_plain))
          = ["field_1"; "field_2"; "field_3"; "field_7"; "field_8"] ->
        map fst (struct_items (m_fields m1))
          = ["sessionHandle"; "statement"; "confOverlay"; "runAsync";
             "queryTimeout"])
    /\ (forall v, struct_free v = true -> rekey exec_names v = v).
Proof.
  apply (C9_registry_renames_keys (fun _ => "") (bytes_of exec_call)
           exec_message_plain).
  - vm_compute. reflexivity.
  - reflexivity.
  - reflexivity.
Defined.

(** C9 as stated fails: for the ExecuteStatement call whose field 1 is a
    struct with a field 1 of its own, the two runs differ not only in the
    keys of the message's field mapping but also in the value of field 1,
    whose nested field is keyed sessionHandle in one run and field_1 in the
    other. *)
Lemma C9_nested_value_counterexample :
  decode_thrift_message (Some exec_types) (fun _ => "") (bytes_of exec_call)
    = Returned (Some (DMessage exec_message_named))
  /\ decode_thrift_message None (fun _ => "") (bytes_of exec_call)
    = Returned (Some (DMessage exec_message_plain))
  /\ map snd (struct_items (m_fields exec_message_named))
     <> map snd (struct_items (m_fields exec_message_plain)).
Proof.
  split; [|split].
  - vm_compute. reflexivity.
  - vm_compute. reflexivity.
  - discriminate.
Qed.

(** * Further properties *)

(** ** The cursor never counts more than it took *)

Lemma steady_step_refl s : steady_step s s.
Proof. unfold steady_step. repeat split; lia. Qed.

Lemma steady_step_trans s1 s2 s3 :
  steady_step s1 s2 -> steady_step s2 s3 -> steady_step s1 s3.
Proof.
  unfold steady_step. intros (? & ? & ? & ?) (? & ? & ? & ?).
  repeat split; try congruence; lia.
Qed.

Lemma cursor_ok_step s s' : cursor_ok s -> steady_step s s' -> cursor_ok s'.
Proof. unfold cursor_ok, steady_step. intros [? ?] (? & ? & ? & ?). lia. Qed.

Lemma steady_ret {A} (a : A) : steady (ret a).
Proof. intros s. apply steady_step_refl. Qed.

Lemma steady_raise {A} (e : py_exn) : steady (@raise A e).
Proof. intros s. apply steady_step_refl. Qed.

Lemma steady_get_pos : steady get_pos.
Proof. intros s. apply steady_step_refl. Qed.

Lemma steady_bind {A B} (m : M A) (k : A -> M B) :
  steady m -> (forall a, steady (k a)) -> steady (bind m k).
Proof.
  intros Hm Hk s. unfold bind. specialize (Hm s).
  destruct (m s) as [a s1|e s1|]; [|done..].
  specialize (Hk a s1). destruct (k a s1); [|  |done];
    eauto using steady_step_trans.
Qed.

(** Taking [n] bytes and counting them, the pattern of every read. *)
Lemma steady_take {A} (n : nat) (z : Z) (short : M A) (k : list byte -> M A) :
  z = Z.of_nat n -> steady short -> (forall d, steady (k d)) ->
  steady (let* data := stream_read n in
          if (length data <? n)%nat then short
          else let* _ := advance z in k data).
Proof.
  intros -> Hshort Hk s. unfold bind, stream_read, advance.
  rewrite length_take.
  destruct (Nat.ltb_spec (n `min` length (stream s)) n) as [Hlt|Hge].
  - specialize (Hshort (set_stream (drop n (stream s)) s)).
    destruct (short _) as [a s'|e s'|]; [| |done];
      (eapply steady_step_trans; [|exact Hshort]);
      unfold steady_step; simpl; rewrite length_drop; repeat split; lia.
  - specialize (Hk (take n (stream s))
                   (add_pos (Z.of_nat n) (set_stream (drop n (stream s)) s))).
    destruct (k _ _) as [a s'|e s'|]; [| |done];
      (eapply steady_step_trans; [|exact Hk]);
      unfold steady_step; simpl; rewrite length_drop; repeat split; lia.
Qed.

Create HintDb steady discriminated.
#[local] Hint Resolve steady_ret steady_raise steady_get_pos steady_bind
  : steady.

Ltac steady_step_tac :=
  match goal with
  | |- steady (bind _ _) => apply steady_bind; [|intros ?]
  | |- steady (if ?c then _ else _) => destruct c
  | |- _ => solve [auto with steady]
  end.

Lemma steady_read_fixed n : steady (read_fixed n).
Proof.
  unfold read_fixed. apply steady_take; [done|auto with steady..].
Qed.
#[local] Hint Resolve steady_read_fixed : steady.

Lemma steady_read_byte : steady read_byte.
Proof. unfold read_byte. repeat steady_step_tac. Qed.
Lemma steady_read_i16 : steady read_i16.
Proof. unfold read_i16. repeat steady_step_tac. Qed.
Lemma steady_read_i32 : steady read_i32.
Proof. unfold read_i32. repeat steady_step_tac. Qed.
Lemma steady_read_i64 : steady read_i64.
Proof. unfold read_i64. repeat steady_step_tac. Qed.
Lemma steady_read_double : steady read_double.
Proof. unfold read_double. repeat steady_step_tac. Qed.
#[local] Hint Resolve steady_read_byte steady_read_i16 steady_read_i32
  steady_read_i64 steady_read_double : steady.

Lemma steady_read_string : steady read_string.
Proof.
  unfold read_string. apply steady_bind; [auto with steady|]. intros len.
  destruct (Z.ltb_spec len 0); [auto with steady|].
  destruct (len >? 10 * 1024 * 1024); [auto with steady|].
  apply steady_take; [lia|auto with steady|]. intros d.
  repeat steady_step_tac.
Qed.
#[local] Hint Resolve steady_read_string : steady.

Lemma steady_for_range n body : steady body -> steady (for_range n body).
Proof. intros Hb. induction n; simpl; repeat steady_step_tac. Qed.

Lemma steady_map_set k v d : steady (map_set k v d).
Proof. unfold map_set. repeat steady_step_tac. Qed.
#[local] Hint Resolve steady_for_range steady_map_set : steady.

Lemma steady_list_loop rd n result :
  steady rd -> steady (list_loop rd n result).
Proof.
  intros Hr. revert result. induction n; intros; simpl; repeat steady_step_tac.
Qed.

Lemma steady_map_loop rdk rdv n result :
  steady rdk -> steady rdv -> steady (map_loop rdk rdv n result).
Proof.
  intros Hk Hv. revert result.
  induction n; intros; simpl; repeat steady_step_tac.
Qed.
#[local] Hint Resolve steady_list_loop steady_map_loop : steady.

Lemma steady_skip_struct_loop skip fuel :
  (forall t, steady (skip t)) -> steady (skip_struct_loop skip fuel).
Proof.
  intros Hk. induction fuel as [|fuel IH]; simpl; [by intros s|].
  repeat steady_step_tac.
Qed.

Lemma steady_skip_struct_with skip :
  (forall t, steady (skip t)) -> steady (skip_struct_with skip).
Proof.
  intros Hk s. unfold skip_struct_with. by apply steady_skip_struct_loop.
Qed.
#[local] Hint Resolve steady_skip_struct_with : steady.

Lemma steady_skip_field_n d : forall t, steady (skip_field_n d t).
Proof.
  induction d as [|d IH]; intros t; simpl; repeat steady_step_tac.
Qed.
#[local] Hint Resolve steady_skip_field_n : steady.

Section SteadyStruct.

Variable rfv : Z -> M value.
Variable skip : Z -> M unit.
Hypothesis rfv_steady : forall t, steady (rfv t).
Hypothesis skip_steady : forall t, steady (skip t).

(** The loop of [read_struct]: it never raises, the cursor stays sound,
    and every item it files is a field record under the key of its id. *)
Lemma struct_loop_steady fuel : forall fields s,
  Forall (field_entry (field_name_map s)) fields ->
  match struct_loop rfv skip fuel fields s with
  | Return fs s' =>
    steady_step s s' /\ Forall (field_entry (field_name_map s)) fs
  | Raise _ _ => False
  | OutOfFuel => True
  end.
Proof.
  induction fuel as [|fuel IH]; intros fields s Hf; simpl; [done|].
  pose proof (steady_read_byte s) as Hb.
  destruct (read_byte s) as [t s1|e s1|] eqn:E1; [| |done].
  2:{ rewrite struct_header_failed_Return, (read_byte_Raise _ _ _ E1). done. }
  destruct (t =? T_STOP); [done|].
  pose proof (steady_read_i16 s1) as Hi.
  destruct (read_i16 s1) as [i s2|e s2|] eqn:E2; [| |done].
  2:{ rewrite struct_header_failed_Return, (read_i16_Raise _ _ _ E2).
      eauto using steady_step_trans. }
  assert (H2 : steady_step s s2) by eauto using steady_step_trans.
  assert (Hn2 : field_name_map s2 = field_name_map s) by apply H2.
  assert (Hset : forall f, entry_id f = Some i ->
            Forall (field_entry (field_name_map s))
              (struct_set (field_key (field_name_map s2) i) f fields)).
  { intros f Hid. rewrite Hn2. unfold struct_set. clear -Hf Hid.
    induction Hf as [|[k' f'] r H1 H2 IHf]; simpl.
    - repeat constructor. unfold field_entry. simpl.
      by destruct f; simplify_eq/=.
    - destruct (String.eqb_spec k' (field_key (field_name_map s) i))
        as [->|]; constructor; auto.
      unfold field_entry. simpl. by destruct f; simplify_eq/=. }
  pose proof (rfv_steady t s2) as Hv.
  destruct (rfv t s2) as [v s3|e s3|]; [| |done].
  - assert (H3 : steady_step s s3) by eauto using steady_step_trans.
    specialize (IH (struct_set (field_key (field_name_map s2) i)
                      (VField (type_name_of t) v i) fields) s3).
    replace (field_name_map s3) with (field_name_map s) in IH
      by (symmetry; apply H3).
    specialize (IH (Hset (VField (type_name_of t) v i) eq_refl)).
    destruct (struct_loop rfv skip fuel _ s3); [|done..].
    destruct IH. eauto using steady_step_trans.
  - assert (H3 : steady_step s s3) by eauto using steady_step_trans.
    pose proof (skip_steady t s3) as Hk.
    destruct (skip t s3) as [u s4|e' s4|]; [| |done].
    + assert (H4 : steady_step s s4) by eauto using steady_step_trans.
      specialize (IH (struct_set (field_key (field_name_map s2) i)
                        (VFieldErr (type_name_of t) (exn_str e) i) fields) s4).
      replace (field_name_map s4) with (field_name_map s) in IH
        by (symmetry; apply H4).
      specialize
        (IH (Hset (VFieldErr (type_name_of t) (exn_str e) i) eq_refl)).
      destruct (struct_loop rfv skip fuel _ s4); [|done..].
      destruct IH. eauto using steady_step_trans.
    + split; [eauto using steady_step_trans | by apply Hset].
Qed.

Lemma steady_read_struct_with d : steady (read_struct_with d rfv skip).
Proof.
  destruct d as [|d]; [simpl; auto with steady|]. intros s.
  unfold read_struct_with.
  pose proof (struct_loop_steady (S (length (stream s))) [] s
                (List.Forall_nil _)) as H.
  destruct (struct_loop _ _ _ _ _); [|done..]. by destruct H.
Qed.

End SteadyStruct.
#[local] Hint Resolve steady_read_struct_with : steady.

Lemma steady_read_map_with rfv :
  (forall t, steady (rfv t)) -> steady (read_map_with rfv).
Proof. intros H. unfold read_map_with. repeat steady_step_tac. Qed.

Lemma steady_read_set_with rfv :
  (forall t, steady (rfv t)) -> steady (read_set_with rfv).
Proof. intros H. unfold read_set_with. repeat steady_step_tac. Qed.

Lemma steady_read_list_with rfv :
  (forall t, steady (rfv t)) -> steady (read_list_with rfv).
Proof. intros H. unfold read_list_with. repeat steady_step_tac. Qed.
#[local] Hint Resolve steady_read_map_with steady_read_set_with
  steady_read_list_with : steady.

Lemma steady_read_field_value_n d : forall t, steady (read_field_value_n d t).
Proof.
  induction d as [|d IH]; intros t; simpl; repeat steady_step_tac.
Qed.
#[local] Hint Resolve steady_read_field_value_n : steady.

Lemma steady_read_message_begin txt : steady (read_message_begin txt).
Proof.
  unfold read_message_begin.
  apply steady_bind; [auto with steady|]. intros size.
  apply steady_bind; [|intros ?; repeat steady_step_tac].
  destruct (Z.ltb_spec size 0); [repeat steady_step_tac|].
  apply steady_take; [lia|auto with steady|]. intros d.
  repeat steady_step_tac.
Qed.

Lemma cursor_ok_new data name : cursor_ok (new_decoder data name).
Proof. unfold cursor_ok. simpl. lia. Qed.

(** X1: in every dict that [decode_thrift_message] returns, the count of
    decoded bytes lies between 0 and the total, and the total is the length
    of the input; this holds for the message dict and for the error dict of
    a failed envelope alike. *)
Theorem X1_bytes_decoded_within_total (thrift_types : option thrift_module)
    (utf8_error_text : list byte -> string) (data : list byte) (d : decoded) :
  decode_thrift_message thrift_types utf8_error_text data
    = Returned (Some d) ->
  match d with
  | DMessage m =>
    0 <= m_bytes_decoded m <= m_total_bytes m
    /\ m_total_bytes m = Z.of_nat (length data)
  | DError _ _ (Some (decoded_bytes, total_bytes)) =>
    0 <= decoded_bytes <= total_bytes
    /\ total_bytes = Z.of_nat (length data)
  | DError _ _ None => False
  end.
Proof.
  unfold decode_thrift_message, decode_message, decode_message_body, bind.
  destruct (length data <? 4)%nat; [done|].
  pose proof (steady_read_message_begin utf8_error_text
                (new_decoder data None)) as Hh.
  pose proof (cursor_ok_new data None) as H0.
  destruct (read_message_begin utf8_error_text (new_decoder data None))
    as [[[name mt] seq] s1|e s1|]; [| |done].
  - simpl.
    pose proof (steady_read_struct_with (read_field_value_n 32)
                  (skip_field_n 32) (steady_read_field_value_n 32)
                  (steady_skip_field_n 32) 32
                  (set_message_info thrift_types name mt s1)) as Hs.
    change (read_struct_with 32 (read_field_value_n 32) (skip_field_n 32))
      with (read_struct 32) in Hs.
    destruct (read_struct 32 (set_message_info thrift_types name mt s1))
      as [fs s2|e s2|].
    + intros [= <-]. simpl.
      destruct Hh as (Hl1 & _ & Hp1 & Hc1), Hs as (Hl2 & _ & Hp2 & Hc2),
        H0 as [Hz Hb]. simpl in *. lia.
    + intros [= <-].
      destruct Hh as (Hl1 & _ & Hp1 & Hc1), Hs as (Hl2 & _ & Hp2 & Hc2),
        H0 as [Hz Hb]. simpl in *. lia.
    + done.
  - intros [= <-].
    destruct Hh as (Hl1 & _ & Hp1 & Hc1), H0 as [Hz Hb]. simpl in *. lia.
Qed.

Lemma X1_bytes_decoded_within_total_witness :
  0 <= m_bytes_decoded exec_message_plain <= m_total_bytes exec_message_plain
  /\ m_total_bytes exec_message_plain = Z.of_nat (length (bytes_of exec_call)).
Proof.
  apply (X1_bytes_decoded_within_total None (fun _ => "") (bytes_of exec_call)
           (DMessage exec_message_plain)).
  vm_compute. reflexivity.
Defined.

(** X2: at a positive depth [read_struct] returns a dict for every input,
    it never raises; every item of the dict is a field record (with its
    value or with its error text) filed under the key that the current
    id-to-name table gives to the record's field id, so no ["_parse_error"]
    item is ever written; and the id-to-name table, the buffer length and
    the soundness of the cursor are as before the call. *)
Theorem X2_read_struct_returns_field_records (max_depth : Z) (s : decoder) :
  0 < max_depth ->
  exists fs s',
    read_struct max_depth s = Return (VStruct fs) s'
    /\ Forall (field_entry (field_name_map s)) fs
    /\ steady_step s s'.
Proof.
  intros Hd. rewrite (read_struct_resume _ _ Hd).
  destruct (struct_resume_returns max_depth [] s) as (fs & s' & E & _).
  rewrite E. exists fs, s'. split; [done|].
  unfold struct_resume in E.
  pose proof (struct_loop_steady (fun t => read_field_value t max_depth)
                (fun t => skip_field t max_depth)
                (fun t => steady_read_field_value_n _ t)
                (fun t => steady_skip_field_n _ t)
                (S (length (stream s))) [] s (List.Forall_nil _)) as H.
  rewrite E in H. by destruct H.
Qed.

Lemma X2_read_struct_returns_field_records_witness :
  exists fs s',
    read_struct 32 (decoder_of bad_string_then_i32) = Return (VStruct fs) s'
    /\ Forall (field_entry (field_name_map (decoder_of bad_string_then_i32))) fs
    /\ steady_step (decoder_of bad_string_then_i32) s'.
Proof.
  apply (X2_read_struct_returns_field_records 32
           (decoder_of bad_string_then_i32)). lia.
Defined.

(** ** The output is bounded *)

Lemma reads_in_order_Forall (P : value -> Prop) rd s vs s' :
  (forall s v s', rd s = Return v s' -> P v) ->
  reads_in_order rd s vs s' -> Forall P vs.
Proof. intros Hrd. induction 1; constructor; eauto. Qed.

Lemma pairs_in_order_Forall (P : value -> Prop) rdk rdv s kvs s' :
  (forall s v s', rdk s = Return v s' -> P v) ->
  (forall s v s', rdv s = Return v s' -> P v) ->
  pairs_in_order rdk rdv s kvs s' ->
  Forall (fun kv : value * value => P kv.1 /\ P kv.2) kvs.
Proof. intros Hk Hv. induction 1; constructor; eauto. Qed.

Lemma dict_set_Forall (P : value -> Prop) k v (d : list (value * value)) :
  P k -> P v ->
  Forall (fun kv : value * value => P kv.1 /\ P kv.2) d ->
  Forall (fun kv : value * value => P kv.1 /\ P kv.2)
         (dict_set key_eqb k v d).
Proof.
  intros Hk Hv. induction 1 as [|[k' v'] r [H1 H2] Hr IH]; simpl.
  - by repeat constructor.
  - destruct (key_eqb k' k); constructor; auto.
Qed.

Lemma dict_set_length {K V} (eqb : K -> K -> bool) k v (d : list (K * V)) :
  (length (dict_set eqb k v d) <= S (length d))%nat.
Proof.
  induction d as [|[k' v'] r IH]; simpl; [lia|].
  destruct (eqb k' k); simpl; lia.
Qed.

Lemma dict_of_pairs_bounded (P : value -> Prop) pairs : forall acc,
  Forall (fun kv : value * value => P kv.1 /\ P kv.2) pairs ->
  Forall (fun kv : value * value => P kv.1 /\ P kv.2) acc ->
  let out := fold_left (fun d kv => dict_set key_eqb kv.1 kv.2 d) pairs acc in
  Forall (fun kv : value * value => P kv.1 /\ P kv.2) out
  /\ (length out <= length acc + length pairs)%nat.
Proof.
  induction pairs as [|[k v] pairs IH]; intros acc Hp Ha; simpl.
  - split; [done | lia].
  - inversion Hp as [|? ? [Hk Hv] Hr]; subst. simpl in *.
    destruct (IH (dict_set key_eqb k v acc) Hr
                (dict_set_Forall P k v acc Hk Hv Ha)) as [H1 H2].
    split; [done|]. pose proof (dict_set_length key_eqb k v acc). lia.
Qed.

Lemma forallb_Forall_bounded (xs : list value) m :
  Forall (fun x => bounded x m = true) xs ->
  forallb (fun x => bounded x m) xs = true.
Proof. induction 1; simpl; [done|]. by rewrite H, IHForall. Qed.

Section BoundedLoops.

Variable d : nat.
Variable rfv : Z -> M value.
Hypothesis rfv_bounded :
  forall t s v s', rfv t s = Return v s' -> bounded v d = true.

Lemma read_list_with_bounded s v s' :
  read_list_with rfv s = Return v s' -> bounded v (S d) = true.
Proof.
  unfold read_list_with, bind.
  destruct (read_byte s) as [et s0|e s0|]; [|done..].
  destruct (read_i32 s0) as [size s1|e s1|]; [|done..].
  destruct (Z.gtb_spec size 10000) as [Hbig|Hsmall].
  - by intros [= <- <-].
  - destruct (list_loop (rfv et) (Z.to_nat size) [] s1)
      as [r s2|e s2|] eqn:E; [|done..].
    intros [= <- <-].
    apply list_loop_spec in E as (vs & -> & Hl & Hr). simpl.
    apply andb_true_intro. split; [apply Z.leb_le; lia|].
    apply forallb_Forall_bounded.
    eapply reads_in_order_Forall; [|exact Hr]. intros; eauto.
Qed.

Lemma read_set_with_bounded s v s' :
  read_set_with rfv s = Return v s' -> bounded v (S d) = true.
Proof.
  unfold read_set_with, bind.
  destruct (read_byte s) as [et s0|e s0|]; [|done..].
  destruct (read_i32 s0) as [size s1|e s1|]; [|done..].
  destruct (Z.gtb_spec size 10000) as [Hbig|Hsmall].
  - by intros [= <- <-].
  - destruct (list_loop (rfv et) (Z.to_nat size) [] s1)
      as [r s2|e s2|] eqn:E; [|done..].
    intros [= <- <-].
    apply list_loop_spec in E as (vs & -> & Hl & Hr). simpl.
    apply andb_true_intro. split; [apply Z.leb_le; lia|].
    apply forallb_Forall_bounded.
    eapply reads_in_order_Forall; [|exact Hr]. intros; eauto.
Qed.

Lemma read_map_with_bounded s v s' :
  read_map_with rfv s = Return v s' -> bounded v (S d) = true.
Proof.
  unfold read_map_with, bind.
  destruct (read_byte s) as [kt s0|e s0|]; [|done..].
  destruct (read_byte s0) as [vt s0'|e s0'|]; [|done..].
  destruct (read_i32 s0') as [size s1|e s1|]; [|done..].
  destruct (Z.gtb_spec size 10000) as [Hbig|Hsmall].
  - by intros [= <- <-].
  - destruct (map_loop (rfv kt) (rfv vt) (Z.to_nat size) [] s1)
      as [r s2|e s2|] eqn:E; [|done..].
    intros [= <- <-].
    apply map_loop_spec in E as (pairs & Hl & Hr & _ & ->).
    destruct (dict_of_pairs_bounded (fun x => bounded x d = true) pairs [])
      as [H1 H2]; [|constructor|].
    { apply (pairs_in_order_Forall (fun x => bounded x d = true)
               (rfv kt) (rfv vt) s1 pairs s2); [| |exact Hr]; intros; eauto. }
    simpl in *. apply andb_true_intro. split; [apply Z.leb_le; lia|].
    clear -H1. induction H1 as [|[k v] r [Hk Hv] Hr IH]; simpl; [done|].
    simpl in *. by rewrite Hk, Hv, IH.
Qed.

Variable skip : Z -> M unit.

Lemma struct_loop_bounded fuel : forall fields s fs s',
  Forall (fun kf : string * value => bounded kf.2 d = true) fields ->
  struct_loop rfv skip fuel fields s = Return fs s' ->
  Forall (fun kf : string * value => bounded kf.2 d = true) fs.
Proof.
  assert (Hset : forall k f (fields : list (string * value)),
            bounded f d = true ->
            Forall (fun kf : string * value => bounded kf.2 d = true) fields ->
            Forall (fun kf : string * value => bounded kf.2 d = true)
                   (struct_set k f fields)).
  { intros k f fields Hf. unfold struct_set.
    induction 1 as [|[k' f'] r H1 H2 IH]; simpl; [by repeat constructor|].
    destruct (String.eqb k' k); constructor; auto. }
  induction fuel as [|fuel IH]; intros fields s fs s' Hf; simpl; [done|].
  destruct (read_byte s) as [t s1|e s1|]; [| |done].
  2:{ rewrite struct_header_failed_Return. intros [= <- <-].
      destruct (is_EOFError e); [done|]. by apply Hset. }
  destruct (t =? T_STOP); [by intros [= <- <-]|].
  destruct (read_i16 s1) as [i s2|e s2|]; [| |done].
  2:{ rewrite struct_header_failed_Return. intros [= <- <-].
      destruct (is_EOFError e); [done|]. by apply Hset. }
  destruct (rfv t s2) as [v s3|e s3|] eqn:Ev; [| |done].
  - apply IH, Hset; [|done]. simpl. eauto.
  - destruct (skip t s3) as [u s4|e' s4|]; [| |done].
    + apply IH, Hset; done.
    + intros [= <- <-]. by apply Hset.
Qed.

Lemma read_struct_with_bounded n s v s' :
  read_struct_with n rfv skip s = Return v s' -> bounded v (S d) = true.
Proof.
  destruct n as [|n]; [simpl; by intros [= <- <-]|].
  unfold read_struct_with.
  destruct (struct_loop rfv skip (S (length (stream s))) [] s)
    as [fs s2|e s2|] eqn:E; [|done..].
  intros [= <- <-].
  apply struct_loop_bounded in E; [|constructor].
  simpl. clear -E. induction E as [|[k f] r H1 H2 IH]; simpl; [done|].
  simpl in H1. by rewrite H1, IH.
Qed.

End BoundedLoops.

Lemma read_field_value_n_bounded d : forall t s v s',
  read_field_value_n d t s = Return v s' -> bounded v d = true.
Proof.
  induction d as [|d IH]; intros t s v s'; simpl; [by intros [= <- <-]|].
  repeat match goal with
  | |- context [if ?c then _ else _] => destruct c
  end;
  try (unfold bind;
       match goal with
       | |- context [match ?m s with _ => _ end] => destruct (m s)
       end; [|done..]; by intros [= <- <-]).
  - by apply read_struct_with_bounded.
  - by apply read_map_with_bounded.
  - by apply read_set_with_bounded.
  - by apply read_list_with_bounded.
  - by intros [= <- <-].
Qed.

(** X3: a value that [read_field_value] returns at depth [max_depth] has
    containers (structs, maps, sets, lists) nested at most [max_depth] deep,
    and none of its maps, sets and lists has more than 10 000 entries; the
    dict of [read_struct] is one level deeper at most. *)
Theorem X3_decoded_value_bounded (max_depth : Z) (s s' : decoder) (v : value) :
  (forall field_type,
     read_field_value field_type max_depth s = Return v s' ->
     bounded v (Z.to_nat max_depth) = true)
  /\ (read_struct max_depth s = Return v s' ->
      bounded v (S (Z.to_nat max_depth)) = true).
Proof.
  split.
  - intros t. apply read_field_value_n_bounded.
  - apply read_struct_with_bounded. apply read_field_value_n_bounded.
Qed.

Lemma X3_decoded_value_bounded_witness :
  bounded exec_fields_plain 33 = true.
Proof.
  refine (proj2 (X3_decoded_value_bounded 32 (cursor_at exec_call 28 28)
                   (cursor_at exec_call 74 74) exec_fields_plain) _).
  vm_compute. reflexivity.
Defined.

(** ** Skipping and reading *)

Lemma is_scalar_tag_cases t :
  is_scalar_tag t = true ->
  t = T_BOOL \/ t = T_BYTE \/ t = T_I16 \/ t = T_I32 \/ t = T_I64
  \/ t = T_DOUBLE \/ t = T_STRING.
Proof.
  unfold is_scalar_tag. rewrite !orb_true_iff, !Z.eqb_eq. tauto.
Qed.

(** X4: for the scalar type tags (bool, byte, i16, i32, i64, double,
    string) and a positive depth, skipping a value is reading it and
    dropping the result: the same bytes are consumed, [pos] moves the same
    way and the same exception is raised on the same inputs. *)
Theorem X4_skip_is_read_on_scalars (field_type max_depth : Z) (s : decoder) :
  is_scalar_tag field_type = true ->
  0 < max_depth ->
  skip_field field_type max_depth s
  = discard (read_field_value field_type max_depth) s.
Proof.
  intros Ht Hd. unfold skip_field, read_field_value, discard.
  rewrite (depth_pred _ Hd).
  destruct (is_scalar_tag_cases _ Ht) as [->|[->|[->|[->|[->|[->| ->]]]]]];
    simpl; unfold bind.
  - by destruct (read_byte s).
  - by destruct (read_byte s).
  - by destruct (read_i16 s).
  - by destruct (read_i32 s).
  - by destruct (read_i64 s).
  - by destruct (read_double s).
  - by destruct (read_string s).
Qed.

Lemma X4_skip_is_read_on_scalars_witness :
  skip_field T_STRING 32 (decoder_of [0; 0; 0; 9; 255; 105; 7])
  = discard (read_field_value T_STRING 32)
      (decoder_of [0; 0; 0; 9; 255; 105; 7]).
Proof.
  apply X4_skip_is_read_on_scalars; [reflexivity | lia].
Defined.

(** X5: for a type tag that is none of the handled ones and a positive
    depth, [read_field_value] returns the text that names the tag and
    [skip_field] returns, and neither takes a byte or moves [pos]: the
    bytes of such a value are left to whatever is read next. *)
Theorem X5_unknown_tag_consumes_nothing (field_type max_depth : Z)
    (s : decoder) :
  is_known_tag field_type = false ->
  0 < max_depth ->
  read_field_value field_type max_depth s
  = Return (VStr ("<unknown_type:" +:+ pretty field_type +:+ ">")) s
  /\ skip_field field_type max_depth s = Return tt s.
Proof.
  intros Ht Hd. unfold skip_field, read_field_value.
  rewrite (depth_pred _ Hd).
  unfold is_known_tag, is_scalar_tag in Ht.
  repeat (apply orb_false_elim in Ht as [Ht ?]).
  simpl. by repeat match goal with H : (_ =? _) = false |- _ =>
                     rewrite H; clear H end.
Qed.

Lemma X5_unknown_tag_consumes_nothing_witness :
  read_field_value T_VOID 32 (decoder_of [1; 2; 3])
  = Return (VStr "<unknown_type:1>") (decoder_of [1; 2; 3])
  /\ skip_field T_VOID 32 (decoder_of [1; 2; 3])
     = Return tt (decoder_of [1; 2; 3]).
Proof.
  apply (X5_unknown_tag_consumes_nothing T_VOID 32 (decoder_of [1; 2; 3]));
    [reflexivity | lia].
Defined.

(** X6: a list, set or map whose declared count is zero or negative
    decodes to the empty list or dict, with the cursor right after the
    count: a negative count is not an error. *)
Theorem X6_nonpositive_count_is_empty (max_depth : Z) (s s0 s1 : decoder)
    (elem_type size : Z) :
  read_byte s = Return elem_type s0 ->
  size <= 0 ->
  (read_i32 s0 = Return size s1 ->
   _read_list max_depth s = Return (VList []) s1
   /\ _read_set max_depth s = Return (VList []) s1)
  /\ (forall val_type s0',
        read_byte s0 = Return val_type s0' ->
        read_i32 s0' = Return size s1 ->
        _read_map max_depth s = Return (VDict []) s1).
Proof.
  intros E1 Hs. split.
  - intros E2. unfold _read_list, _read_set, read_list_with, read_set_with.
    rewrite !(bind_Return _ _ _ _ _ E1), !(bind_Return _ _ _ _ _ E2).
    destruct (Z.gtb_spec size 10000); [lia|].
    replace (Z.to_nat size) with O by lia. done.
  - intros vt s0' E2 E3. unfold _read_map, read_map_with.
    rewrite (bind_Return _ _ _ _ _ E1), (bind_Return _ _ _ _ _ E2),
      (bind_Return _ _ _ _ _ E3).
    destruct (Z.gtb_spec size 10000); [lia|].
    replace (Z.to_nat size) with O by lia. done.
Qed.

Lemma X6_nonpositive_count_is_empty_witness :
  _read_list 31 (decoder_of [8; 255; 255; 255; 255; 7])
  = Return (VList []) (cursor_at [8; 255; 255; 255; 255; 7] 5 5).
Proof.
  refine (proj1 (proj1 (X6_nonpositive_count_is_empty 31
            (decoder_of [8; 255; 255; 255; 255; 7])
            (cursor_at [8; 255; 255; 255; 255; 7] 1 1)
            (cursor_at [8; 255; 255; 255; 255; 7] 5 5) 8 (-1) _ _) _)).
  - reflexivity.
  - lia.
  - reflexivity.
Defined.

Lemma list_loop_constant (v : value) n : forall acc s,
  list_loop (ret v) n acc s = Return (acc ++ repeat v n) s.
Proof.
  induction n as [|n IH]; intros acc s; simpl.
  - by rewrite app_nil_r.
  - unfold bind at 1. unfold ret at 1. rewrite IH.
    by rewrite <- app_assoc.
Qed.

(** X16: at the last level of depth a read and a skip part ways. A list or
    set decoded with depth 1 whose count is between 1 and 10 000 reads as
    that many copies of the text ["<max_depth_exceeded>"], with the cursor
    right after the count and no element consumed; the skip of the same
    bytes raises the [ValueError] of the exhausted depth, with the cursor
    at the same place. *)
Theorem X16_last_level_collections (s s0 s1 : decoder)
    (field_type elem_type size : Z) :
  field_type = T_SET \/ field_type = T_LIST ->
  read_byte s = Return elem_type s0 ->
  read_i32 s0 = Return size s1 ->
  0 < size <= 10000 ->
  read_field_value field_type 1 s
  = Return (VList (repeat (VStr "<max_depth_exceeded>") (Z.to_nat size))) s1
  /\ skip_field field_type 1 s
     = Raise (ValueError
                "Maximum recursion depth exceeded while skipping field") s1.
Proof.
  intros Ht E1 E2 Hsize.
  assert (Hbig : (size >? 10000) = false) by lia.
  destruct (Z.to_nat size) as [|n] eqn:En; [lia|].
  unfold read_field_value, skip_field.
  destruct Ht as [-> | ->]; simpl;
    unfold read_set_with, read_list_with;
    rewrite !(bind_Return _ _ _ _ _ E1), !(bind_Return _ _ _ _ _ E2),
      Hbig, En.
  - split; [|reflexivity].
    unfold bind. change (read_field_value_n 0 elem_type)
      with (@ret value (VStr "<max_depth_exceeded>")).
    by rewrite list_loop_constant.
  - split; [|reflexivity].
    unfold bind. change (read_field_value_n 0 elem_type)
      with (@ret value (VStr "<max_depth_exceeded>")).
    by rewrite list_loop_constant.
Qed.

Lemma X16_last_level_collections_witness :
  read_field_value T_LIST 1 (decoder_of [8; 0; 0; 0; 2; 0; 0; 0; 5])
  = Return (VList (repeat (VStr "<max_depth_exceeded>") (Z.to_nat 2)))
           (cursor_at [8; 0; 0; 0; 2; 0; 0; 0; 5] 5 5)
  /\ skip_field T_LIST 1 (decoder_of [8; 0; 0; 0; 2; 0; 0; 0; 5])
     = Raise (ValueError
                "Maximum recursion depth exceeded while skipping field")
             (cursor_at [8; 0; 0; 0; 2; 0; 0; 0; 5] 5 5).
Proof.
  apply (X16_last_level_collections _
           (cursor_at [8; 0; 0; 0; 2; 0; 0; 0; 5] 1 1) _ T_LIST 8 2).
  - right. reflexivity.
  - reflexivity.
  - reflexivity.
  - lia.
Defined.

(** ** The integer reads *)

Lemma be_unsigned_acc bs : forall acc,
  fold_left (fun a b => a * 256 + Z.of_N (Byte.to_N b)) bs acc
  = acc * 256 ^ Z.of_nat (length bs) + be_unsigned bs.
Proof.
  unfold be_unsigned.
  induction bs as [|b bs IH]; intros acc; simpl fold_left.
  - simpl. lia.
  - rewrite IH, (IH (0 * 256 + _)).
    replace (Z.of_nat (length (b :: bs))) with (1 + Z.of_nat (length bs))
      by (simpl; lia).
    rewrite Z.pow_add_r by lia. lia.
Qed.

Lemma be_unsigned_bound bs :
  0 <= be_unsigned bs < 256 ^ Z.of_nat (length bs).
Proof.
  induction bs as [|b bs IH].
  - unfold be_unsigned. simpl. lia.
  - unfold be_unsigned. simpl fold_left. rewrite be_unsigned_acc.
    replace (Z.of_nat (length (b :: bs))) with (1 + Z.of_nat (length bs))
      by (simpl; lia).
    rewrite Z.pow_add_r by lia.
    pose proof (Byte.to_N_bounded b) as Hb.
    assert (0 <= Z.of_N (Byte.to_N b) <= 255) by lia.
    assert (0 < 256 ^ Z.of_nat (length bs)) by (apply Z.pow_pos_nonneg; lia).
    nia.
Qed.

Lemma be_signed_bound bs (n : Z) :
  Z.of_nat (length bs) = n -> 0 < n ->
  - 2 ^ (8 * n - 1) <= be_signed bs < 2 ^ (8 * n - 1).
Proof.
  intros Hl Hn. unfold be_signed. rewrite Hl.
  pose proof (be_unsigned_bound bs) as Hb. rewrite Hl in Hb.
  replace (256 ^ n) with (2 ^ (8 * n)) in Hb
    by (rewrite Z.pow_mul_r by lia; reflexivity).
  assert (E : 2 ^ (8 * n) = 2 * 2 ^ (8 * n - 1)).
  { replace (8 * n) with (1 + (8 * n - 1)) at 1 by lia.
    rewrite Z.pow_add_r by lia. reflexivity. }
  assert (0 < 2 ^ (8 * n - 1)) by (apply Z.pow_pos_nonneg; lia).
  destruct (Z.ltb_spec (be_unsigned bs) (2 ^ (8 * n - 1))); lia.
Qed.

Lemma reads_width_fixed (n : nat) (s : decoder) :
  (0 < n)%nat ->
  reads_width (let* b := read_fixed n in ret (be_signed b)) (Z.of_nat n) s.
Proof.
  intros Hn. unfold reads_width, bind.
  destruct (read_fixed_cases n s) as [[-> Hle]|[-> Hlt]]; split;
    intros ? ? [= <- <-]; simpl.
  - split; [|split].
    + apply be_signed_bound; [|lia]. rewrite length_take. lia.
    + done.
    + rewrite length_drop. lia.
  - repeat split; [lia].
Qed.


(** ** Texts of bounded length *)

Lemma str_length_app a b :
  String.length (a +:+ b) = (String.length a + String.length b)%nat.
Proof.
  induction a as [|c a IH]; [done|].
  change (S (String.length (a +:+ b)) = S (String.length a + String.length b)).
  by rewrite IH.
Qed.

Lemma bytes_hex_length bs :
  String.length (bytes_hex bs) = (2 * length bs)%nat.
Proof. induction bs as [|b bs IH]; simpl; [done|]. rewrite IH. lia. Qed.

(** X9: every text that [read_string] returns comes from the bytes [data]
    that follow the length on the wire in one of two ways: [data] is
    well-formed UTF-8 and the text is its decoding, or [data] is not and
    the text is the hex placeholder of its first 50 bytes, which is at most
    112 characters long however long [data] is. *)
Theorem X9_read_string_result (s s' : decoder) (text : string) :
  read_string s = Return text s' ->
  exists (len : Z) (s1 : decoder) (data : list byte),
    read_i32 s = Return len s1
    /\ stream s1 = data ++ stream s'
    /\ Z.of_nat (length data) = len
    /\ ((utf8_valid data = true /\ text = string_of_list_byte data)
        \/ (utf8_valid data = false
            /\ text = "<binary:" +:+ bytes_hex (take 50 data)
                        +:+ (if (50 <? length data)%nat then "..." else "")
                        +:+ ">"
            /\ (String.length text <= 112)%nat)).
Proof.
  unfold read_string, bind.
  destruct (read_i32 s) as [len s1|e s1|]; [|done..].
  destruct (Z.ltb_spec len 0) as [|Hlo]; [done|].
  destruct (len >? 10 * 1024 * 1024); [done|].
  unfold stream_read, advance, get_pos, raise, ret.
  destruct (Nat.ltb_spec (length (take (Z.to_nat len) (stream s1)))
              (Z.to_nat len)) as [|Hfull]; [done|].
  set (data := take (Z.to_nat len) (stream s1)) in *.
  assert (Hdl : length data = Z.to_nat len).
  { pose proof (length_take_le (stream s1) (Z.to_nat len)).
    unfold data in *. rewrite length_take in *. lia. }
  assert (Hh : (String.length (bytes_hex (take 50 data)) <= 100)%nat).
  { rewrite bytes_hex_length, length_take. lia. }
  destruct (utf8_valid data) eqn:Hv; intros [= <- <-];
    exists len, s1, data; (split; [done|]);
    (split; [symmetry; apply take_drop|]); (split; [lia|]).
  - left. done.
  - right. split; [done|]. split.
    + destruct (50 <? length data)%nat; [|done].
      by rewrite append_assoc.
    + rewrite !str_length_app.
      destruct (50 <? _)%nat; rewrite ?str_length_app; simpl; lia.
Qed.

Lemma X9_read_string_result_witness :
  exists (len : Z) (s1 : decoder) (data : list byte),
    read_i32 (decoder_of [0; 0; 0; 2; 255; 105; 7]) = Return len s1
    /\ stream s1
       = data ++ stream (cursor_at [0; 0; 0; 2; 255; 105; 7] 6 6)
    /\ Z.of_nat (length data) = len
    /\ ((utf8_valid data = true
         /\ "<binary:ff69>" = string_of_list_byte data)
        \/ (utf8_valid data = false
            /\ "<binary:ff69>"
               = "<binary:" +:+ bytes_hex (take 50 data)
                   +:+ (if (50 <? length data)%nat then "..." else "")
                   +:+ ">"
            /\ (String.length "<binary:ff69>" <= 112)%nat)).
Proof.
  apply (X9_read_string_result (decoder_of [0; 0; 0; 2; 255; 105; 7])
           (cursor_at [0; 0; 0; 2; 255; 105; 7] 6 6)).
  reflexivity.
Defined.

Lemma py_len_app a b : py_len (a +:+ b) = py_len a + py_len b.
Proof.
  induction a as [|c a IH]; [done|].
  change (String c a +:+ b) with (String c (a +:+ b)). simpl.
  rewrite IH. lia.
Qed.

Lemma py_len_nonneg a : 0 <= py_len a.
Proof. induction a as [|c a IH]; simpl; [lia|]. destruct (is_cont_char c); lia. Qed.

Lemma py_len_take a : forall n, py_len (py_take n a) <= Z.of_nat n.
Proof.
  induction a as [|c a IH]; intros n; simpl; [lia|].
  destruct (is_cont_char c) eqn:E; simpl.
  - rewrite E. specialize (IH n). lia.
  - destruct n as [|n]; simpl; [lia|]. rewrite E. specialize (IH n). lia.
Qed.

(** X10: with a non-negative [max_field_length], the text the formatter
    writes for a value is the value's text itself when that has at most
    [max_field_length] characters, and otherwise has at most
    [max_field_length] characters followed by ["..."]. *)
Theorem X10_clip_bound (max_field_length : Z) (value_str : string) :
  0 <= max_field_length ->
  (py_len value_str <= max_field_length ->
   clip max_field_length value_str = value_str)
  /\ (max_field_length < py_len value_str ->
      exists head,
        clip max_field_length value_str = head +:+ "..."
        /\ py_len head <= max_field_length)
  /\ py_len (clip max_field_length value_str) <= max_field_length + 3.
Proof.
  intros Hm. unfold clip.
  destruct (Z.gtb_spec (py_len value_str) max_field_length) as [Hgt|Hle].
  - destruct (Z.ltb_spec max_field_length 0); [lia|].
    pose proof (py_len_take value_str (Z.to_nat max_field_length)) as Ht.
    split; [lia|]. split.
    + intros _. eexists. split; [reflexivity | lia].
    + rewrite py_len_app. simpl. lia.
  - split; [done|]. split; [lia | lia].
Qed.

Lemma X10_clip_bound_witness :
  py_len (clip 4 "abcdefgh") <= 4 + 3.
Proof. apply (X10_clip_bound 4 "abcdefgh"). lia. Defined.

(** ** The two framings *)

Lemma read_fixed_app n s bs rest :
  stream s = bs ++ rest -> length bs = n ->
  read_fixed n s = Return bs (add_pos (Z.of_nat n) (set_stream rest s)).
Proof.
  intros Hs Hl. rewrite read_fixed_ok by (rewrite Hs, length_app; lia).
  rewrite Hs, <- Hl. by rewrite take_app_length, drop_app_length.
Qed.

Lemma read_i32_app s bs rest :
  stream s = bs ++ rest -> length bs = 4%nat ->
  read_i32 s = Return (be_signed bs) (add_pos 4 (set_stream rest s)).
Proof.
  intros Hs Hl. unfold read_i32, bind.
  by rewrite (read_fixed_app 4 s bs rest Hs Hl).
Qed.

Lemma read_byte_app s b rest :
  stream s = b :: rest ->
  read_byte s = Return (be_signed [b]) (add_pos 1 (set_stream rest s)).
Proof.
  intros Hs. unfold read_byte, bind.
  by rewrite (read_fixed_app 1 s [b] rest Hs eq_refl).
Qed.

(** The first word of a strict envelope whose kind byte is below 128. *)
Lemma strict_word k :
  (Byte.to_N k < 128)%N ->
  be_signed [x80; x01; x00; k] < 0
  /\ Z.land (be_signed [x80; x01; x00; k]) 0xFFFF0000 = 0x80010000
  /\ Z.land (be_signed [x80; x01; x00; k]) 0xFF = Z.of_N (Byte.to_N k)
  /\ be_signed [k] = Z.of_N (Byte.to_N k).
Proof.
  intros Hk. destruct k; vm_compute in Hk; try discriminate Hk;
    vm_compute; repeat split; congruence.
Qed.

Lemma read_string_app s lp nb rest :
  stream s = lp ++ nb ++ rest -> length lp = 4%nat ->
  be_signed lp = Z.of_nat (length nb) ->
  Z.of_nat (length nb) <= 10 * 1024 * 1024 ->
  utf8_valid nb = true ->
  read_string s
  = Return (string_of_list_byte nb)
      (add_pos (Z.of_nat (length nb))
         (set_stream rest (add_pos 4 (set_stream (nb ++ rest) s)))).
Proof.
  intros Hs Hlp Hlen Hmax Hutf. unfold read_string.
  rewrite (bind_Return _ _ _ _ _ (read_i32_app s lp _ Hs Hlp)), Hlen.
  destruct (Z.ltb_spec (Z.of_nat (length nb)) 0); [lia|].
  destruct (Z.gtb_spec (Z.of_nat (length nb)) (10 * 1024 * 1024)); [lia|].
  unfold bind, stream_read, advance.
  change (stream (add_pos 4 (set_stream (nb ++ rest) s))) with (nb ++ rest).
  rewrite Nat2Z.id, take_app_length, drop_app_length, Nat.ltb_irrefl, Hutf.
  reflexivity.
Qed.

(** X7: strict and legacy framing of the same envelope decode to the same
    (method name, message kind, sequence id): for a method name of
    well-formed UTF-8 of at most 10 MiB and a kind byte below 128, the
    envelope that starts with the version word [80 01 00 kind] and the
    envelope that starts with the name length and carries the kind byte
    after the name give the same triple and leave the same bytes unread. *)
Theorem X7_framings_agree (utf8_error_text : list byte -> string)
    (s1 s2 : decoder) (k : byte) (lp nb sq rest : list byte) :
  (Byte.to_N k < 128)%N ->
  length lp = 4%nat -> length sq = 4%nat ->
  be_signed lp = Z.of_nat (length nb) ->
  Z.of_nat (length nb) <= 10 * 1024 * 1024 ->
  utf8_valid nb = true ->
  stream s1 = [x80; x01; x00; k] ++ lp ++ nb ++ sq ++ rest ->
  stream s2 = lp ++ nb ++ [k] ++ sq ++ rest ->
  exists s1' s2',
    read_message_begin utf8_error_text s1
    = Return (string_of_list_byte nb, Z.of_N (Byte.to_N k), be_signed sq) s1'
    /\ read_message_begin utf8_error_text s2
       = Return (string_of_list_byte nb, Z.of_N (Byte.to_N k), be_signed sq) s2'
    /\ stream s1' = rest /\ stream s2' = rest.
Proof.
  intros Hk Hlp Hsq Hlen Hmax Hutf H1 H2.
  destruct (strict_word k Hk) as (Hneg & Hver & Hkind & Hbyte).
  set (sA := add_pos 4 (set_stream (lp ++ nb ++ sq ++ rest) s1)).
  pose proof (read_i32_app s1 [x80; x01; x00; k] _ H1 eq_refl) as E1.
  fold sA in E1.
  pose proof (read_string_app sA lp nb (sq ++ rest) eq_refl Hlp Hlen Hmax Hutf)
    as Es.
  set (sB := add_pos (Z.of_nat (length nb)) _) in Es.
  pose proof (read_i32_app sB sq rest eq_refl Hsq) as E3.
  set (sL := add_pos 4 (set_stream (nb ++ [k] ++ sq ++ rest) s2)).
  pose proof (read_i32_app s2 lp _ H2 Hlp) as L1. fold sL in L1.
  set (sM := add_pos (Z.of_nat (length nb))
               (set_stream ([k] ++ sq ++ rest) sL)).
  pose proof (read_byte_app sM k (sq ++ rest) eq_refl) as L2.
  set (sN := add_pos 1 _) in L2.
  pose proof (read_i32_app sN sq rest eq_refl Hsq) as L3.
  eexists _, _. split; [|split].
  - unfold read_message_begin. rewrite (bind_Return _ _ _ _ _ E1).
    destruct (Z.ltb_spec (be_signed [x80; x01; x00; k]) 0); [|lia].
    rewrite Hver, Hkind. simpl negb. cbv iota.
    unfold bind. rewrite Es. unfold ret. rewrite E3. reflexivity.
  - unfold read_message_begin. rewrite (bind_Return _ _ _ _ _ L1), Hlen.
    destruct (Z.ltb_spec (Z.of_nat (length nb)) 0); [lia|].
    unfold bind, stream_read, advance.
    change (stream sL) with (nb ++ [k] ++ sq ++ rest).
    rewrite Nat2Z.id, take_app_length, drop_app_length, Nat.ltb_irrefl, Hutf.
    fold sM. rewrite L2, Hbyte. unfold ret. rewrite L3. reflexivity.
  - split; reflexivity.
Qed.

Lemma X7_framings_agree_witness :
  exists s1' s2',
    read_message_begin (fun _ => "") (decoder_of strict_hi)
    = Return ("hi", 1, 5) s1'
    /\ read_message_begin (fun _ => "")
         (decoder_of [0; 0; 0; 2; 104; 105; 1; 0; 0; 0; 5; 0])
       = Return ("hi", 1, 5) s2'
    /\ stream s1' = bytes_of [0] /\ stream s2' = bytes_of [0].
Proof.
  apply (X7_framings_agree (fun _ => "")
           (decoder_of strict_hi)
           (decoder_of [0; 0; 0; 2; 104; 105; 1; 0; 0; 0; 5; 0])
           x01 (bytes_of [0; 0; 0; 2]) (bytes_of [104; 105])
           (bytes_of [0; 0; 0; 5]) (bytes_of [0]));
    try reflexivity.
  vm_compute. discriminate.
Defined.

(** ** The id-to-name table *)

Lemma spec_fold_app (l1 l2 : list spec_entry) (acc : gmap Z string) :
  fold_left
    (fun field_map field_spec =>
       match field_spec with
       | Some (actual_field_id, _, field_name) =>
         <[actual_field_id := field_name]> field_map
       | None => field_map
       end) (l1 ++ l2) acc
  = fold_left
      (fun field_map field_spec =>
         match field_spec with
         | Some (actual_field_id, _, field_name) =>
           <[actual_field_id := field_name]> field_map
         | None => field_map
         end) l2
      (fold_left
         (fun field_map field_spec =>
            match field_spec with
            | Some (actual_field_id, _, field_name) =>
              <[actual_field_id := field_name]> field_map
            | None => field_map
            end) l1 acc).
Proof. apply fold_left_app. Qed.

Lemma spec_fold_absent (l : list spec_entry) (i : Z) :
  forall acc : gmap Z string,
  (forall ty name, Some (i, ty, name) ∉ l) ->
  fold_left
    (fun field_map field_spec =>
       match field_spec with
       | Some (actual_field_id, _, field_name) =>
         <[actual_field_id := field_name]> field_map
       | None => field_map
       end) l acc !! i
  = acc !! i.
Proof.
  induction l as [|[[[j ty] name]|] l IH]; intros acc Hl; simpl; [done|..].
  - rewrite IH by (intros ty' name' Hin; apply (Hl ty' name'); by right).
    apply lookup_insert_ne. intros ->. apply (Hl ty name). by left.
  - apply IH. intros ty' name' Hin. apply (Hl ty' name'). by right.
Qed.

(** X11: in the table built from a [thrift_spec], a field id has the name
    of the last entry of the spec that carries this id, whatever entries
    and holes come before it, and an id that no entry carries is not in the
    table, so its fields keep the synthetic key. *)
Theorem X11_spec_field_map_lookup (thrift_spec : list spec_entry) (i : Z) :
  (forall pre ty name post,
     thrift_spec = pre ++ Some (i, ty, name) :: post ->
     (forall ty' name', Some (i, ty', name') ∉ post) ->
     spec_field_map thrift_spec !! i = Some name)
  /\ ((forall ty name, Some (i, ty, name) ∉ thrift_spec) ->
      spec_field_map thrift_spec !! i = None
      /\ field_key (spec_field_map thrift_spec) i = "field_" +:+ pretty i).
Proof.
  split.
  - intros pre ty name post -> Hpost. unfold spec_field_map.
    rewrite spec_fold_app. simpl.
    rewrite spec_fold_absent by done. apply lookup_insert_eq.
  - intros Habs.
    assert (E : spec_field_map thrift_spec !! i = None).
    { unfold spec_field_map. rewrite spec_fold_absent by done.
      apply lookup_empty. }
    split; [done|]. unfold field_key. by rewrite E.
Qed.

Lemma X11_spec_field_map_lookup_witness :
  spec_field_map exec_spec !! 7 = Some "runAsync".
Proof.
  refine (proj1 (X11_spec_field_map_lookup exec_spec 7)
            [None; Some (1, 12, "sessionHandle"); Some (2, 11, "statement");
             Some (3, 13, "confOverlay"); None; None; None]
            2 "runAsync" [Some (8, 10, "queryTimeout")] _ _).
  - reflexivity.
  - intros ty name Hin. apply list_elem_of_singleton in Hin. discriminate Hin.
Defined.

(** The dict of a struct decoded at positive depth: its items are field
    records under the keys of the decoder's table. *)
Lemma read_struct_field_entries max_depth s fs s' :
  0 < max_depth ->
  read_struct max_depth s = Return (VStruct fs) s' ->
  Forall (field_entry (field_name_map s)) fs.
Proof.
  intros Hd E. rewrite (read_struct_resume _ _ Hd) in E.
  unfold struct_resume in E.
  pose proof (struct_loop_steady (fun t => read_field_value t max_depth)
                (fun t => skip_field t max_depth)
                (fun t => steady_read_field_value_n _ t)
                (fun t => steady_skip_field_n _ t)
                (S (length (stream s))) [] s (List.Forall_nil _)) as H.
  destruct (struct_loop _ _ _ _ _) as [f0 s0|e0 s0|]; [|done..].
  injection E as -> ->. by destruct H.
Qed.

(** X12: in a message dict that [decode_thrift_message] returns, every
    item of the field mapping is a field record filed under the key that
    the table built for the message's method and kind gives to its field
    id; with no registry attached, that is the synthetic key ["field_"]
    followed by the id, and the dict reports that names were not
    resolved. *)
Theorem X12_message_keys (thrift_types : option thrift_module)
    (utf8_error_text : list byte -> string) (data : list byte) (m : message) :
  decode_thrift_message thrift_types utf8_error_text data
    = Returned (Some (DMessage m)) ->
  exists fs message_type,
    m_fields m = VStruct fs
    /\ m_message_type m = message_type_str message_type
    /\ Forall (field_entry
                 (_build_field_name_map thrift_types (Some (m_method m))
                    (Some message_type))) fs
    /\ (thrift_types = None ->
        m_field_names_resolved m = false
        /\ Forall (fun kf : string * value =>
                     exists i, entry_id kf.2 = Some i
                               /\ kf.1 = "field_" +:+ pretty i) fs).
Proof.
  unfold decode_thrift_message, decode_message, decode_message_body, bind.
  destruct (length data <? 4)%nat; [done|].
  destruct (read_message_begin utf8_error_text (new_decoder data None))
    as [[[name mt] seq] s1|e s1|]; [|done..].
  simpl.
  destruct (read_struct_n_returns 32
              (set_message_info thrift_types name mt s1))
    as (fs & s2 & E & _).
  change (read_struct_n 32) with (read_struct 32) in E. rewrite E.
  intros [= <-]. simpl. exists fs, mt. split; [done|]. split; [done|].
  pose proof (read_struct_field_entries 32 _ _ _ eq_refl E) as Hf.
  simpl in Hf. split; [done|].
  intros ->. split; [done|]. unfold _build_field_name_map in Hf.
  eapply Forall_impl; [exact Hf|]. intros [k f]. unfold field_entry. simpl.
  destruct f; try done; intros ->; rewrite field_key_empty; eauto.
Qed.

Lemma X12_message_keys_witness :
  exists fs message_type,
    m_fields exec_message_named = VStruct fs
    /\ m_message_type exec_message_named = message_type_str message_type
    /\ Forall (field_entry
                 (_build_field_name_map (Some exec_types)
                    (Some (m_method exec_message_named))
                    (Some message_type))) fs
    /\ (Some exec_types = None ->
        m_field_names_resolved exec_message_named = false
        /\ Forall (fun kf : string * value =>
                     exists i, entry_id kf.2 = Some i
                               /\ kf.1 = "field_" +:+ pretty i) fs).
Proof.
  apply (X12_message_keys (Some exec_types) (fun _ => "") (bytes_of exec_call)
           exec_message_named).
  vm_compute. reflexivity.
Defined.

(** X13: in legacy framing a method name that is not well-formed UTF-8
    fails the whole decode: [decode_thrift_message] returns the error dict
    with the codec's error text, the error type [UnicodeDecodeError] and
    the bytes counted up to the end of the name. (In strict framing the
    same bytes are read by [read_string], which returns the hex
    placeholder instead.) *)
Theorem X13_legacy_name_not_utf8 (thrift_types : option thrift_module)
    (utf8_error_text : list byte -> string) (lp nb rest : list byte) :
  length lp = 4%nat ->
  be_signed lp = Z.of_nat (length nb) ->
  utf8_valid nb = false ->
  decode_thrift_message thrift_types utf8_error_text (lp ++ nb ++ rest)
  = Returned (Some (DError (utf8_error_text nb) "UnicodeDecodeError"
       (Some (4 + Z.of_nat (length nb),
              Z.of_nat (length (lp ++ nb ++ rest)))))).
Proof.
  intros Hlp Hlen Hutf. unfold decode_thrift_message.
  destruct (Nat.ltb_spec (length (lp ++ nb ++ rest)) 4) as [Hshort|_].
  { rewrite length_app in Hshort. lia. }
  unfold decode_message, decode_message_body.
  set (s0 := new_decoder (lp ++ nb ++ rest) None).
  assert (E : read_message_begin utf8_error_text s0
              = Raise (UnicodeDecodeError (utf8_error_text nb))
                  (add_pos (Z.of_nat (length nb))
                     (set_stream rest
                        (add_pos 4 (set_stream (nb ++ rest) s0))))).
  { unfold read_message_begin.
    rewrite (bind_Return _ _ _ _ _
               (read_i32_app s0 lp (nb ++ rest) eq_refl Hlp)), Hlen.
    destruct (Z.ltb_spec (Z.of_nat (length nb)) 0); [lia|].
    unfold bind, stream_read, advance.
    change (stream (add_pos 4 (set_stream (nb ++ rest) s0)))
      with (nb ++ rest).
    rewrite Nat2Z.id, take_app_length, drop_app_length, Nat.ltb_irrefl, Hutf.
    reflexivity. }
  rewrite (bind_Raise _ _ _ _ _ E). simpl. reflexivity.
Qed.

Lemma X13_legacy_name_not_utf8_witness :
  decode_thrift_message None (fun _ => "bad name")
    (bytes_of [0; 0; 0; 1] ++ bytes_of [255] ++ bytes_of [1; 0; 0; 0; 5; 0])
  = Returned (Some (DError "bad name" "UnicodeDecodeError" (Some (5, 11)))).
Proof.
  apply (X13_legacy_name_not_utf8 None (fun _ => "bad name")
           (bytes_of [0; 0; 0; 1]) (bytes_of [255])
           (bytes_of [1; 0; 0; 0; 5; 0])); reflexivity.
Defined.

Lemma build_map_other_kinds types name mt :
  message_type_str mt <> "CALL" -> message_type_str mt <> "REPLY" ->
  _build_field_name_map types name (Some mt) = ∅.
Proof.
  intros Hc Hr. unfold _build_field_name_map.
  destruct types as [types|]; [|done]. destruct name as [name|]; [|done].
  destruct (String.eqb name ""); [done|].
  destruct (Z.eqb_spec mt MESSAGE_TYPE_CALL) as [->|_]; [done|].
  destruct (Z.eqb_spec mt MESSAGE_TYPE_REPLY) as [->|_]; [done|]. done.
Qed.

(** X14: for a message whose kind is neither Call nor Reply (an exception,
    a one-way call, an unknown kind) no names are resolved even when a
    registry is attached: the dict reports names as unresolved, carries no
    mapping count and no struct type, and every field is filed under its
    synthetic key. *)
Theorem X14_names_only_for_call_and_reply
    (thrift_types : option thrift_module)
    (utf8_error_text : list byte -> string) (data : list byte) (m : message) :
  decode_thrift_message thrift_types utf8_error_text data
    = Returned (Some (DMessage m)) ->
  m_message_type m <> "CALL" ->
  m_message_type m <> "REPLY" ->
  m_field_names_resolved m = false
  /\ m_resolved_fields_count m = None
  /\ m_struct_type m = None
  /\ exists fs,
       m_fields m = VStruct fs
       /\ Forall (fun kf : string * value =>
                    exists i, entry_id kf.2 = Some i
                              /\ kf.1 = "field_" +:+ pretty i) fs.
Proof.
  unfold decode_thrift_message, decode_message, decode_message_body, bind.
  destruct (length data <? 4)%nat; [done|].
  destruct (read_message_begin utf8_error_text (new_decoder data None))
    as [[[name mt] seq] s1|e s1|]; [|done..].
  simpl.
  pose proof (steady_read_struct_with (read_field_value_n 32)
                (skip_field_n 32) (steady_read_field_value_n 32)
                (steady_skip_field_n 32) 32
                (set_message_info thrift_types name mt s1)) as Hs.
  change (read_struct_with 32 (read_field_value_n 32) (skip_field_n 32))
    with (read_struct 32) in Hs.
  destruct (read_struct_n_returns 32
              (set_message_info thrift_types name mt s1))
    as (fs & s2 & E & _).
  change (read_struct_n 32) with (read_struct 32) in E. rewrite E in Hs |- *.
  intros [= <-] Hc Hr. simpl in Hc, Hr |- *.
  pose proof (build_map_other_kinds thrift_types (Some name) mt Hc Hr) as Hm.
  assert (Hn : field_name_map s2 = ∅).
  { destruct Hs as (_ & -> & _). exact Hm. }
  rewrite Hn.
  assert (Hres : match thrift_types with
                 | Some _ => negb (map_is_empty (∅ : gmap Z string))
                 | None => false
                 end = false) by (by destruct thrift_types).
  rewrite Hres. repeat split.
  exists fs. split; [done|].
  pose proof (read_struct_field_entries 32 _ _ _ eq_refl E) as Hf.
  simpl in Hf. rewrite Hm in Hf.
  eapply Forall_impl; [exact Hf|]. intros [k f]. unfold field_entry. simpl.
  destruct f; try done; intros ->; rewrite field_key_empty; eauto.
Qed.

(** X15: the message kind that [read_message_begin] returns lies between
    -128 and 255 (0 to 255 in strict framing, a signed byte in legacy
    framing) and the sequence id is in the signed 32-bit range. *)
Theorem X15_envelope_ranges (utf8_error_text : list byte -> string)
    (s s' : decoder) (name : string) (kind seq : Z) :
  read_message_begin utf8_error_text s = Return (name, kind, seq) s' ->
  - 128 <= kind <= 255 /\ - 2 ^ 31 <= seq < 2 ^ 31.
Proof.
  unfold read_message_begin. unfold bind at 1.
  destruct (read_i32 s) as [size s1|e s1|]; [|done..].
  unfold bind at 1.
  match goal with
  | |- context [match ?m s1 with _ => _ end] =>
    destruct (m s1) as [[n k] s2|e s2|] eqn:E
  end; [|done..].
  unfold bind.
  pose proof (proj1 (reads_width_fixed 4 s2 ltac:(lia))) as Hseq.
  fold read_i32 in Hseq.
  destruct (read_i32 s2) as [q s3|e s3|] eqn:E3; [|done..].
  intros [= <- <- <- <-]. simpl.
  split; [|by apply (Hseq q s3 eq_refl)].
  destruct (Z.ltb_spec size 0).
  - destruct (negb _); [done|]. unfold bind in E.
    destruct (read_string s1); [|done..]. injection E as _ <- _.
    assert (Hland : Z.land size 255 = size mod 256)
      by (change 255 with (Z.ones 8); rewrite Z.land_ones by lia; done).
    rewrite Hland.
    pose proof (Z.mod_pos_bound size 256 ltac:(lia)). lia.
  - unfold bind, stream_read, advance in E.
    destruct (_ <? _)%nat; [done|]. destruct (utf8_valid _); [|done].
    pose proof (proj1 (reads_width_fixed 1
                  (add_pos size
                     (set_stream (drop (Z.to_nat size) (stream s1)) s1))
                  ltac:(lia))) as Hb.
    fold read_byte in Hb.
    destruct (read_byte _) as [b sb|e sb|] eqn:Eb; [|done..].
    injection E as _ <- _. specialize (Hb b sb eq_refl). lia.
Qed.

Lemma X15_envelope_ranges_witness :
  - 128 <= 1 <= 255 /\ - 2 ^ 31 <= 5 < 2 ^ 31.
Proof.
  apply (X15_envelope_ranges (fun _ => "") (decoder_of strict_hi)
           (cursor_at strict_hi 14 14) "hi" 1 5).
  reflexivity.
Defined.

Lemma X14_names_only_for_call_and_reply_witness :
  m_field_names_resolved exec_exception_message = false
  /\ m_resolved_fields_count exec_exception_message = None
  /\ m_struct_type exec_exception_message = None
  /\ exists fs,
       m_fields exec_exception_message = VStruct fs
       /\ Forall (fun kf : string * value =>
                    exists i, entry_id kf.2 = Some i
                              /\ kf.1 = "field_" +:+ pretty i) fs.
Proof.
  apply (X14_names_only_for_call_and_reply (Some exec_types) (fun _ => "")
           (bytes_of exec_exception) exec_exception_message).
  - vm_compute. reflexivity.
  - discriminate.
  - discriminate.
Defined.
